(** * vote-two-player-game: the peer synchronisation core of [App]

    A shallow embedding of the protocol code of the React component [App]:
    role negotiation, the round life cycle, vote admission, end-time
    negotiation, snapshots and the history index.

    The component keeps its data in [useState] cells and mirrors some of
    them in [useRef] cells that handlers read synchronously.  Both kinds
    of cells are fields of [World]; a handler is a function
    [Env -> World -> World] that performs the writes of the source in
    the order of the source, and [flushEffects] performs the
    [useEffect]s that copy a state cell into its ref after a render.
    An event is one handler run to completion, followed by these
    effects: between any two events the component has rendered and the
    refs are up to date.  Two handlers that run before a render, as for
    two messages that arrive back to back, see refs that are not yet up
    to date; such a pair is no sequence of events here, and nothing is
    stated about it.  An effect whose body does more than copy a cell,
    and each timer callback, is an event of its own that may fire
    whenever its own guard lets it.

    Numbers are whole numbers in [Z]: seconds, milliseconds, counts.
    Every number that the component computes is one ([Math.floor] of the
    clock, a parsed date, a counter), and for whole numbers
    [JSON.parse (JSON.stringify v)] is [v], so the store holds values,
    not text.  This is exact for a component whose peer is another such
    component and whose store it wrote itself ([amongPeers]).  A number
    that only a foreign peer can send, a fraction or [1e999], which
    [JSON.parse] reads as [Infinity] and [JSON.stringify] writes as
    [null], is not a value of the model, with one exception: the end
    time of a [start], the only number the source tests with
    [Number.isFinite], is a [jsnum], which has the non-finite doubles.
    Where a property is stated for a component [amongPeers], every
    number that the component meets is a whole one.

    The user-facing texts are constructors of [Text].  The cache of
    opened history snapshots is a plain object indexed by round id, so a
    look-up also finds the members that every object inherits
    ([objectPrototypeKeys]).  Cells that only serve the connection
    dialogue and the rendering ([localSdp], [remoteSdp],
    [statusMessage], the tab list, the input boxes, the confirmation
    dialogue) are left out. *)

From stdpp Require Import base numbers strings list gmap sorting.

Open Scope Z_scope.

Notation "w |> f" := (f w) (at level 45, left associativity, only parsing).

(** ** Data model *)

Inductive Role := red | blue.
Inductive ConnectionMode := offer | answer.
Inductive ConnectionStatus :=
  conn_idle | creating_offer | waiting_answer | connected | conn_error.
Inductive GameState := idle | running | ended.
(** [RTCDataChannel.readyState] *)
Inductive ReadyState := connecting | open | closing | closed.

#[global] Instance Role_eq_dec : EqDecision Role.
Proof. solve_decision. Defined.
#[global] Instance ConnectionMode_eq_dec : EqDecision ConnectionMode.
Proof. solve_decision. Defined.
#[global] Instance ConnectionStatus_eq_dec : EqDecision ConnectionStatus.
Proof. solve_decision. Defined.
#[global] Instance GameState_eq_dec : EqDecision GameState.
Proof. solve_decision. Defined.
#[global] Instance ReadyState_eq_dec : EqDecision ReadyState.
Proof. solve_decision. Defined.

(** A JavaScript number where the source distinguishes the finite ones. *)
Inductive jsnum := Fin (z : Z) | PosInf | NegInf | NaN.

Definition Number_isFinite (n : jsnum) : bool :=
  match n with Fin _ => true | _ => false end.

(** [n <= z] and [n > z] of JavaScript, for a finite [z]. *)
Definition js_le (n : jsnum) (z : Z) : bool :=
  match n with Fin e => e <=? z | NegInf => true | PosInf | NaN => false end.
Definition js_gt (n : jsnum) (z : Z) : bool :=
  match n with Fin e => z <? e | PosInf => true | NegInf | NaN => false end.

Record VoteEvent := { target : Role; elapsed : Z }.
Record SnapshotEvent := { ev_at : Z; ev_target : Role }.

Record GameSnapshot := {
  snap_version : Z;
  snap_lastUpdatedAt : Z;
  snap_gameId : string;
  snap_sessionId : option string;
  snap_isHost : bool;
  snap_lockedRole : Role;
  snap_startTimeSec : Z;
  snap_endTimeSec : Z;
  snap_gameState : GameState;
  snap_scoreRed : Z;
  snap_scoreBlue : Z;
  snap_events : list SnapshotEvent }.

Record HistoryIndexEntry := {
  hist_gameId : string;
  hist_startTimeSec : Z;
  hist_endTimeSec : Z;
  hist_scoreRed : Z;
  hist_scoreBlue : Z;
  hist_lastUpdatedAt : Z }.

Record SessionRoles := { hostRole : Role; guestRole : Role }.

(** The messages of the channel.  A received message is what [JSON.parse]
    made of the text; its numbers are whole, but for the end time of
    [start]. *)
Inductive Message :=
  | start (roundId : string) (endTime : jsnum) (roles : option SessionRoles)
  | vote (roundId : string) (tgt : Role) (at_ : Z)
  | proposeEndChange (roundId : string) (proposedEndTime : Z)
  | acceptEndChange (roundId : string) (proposedEndTime : Z)
  | rejectEndChange (roundId : string) (proposedEndTime : Z)
  | proposeEndNow (roundId : string)
  | acceptEndNow (roundId : string)
  | rejectEndNow (roundId : string)
  | assignRoles (sid : string) (host guest : Role)
  | assignRolesAck (sid : string) (myRole : Role)
  | stateSnapshot (roundId : string) (payload : GameSnapshot).

(** The texts shown to the user, one constructor per literal of the source. *)
Inductive Text :=
  | txt_waiting_for_assignment
  | txt_role_misassigned_retry
  | txt_role_corrected_from_round
  | txt_role_locked (r : Role)
  | txt_role_overridden (prev mine : Role)
  | txt_role_change_refused
  | txt_assign_send_failed
  | txt_channel_not_ready
  | txt_send_failed
  | txt_roles_done_guest
  | txt_roles_done_host
  | txt_end_change_accepted_by_peer
  | txt_end_change_rejected_by_peer
  | txt_end_now_accepted_by_peer
  | txt_end_now_rejected_by_peer
  | txt_start_history_readonly
  | txt_start_role_not_locked
  | txt_start_not_connected
  | txt_start_invalid_end
  | txt_start_end_not_future
  | txt_propose_history_readonly
  | txt_propose_not_connected
  | txt_propose_not_running
  | txt_propose_invalid_end
  | txt_propose_end_not_future
  | txt_proposed_end_change
  | txt_endnow_history_readonly
  | txt_endnow_not_connected
  | txt_endnow_not_running
  | txt_proposed_end_now
  | txt_you_accepted_end_change
  | txt_you_rejected_end_change
  | txt_you_accepted_end_now
  | txt_you_rejected_end_now
  | txt_vote_history_readonly
  | txt_vote_role_not_locked
  | txt_vote_not_connected
  | txt_vote_not_running
  | txt_history_snapshot_missing
  | txt_history_snapshot_malformed
  | txt_history_load_failed
  | txt_history_index_unreadable
  | txt_channel_error
  | txt_p2p_problem
  | txt_connection_lost
  | txt_offer_failed
  | txt_paste_offer_first
  | txt_answer_failed.

(** What [console.warn] and [console.error] receive. *)
Inductive LogEntry :=
  | warn_foreign_snapshot (current incoming : string)
  | warn_vote_target (expected received : Role)
  | error_caught.

(** Values of [window.localStorage], before [JSON.stringify]; for the
    whole numbers of the model [JSON.parse] gives them back. *)
Inductive Stored :=
  | StoredId (id : string)
  | StoredSnapshot (s : GameSnapshot)
  | StoredIndex (l : list HistoryIndexEntry).

Definition GAME_ID_STORAGE_KEY : string := "currentGameId".
Definition SNAPSHOT_LAST_ID_KEY : string := "vote2p:lastSnapshotId".
Definition SNAPSHOT_KEY_PREFIX : string := "vote2p:snapshot:".
Definition HISTORY_INDEX_KEY : string := "vote2p:historyIndex".

Definition getSnapshotStorageKey (gameId : string) : string :=
  SNAPSHOT_KEY_PREFIX +:+ gameId.

(** ** The cells of the component

    The records of cells have primitive projections, so that a cell of a
    world that a chain of writes produced reduces to the value written. *)

#[projections(primitive)] Record Scores := { score_red : Z; score_blue : Z }.

#[projections(primitive)] Record Round := {
  currentRoundId : option string;
  startTimeSec : option Z;
  endTimeSec : option Z;
  resolvedEndTimeSec : option Z;
  timeRemaining : Z;
  gameState : GameState;
  scores : Scores;
  voteEvents : list VoteEvent }.

#[projections(primitive)] Record Session := {
  lockedRole : option Role;
  roleLocked : bool;
  sessionId : option string;
  sessionRoles : option SessionRoles;
  rolesConfirmed : bool }.

#[projections(primitive)] Record Negotiation := {
  incomingEndChange : option Z;
  incomingEndNow : bool }.

#[projections(primitive)] Record Notices := {
  roleSyncMessage : option Text;
  infoMessage : option Text;
  voteIgnoreMessage : option Text;
  roleAssignmentNotice : option Text;
  error : option Text }.

(** What [historyViewSnapshot] may hold.  The cache of opened history
    snapshots is a plain object that is indexed with a round id, so
    besides a snapshot that was put there the look-up can give a member
    that every object inherits from [Object.prototype]. *)
Inductive ViewedSnapshot :=
  | viewed (snapshot : GameSnapshot)
  | inherited (name : string).

(** [historyViewSnapshot?.gameId] *)
Definition viewedGameId (v : ViewedSnapshot) : option string :=
  match v with
  | viewed snapshot => Some (snap_gameId snapshot)
  | inherited _ => None
  end.

(** The names of the members of [Object.prototype]; each is a function,
    an accessor that gives an object, or the prototype itself, so
    [!obj[name]] is false for every plain object [obj]. *)
Definition objectPrototypeKeys : list string :=
  [ "constructor"; "__defineGetter__"; "__defineSetter__"; "hasOwnProperty";
    "__lookupGetter__"; "__lookupSetter__"; "isPrototypeOf";
    "propertyIsEnumerable"; "toString"; "valueOf"; "__proto__";
    "toLocaleString" ].

#[projections(primitive)] Record View := {
  currentGameId : option string;
  storedGameIdHint : option string;
  offlineSnapshotMode : bool;
  snapshotMeta : option (Z * Z);
  historyIndex : list HistoryIndexEntry;
  historyError : option Text;
  historyViewSnapshot : option ViewedSnapshot;
  historyViewSnapshots : gmap string GameSnapshot;
  activeTabKey : option string }.

#[projections(primitive)] Record Conn := {
  connectionMode : ConnectionMode;
  connectionStatus : ConnectionStatus }.

#[projections(primitive)] Record Refs := {
  dataChannelRef : option ReadyState;
  timerRef : bool;
  currentRoundIdRef : option string;
  sessionIdRef : option string;
  lockedRoleRef : option Role;
  connectionModeRef : ConnectionMode;
  hasSentAssignRolesRef : bool;
  snapshotVersionRef : Z;
  hasSentStateSnapshotRef : bool;
  assignRolesRetryCountRef : Z;
  assignRolesRetryTimerRef : bool;
  rolesConfirmedRef : bool;
  sessionRolesRef : option SessionRoles }.

#[projections(primitive)] Record World := {
  round : Round;
  session : Session;
  nego : Negotiation;
  notices : Notices;
  view : View;
  conn : Conn;
  refs : Refs;
  localStorage : gmap string Stored;
  gid : option string;
  sent : list Message;
  console : list LogEntry }.

(** What a handler reads from outside: the clock ([Date.now()], in
    milliseconds), whether [localStorage] accepts the accesses of this
    handler and whether [channel.send] returns normally. *)
Record Env := { now : Z; storageOk : bool; sendOk : bool }.

Definition nowSec (e : Env) : Z := now e / 1000.
(** ** Writing one cell

    [with_f g w] replaces cell [f] of [w] by [g] of its pending value, which
    is what a functional [setState] does; the shorthands below it are the
    setters and the assignments to [ref.current] of the source. *)

Definition with_round g (w : World) : World :=
  {| round := g (round w); session := session w; nego := nego w;
     notices := notices w; view := view w; conn := conn w; refs := refs w;
     localStorage := localStorage w; gid := gid w; sent := sent w;
     console := console w |}.
Definition with_session g (w : World) : World :=
  {| round := round w; session := g (session w); nego := nego w;
     notices := notices w; view := view w; conn := conn w; refs := refs w;
     localStorage := localStorage w; gid := gid w; sent := sent w;
     console := console w |}.
Definition with_nego g (w : World) : World :=
  {| round := round w; session := session w; nego := g (nego w);
     notices := notices w; view := view w; conn := conn w; refs := refs w;
     localStorage := localStorage w; gid := gid w; sent := sent w;
     console := console w |}.
Definition with_notices g (w : World) : World :=
  {| round := round w; session := session w; nego := nego w;
     notices := g (notices w); view := view w; conn := conn w;
     refs := refs w; localStorage := localStorage w; gid := gid w;
     sent := sent w; console := console w |}.
Definition with_view g (w : World) : World :=
  {| round := round w; session := session w; nego := nego w;
     notices := notices w; view := g (view w); conn := conn w;
     refs := refs w; localStorage := localStorage w; gid := gid w;
     sent := sent w; console := console w |}.
Definition with_conn g (w : World) : World :=
  {| round := round w; session := session w; nego := nego w;
     notices := notices w; view := view w; conn := g (conn w);
     refs := refs w; localStorage := localStorage w; gid := gid w;
     sent := sent w; console := console w |}.
Definition with_refs g (w : World) : World :=
  {| round := round w; session := session w; nego := nego w;
     notices := notices w; view := view w; conn := conn w;
     refs := g (refs w); localStorage := localStorage w; gid := gid w;
     sent := sent w; console := console w |}.
Definition with_localStorage g (w : World) : World :=
  {| round := round w; session := session w; nego := nego w;
     notices := notices w; view := view w; conn := conn w; refs := refs w;
     localStorage := g (localStorage w); gid := gid w; sent := sent w;
     console := console w |}.
Definition with_gid g (w : World) : World :=
  {| round := round w; session := session w; nego := nego w;
     notices := notices w; view := view w; conn := conn w; refs := refs w;
     localStorage := localStorage w; gid := g (gid w); sent := sent w;
     console := console w |}.
Definition with_sent g (w : World) : World :=
  {| round := round w; session := session w; nego := nego w;
     notices := notices w; view := view w; conn := conn w; refs := refs w;
     localStorage := localStorage w; gid := gid w; sent := g (sent w);
     console := console w |}.
Definition with_console g (w : World) : World :=
  {| round := round w; session := session w; nego := nego w;
     notices := notices w; view := view w; conn := conn w; refs := refs w;
     localStorage := localStorage w; gid := gid w; sent := sent w;
     console := g (console w) |}.

Definition setCurrentRoundId v : World -> World :=
  with_round (fun r => {| currentRoundId := v;
     startTimeSec := startTimeSec r; endTimeSec := endTimeSec r;
     resolvedEndTimeSec := resolvedEndTimeSec r;
     timeRemaining := timeRemaining r; gameState := gameState r;
     scores := scores r; voteEvents := voteEvents r |}).
Definition setStartTimeSec v : World -> World :=
  with_round (fun r => {| currentRoundId := currentRoundId r;
     startTimeSec := v; endTimeSec := endTimeSec r;
     resolvedEndTimeSec := resolvedEndTimeSec r;
     timeRemaining := timeRemaining r; gameState := gameState r;
     scores := scores r; voteEvents := voteEvents r |}).
Definition setEndTimeSec v : World -> World :=
  with_round (fun r => {| currentRoundId := currentRoundId r;
     startTimeSec := startTimeSec r; endTimeSec := v;
     resolvedEndTimeSec := resolvedEndTimeSec r;
     timeRemaining := timeRemaining r; gameState := gameState r;
     scores := scores r; voteEvents := voteEvents r |}).
Definition setResolvedEndTimeSec v : World -> World :=
  with_round (fun r => {| currentRoundId := currentRoundId r;
     startTimeSec := startTimeSec r; endTimeSec := endTimeSec r;
     resolvedEndTimeSec := v; timeRemaining := timeRemaining r;
     gameState := gameState r; scores := scores r;
     voteEvents := voteEvents r |}).
Definition setTimeRemaining v : World -> World :=
  with_round (fun r => {| currentRoundId := currentRoundId r;
     startTimeSec := startTimeSec r; endTimeSec := endTimeSec r;
     resolvedEndTimeSec := resolvedEndTimeSec r; timeRemaining := v;
     gameState := gameState r; scores := scores r;
     voteEvents := voteEvents r |}).
Definition setGameState v : World -> World :=
  with_round (fun r => {| currentRoundId := currentRoundId r;
     startTimeSec := startTimeSec r; endTimeSec := endTimeSec r;
     resolvedEndTimeSec := resolvedEndTimeSec r;
     timeRemaining := timeRemaining r; gameState := v; scores := scores r;
     voteEvents := voteEvents r |}).
Definition setScores v : World -> World :=
  with_round (fun r => {| currentRoundId := currentRoundId r;
     startTimeSec := startTimeSec r; endTimeSec := endTimeSec r;
     resolvedEndTimeSec := resolvedEndTimeSec r;
     timeRemaining := timeRemaining r; gameState := gameState r; scores := v;
     voteEvents := voteEvents r |}).
Definition setVoteEvents v : World -> World :=
  with_round (fun r => {| currentRoundId := currentRoundId r;
     startTimeSec := startTimeSec r; endTimeSec := endTimeSec r;
     resolvedEndTimeSec := resolvedEndTimeSec r;
     timeRemaining := timeRemaining r; gameState := gameState r;
     scores := scores r; voteEvents := v |}).

Definition setLockedRole v : World -> World :=
  with_session (fun r => {| lockedRole := v; roleLocked := roleLocked r;
     sessionId := sessionId r; sessionRoles := sessionRoles r;
     rolesConfirmed := rolesConfirmed r |}).
Definition setRoleLocked v : World -> World :=
  with_session (fun r => {| lockedRole := lockedRole r; roleLocked := v;
     sessionId := sessionId r; sessionRoles := sessionRoles r;
     rolesConfirmed := rolesConfirmed r |}).
Definition setSessionId v : World -> World :=
  with_session (fun r => {| lockedRole := lockedRole r;
     roleLocked := roleLocked r; sessionId := v;
     sessionRoles := sessionRoles r; rolesConfirmed := rolesConfirmed r |}).
Definition setSessionRoles v : World -> World :=
  with_session (fun r => {| lockedRole := lockedRole r;
     roleLocked := roleLocked r; sessionId := sessionId r; sessionRoles := v;
     rolesConfirmed := rolesConfirmed r |}).
Definition setRolesConfirmed v : World -> World :=
  with_session (fun r => {| lockedRole := lockedRole r;
     roleLocked := roleLocked r; sessionId := sessionId r;
     sessionRoles := sessionRoles r; rolesConfirmed := v |}).

Definition setIncomingEndChange v : World -> World :=
  with_nego (fun r => {| incomingEndChange := v;
     incomingEndNow := incomingEndNow r |}).
Definition setIncomingEndNow v : World -> World :=
  with_nego (fun r => {| incomingEndChange := incomingEndChange r;
     incomingEndNow := v |}).

Definition setRoleSyncMessage v : World -> World :=
  with_notices (fun r => {| roleSyncMessage := v;
     infoMessage := infoMessage r; voteIgnoreMessage := voteIgnoreMessage r;
     roleAssignmentNotice := roleAssignmentNotice r; error := error r |}).
Definition setInfoMessage v : World -> World :=
  with_notices (fun r => {| roleSyncMessage := roleSyncMessage r;
     infoMessage := v; voteIgnoreMessage := voteIgnoreMessage r;
     roleAssignmentNotice := roleAssignmentNotice r; error := error r |}).
Definition setVoteIgnoreMessage v : World -> World :=
  with_notices (fun r => {| roleSyncMessage := roleSyncMessage r;
     infoMessage := infoMessage r; voteIgnoreMessage := v;
     roleAssignmentNotice := roleAssignmentNotice r; error := error r |}).
Definition setRoleAssignmentNotice v : World -> World :=
  with_notices (fun r => {| roleSyncMessage := roleSyncMessage r;
     infoMessage := infoMessage r; voteIgnoreMessage := voteIgnoreMessage r;
     roleAssignmentNotice := v; error := error r |}).
Definition setError v : World -> World :=
  with_notices (fun r => {| roleSyncMessage := roleSyncMessage r;
     infoMessage := infoMessage r; voteIgnoreMessage := voteIgnoreMessage r;
     roleAssignmentNotice := roleAssignmentNotice r; error := v |}).

Definition setCurrentGameId v : World -> World :=
  with_view (fun r => {| currentGameId := v;
     storedGameIdHint := storedGameIdHint r;
     offlineSnapshotMode := offlineSnapshotMode r;
     snapshotMeta := snapshotMeta r; historyIndex := historyIndex r;
     historyError := historyError r;
     historyViewSnapshot := historyViewSnapshot r;
     historyViewSnapshots := historyViewSnapshots r;
     activeTabKey := activeTabKey r |}).
Definition setStoredGameIdHint v : World -> World :=
  with_view (fun r => {| currentGameId := currentGameId r;
     storedGameIdHint := v; offlineSnapshotMode := offlineSnapshotMode r;
     snapshotMeta := snapshotMeta r; historyIndex := historyIndex r;
     historyError := historyError r;
     historyViewSnapshot := historyViewSnapshot r;
     historyViewSnapshots := historyViewSnapshots r;
     activeTabKey := activeTabKey r |}).
Definition setOfflineSnapshotMode v : World -> World :=
  with_view (fun r => {| currentGameId := currentGameId r;
     storedGameIdHint := storedGameIdHint r; offlineSnapshotMode := v;
     snapshotMeta := snapshotMeta r; historyIndex := historyIndex r;
     historyError := historyError r;
     historyViewSnapshot := historyViewSnapshot r;
     historyViewSnapshots := historyViewSnapshots r;
     activeTabKey := activeTabKey r |}).
Definition setSnapshotMeta v : World -> World :=
  with_view (fun r => {| currentGameId := currentGameId r;
     storedGameIdHint := storedGameIdHint r;
     offlineSnapshotMode := offlineSnapshotMode r; snapshotMeta := v;
     historyIndex := historyIndex r; historyError := historyError r;
     historyViewSnapshot := historyViewSnapshot r;
     historyViewSnapshots := historyViewSnapshots r;
     activeTabKey := activeTabKey r |}).
Definition setHistoryIndex v : World -> World :=
  with_view (fun r => {| currentGameId := currentGameId r;
     storedGameIdHint := storedGameIdHint r;
     offlineSnapshotMode := offlineSnapshotMode r;
     snapshotMeta := snapshotMeta r; historyIndex := v;
     historyError := historyError r;
     historyViewSnapshot := historyViewSnapshot r;
     historyViewSnapshots := historyViewSnapshots r;
     activeTabKey := activeTabKey r |}).
Definition setHistoryError v : World -> World :=
  with_view (fun r => {| currentGameId := currentGameId r;
     storedGameIdHint := storedGameIdHint r;
     offlineSnapshotMode := offlineSnapshotMode r;
     snapshotMeta := snapshotMeta r; historyIndex := historyIndex r;
     historyError := v; historyViewSnapshot := historyViewSnapshot r;
     historyViewSnapshots := historyViewSnapshots r;
     activeTabKey := activeTabKey r |}).
Definition setHistoryViewSnapshot v : World -> World :=
  with_view (fun r => {| currentGameId := currentGameId r;
     storedGameIdHint := storedGameIdHint r;
     offlineSnapshotMode := offlineSnapshotMode r;
     snapshotMeta := snapshotMeta r; historyIndex := historyIndex r;
     historyError := historyError r; historyViewSnapshot := v;
     historyViewSnapshots := historyViewSnapshots r;
     activeTabKey := activeTabKey r |}).
Definition setHistoryViewSnapshots v : World -> World :=
  with_view (fun r => {| currentGameId := currentGameId r;
     storedGameIdHint := storedGameIdHint r;
     offlineSnapshotMode := offlineSnapshotMode r;
     snapshotMeta := snapshotMeta r; historyIndex := historyIndex r;
     historyError := historyError r;
     historyViewSnapshot := historyViewSnapshot r; historyViewSnapshots := v;
     activeTabKey := activeTabKey r |}).
Definition setActiveTabKey v : World -> World :=
  with_view (fun r => {| currentGameId := currentGameId r;
     storedGameIdHint := storedGameIdHint r;
     offlineSnapshotMode := offlineSnapshotMode r;
     snapshotMeta := snapshotMeta r; historyIndex := historyIndex r;
     historyError := historyError r;
     historyViewSnapshot := historyViewSnapshot r;
     historyViewSnapshots := historyViewSnapshots r; activeTabKey := v |}).

Definition setConnectionMode v : World -> World :=
  with_conn (fun r => {| connectionMode := v;
     connectionStatus := connectionStatus r |}).
Definition setConnectionStatus v : World -> World :=
  with_conn (fun r => {| connectionMode := connectionMode r;
     connectionStatus := v |}).

Definition setDataChannelRef v : World -> World :=
  with_refs (fun r => {| dataChannelRef := v; timerRef := timerRef r;
     currentRoundIdRef := currentRoundIdRef r;
     sessionIdRef := sessionIdRef r; lockedRoleRef := lockedRoleRef r;
     connectionModeRef := connectionModeRef r;
     hasSentAssignRolesRef := hasSentAssignRolesRef r;
     snapshotVersionRef := snapshotVersionRef r;
     hasSentStateSnapshotRef := hasSentStateSnapshotRef r;
     assignRolesRetryCountRef := assignRolesRetryCountRef r;
     assignRolesRetryTimerRef := assignRolesRetryTimerRef r;
     rolesConfirmedRef := rolesConfirmedRef r;
     sessionRolesRef := sessionRolesRef r |}).
Definition setTimerRef v : World -> World :=
  with_refs (fun r => {| dataChannelRef := dataChannelRef r; timerRef := v;
     currentRoundIdRef := currentRoundIdRef r;
     sessionIdRef := sessionIdRef r; lockedRoleRef := lockedRoleRef r;
     connectionModeRef := connectionModeRef r;
     hasSentAssignRolesRef := hasSentAssignRolesRef r;
     snapshotVersionRef := snapshotVersionRef r;
     hasSentStateSnapshotRef := hasSentStateSnapshotRef r;
     assignRolesRetryCountRef := assignRolesRetryCountRef r;
     assignRolesRetryTimerRef := assignRolesRetryTimerRef r;
     rolesConfirmedRef := rolesConfirmedRef r;
     sessionRolesRef := sessionRolesRef r |}).
Definition setCurrentRoundIdRef v : World -> World :=
  with_refs (fun r => {| dataChannelRef := dataChannelRef r;
     timerRef := timerRef r; currentRoundIdRef := v;
     sessionIdRef := sessionIdRef r; lockedRoleRef := lockedRoleRef r;
     connectionModeRef := connectionModeRef r;
     hasSentAssignRolesRef := hasSentAssignRolesRef r;
     snapshotVersionRef := snapshotVersionRef r;
     hasSentStateSnapshotRef := hasSentStateSnapshotRef r;
     assignRolesRetryCountRef := assignRolesRetryCountRef r;
     assignRolesRetryTimerRef := assignRolesRetryTimerRef r;
     rolesConfirmedRef := rolesConfirmedRef r;
     sessionRolesRef := sessionRolesRef r |}).
Definition setSessionIdRef v : World -> World :=
  with_refs (fun r => {| dataChannelRef := dataChannelRef r;
     timerRef := timerRef r; currentRoundIdRef := currentRoundIdRef r;
     sessionIdRef := v; lockedRoleRef := lockedRoleRef r;
     connectionModeRef := connectionModeRef r;
     hasSentAssignRolesRef := hasSentAssignRolesRef r;
     snapshotVersionRef := snapshotVersionRef r;
     hasSentStateSnapshotRef := hasSentStateSnapshotRef r;
     assignRolesRetryCountRef := assignRolesRetryCountRef r;
     assignRolesRetryTimerRef := assignRolesRetryTimerRef r;
     rolesConfirmedRef := rolesConfirmedRef r;
     sessionRolesRef := sessionRolesRef r |}).
Definition setLockedRoleRef v : World -> World :=
  with_refs (fun r => {| dataChannelRef := dataChannelRef r;
     timerRef := timerRef r; currentRoundIdRef := currentRoundIdRef r;
     sessionIdRef := sessionIdRef r; lockedRoleRef := v;
     connectionModeRef := connectionModeRef r;
     hasSentAssignRolesRef := hasSentAssignRolesRef r;
     snapshotVersionRef := snapshotVersionRef r;
     hasSentStateSnapshotRef := hasSentStateSnapshotRef r;
     assignRolesRetryCountRef := assignRolesRetryCountRef r;
     assignRolesRetryTimerRef := assignRolesRetryTimerRef r;
     rolesConfirmedRef := rolesConfirmedRef r;
     sessionRolesRef := sessionRolesRef r |}).
Definition setConnectionModeRef v : World -> World :=
  with_refs (fun r => {| dataChannelRef := dataChannelRef r;
     timerRef := timerRef r; currentRoundIdRef := currentRoundIdRef r;
     sessionIdRef := sessionIdRef r; lockedRoleRef := lockedRoleRef r;
     connectionModeRef := v;
     hasSentAssignRolesRef := hasSentAssignRolesRef r;
     snapshotVersionRef := snapshotVersionRef r;
     hasSentStateSnapshotRef := hasSentStateSnapshotRef r;
     assignRolesRetryCountRef := assignRolesRetryCountRef r;
     assignRolesRetryTimerRef := assignRolesRetryTimerRef r;
     rolesConfirmedRef := rolesConfirmedRef r;
     sessionRolesRef := sessionRolesRef r |}).
Definition setHasSentAssignRolesRef v : World -> World :=
  with_refs (fun r => {| dataChannelRef := dataChannelRef r;
     timerRef := timerRef r; currentRoundIdRef := currentRoundIdRef r;
     sessionIdRef := sessionIdRef r; lockedRoleRef := lockedRoleRef r;
     connectionModeRef := connectionModeRef r; hasSentAssignRolesRef := v;
     snapshotVersionRef := snapshotVersionRef r;
     hasSentStateSnapshotRef := hasSentStateSnapshotRef r;
     assignRolesRetryCountRef := assignRolesRetryCountRef r;
     assignRolesRetryTimerRef := assignRolesRetryTimerRef r;
     rolesConfirmedRef := rolesConfirmedRef r;
     sessionRolesRef := sessionRolesRef r |}).
Definition setSnapshotVersionRef v : World -> World :=
  with_refs (fun r => {| dataChannelRef := dataChannelRef r;
     timerRef := timerRef r; currentRoundIdRef := currentRoundIdRef r;
     sessionIdRef := sessionIdRef r; lockedRoleRef := lockedRoleRef r;
     connectionModeRef := connectionModeRef r;
     hasSentAssignRolesRef := hasSentAssignRolesRef r;
     snapshotVersionRef := v;
     hasSentStateSnapshotRef := hasSentStateSnapshotRef r;
     assignRolesRetryCountRef := assignRolesRetryCountRef r;
     assignRolesRetryTimerRef := assignRolesRetryTimerRef r;
     rolesConfirmedRef := rolesConfirmedRef r;
     sessionRolesRef := sessionRolesRef r |}).
Definition setHasSentStateSnapshotRef v : World -> World :=
  with_refs (fun r => {| dataChannelRef := dataChannelRef r;
     timerRef := timerRef r; currentRoundIdRef := currentRoundIdRef r;
     sessionIdRef := sessionIdRef r; lockedRoleRef := lockedRoleRef r;
     connectionModeRef := connectionModeRef r;
     hasSentAssignRolesRef := hasSentAssignRolesRef r;
     snapshotVersionRef := snapshotVersionRef r;
     hasSentStateSnapshotRef := v;
     assignRolesRetryCountRef := assignRolesRetryCountRef r;
     assignRolesRetryTimerRef := assignRolesRetryTimerRef r;
     rolesConfirmedRef := rolesConfirmedRef r;
     sessionRolesRef := sessionRolesRef r |}).
Definition setAssignRolesRetryCountRef v : World -> World :=
  with_refs (fun r => {| dataChannelRef := dataChannelRef r;
     timerRef := timerRef r; currentRoundIdRef := currentRoundIdRef r;
     sessionIdRef := sessionIdRef r; lockedRoleRef := lockedRoleRef r;
     connectionModeRef := connectionModeRef r;
     hasSentAssignRolesRef := hasSentAssignRolesRef r;
     snapshotVersionRef := snapshotVersionRef r;
     hasSentStateSnapshotRef := hasSentStateSnapshotRef r;
     assignRolesRetryCountRef := v;
     assignRolesRetryTimerRef := assignRolesRetryTimerRef r;
     rolesConfirmedRef := rolesConfirmedRef r;
     sessionRolesRef := sessionRolesRef r |}).
Definition setAssignRolesRetryTimerRef v : World -> World :=
  with_refs (fun r => {| dataChannelRef := dataChannelRef r;
     timerRef := timerRef r; currentRoundIdRef := currentRoundIdRef r;
     sessionIdRef := sessionIdRef r; lockedRoleRef := lockedRoleRef r;
     connectionModeRef := connectionModeRef r;
     hasSentAssignRolesRef := hasSentAssignRolesRef r;
     snapshotVersionRef := snapshotVersionRef r;
     hasSentStateSnapshotRef := hasSentStateSnapshotRef r;
     assignRolesRetryCountRef := assignRolesRetryCountRef r;
     assignRolesRetryTimerRef := v; rolesConfirmedRef := rolesConfirmedRef r;
     sessionRolesRef := sessionRolesRef r |}).
Definition setRolesConfirmedRef v : World -> World :=
  with_refs (fun r => {| dataChannelRef := dataChannelRef r;
     timerRef := timerRef r; currentRoundIdRef := currentRoundIdRef r;
     sessionIdRef := sessionIdRef r; lockedRoleRef := lockedRoleRef r;
     connectionModeRef := connectionModeRef r;
     hasSentAssignRolesRef := hasSentAssignRolesRef r;
     snapshotVersionRef := snapshotVersionRef r;
     hasSentStateSnapshotRef := hasSentStateSnapshotRef r;
     assignRolesRetryCountRef := assignRolesRetryCountRef r;
     assignRolesRetryTimerRef := assignRolesRetryTimerRef r;
     rolesConfirmedRef := v; sessionRolesRef := sessionRolesRef r |}).
Definition setSessionRolesRef v : World -> World :=
  with_refs (fun r => {| dataChannelRef := dataChannelRef r;
     timerRef := timerRef r; currentRoundIdRef := currentRoundIdRef r;
     sessionIdRef := sessionIdRef r; lockedRoleRef := lockedRoleRef r;
     connectionModeRef := connectionModeRef r;
     hasSentAssignRolesRef := hasSentAssignRolesRef r;
     snapshotVersionRef := snapshotVersionRef r;
     hasSentStateSnapshotRef := hasSentStateSnapshotRef r;
     assignRolesRetryCountRef := assignRolesRetryCountRef r;
     assignRolesRetryTimerRef := assignRolesRetryTimerRef r;
     rolesConfirmedRef := rolesConfirmedRef r; sessionRolesRef := v |}).

(** ** JavaScript truthiness of the cells *)

(** [!!s] for a [string | null]: neither [null] nor the empty string. *)
Definition truthy_str (o : option string) : bool :=
  match o with Some s => bool_decide (s ≠ "") | None => false end.

(** [!!n] for a [number | null] that holds an integer. *)
Definition truthy_num (o : option Z) : bool :=
  match o with Some z => bool_decide (z ≠ 0) | None => false end.

(** [n || d] for an integer [n]. *)
Definition or_else (n d : Z) : Z := if decide (n = 0) then d else n.

(** [!ref || roundId !== ref], the guard of every message that names a round. *)
Definition foreignRound (roundId : string) (w : World) : bool :=
  negb (truthy_str (currentRoundIdRef (refs w)))
  || bool_decide (Some roundId ≠ currentRoundIdRef (refs w)).

Definition other (r : Role) : Role :=
  match r with red => blue | blue => red end.

Definition score (r : Role) (s : Scores) : Z :=
  match r with red => score_red s | blue => score_blue s end.

(** [{ ...prev, [target]: prev[target] + 1 }] *)
Definition bump (r : Role) (s : Scores) : Scores :=
  match r with
  | red => {| score_red := score_red s + 1; score_blue := score_blue s |}
  | blue => {| score_red := score_red s; score_blue := score_blue s + 1 |}
  end.

Definition noScores : Scores := {| score_red := 0; score_blue := 0 |}.

(** ** Storage, console and channel *)

Definition log (l : LogEntry) : World -> World :=
  with_console (fun c => c ++ [l]).

Definition setItem (k : string) (v : Stored) : World -> World :=
  with_localStorage (fun m => <[k:=v]> m).

Definition removeItem (k : string) : World -> World :=
  with_localStorage (fun m => delete k m).

Definition getItem (k : string) (w : World) : option Stored :=
  localStorage w !! k.

(** A [try { body } catch (e) { console.error(e) }] whose body begins with
    an access to [localStorage]: when the store refuses, the first access
    throws and nothing of the body happens. *)
Definition tryStorage (e : Env) (body : World -> World) (w : World) : World :=
  if storageOk e then body w else log error_caught w.

Definition channelOpen (w : World) : bool :=
  bool_decide (dataChannelRef (refs w) = Some open).

Definition sendMessage (msg : Message) (e : Env) (w : World) : World :=
  if negb (channelOpen w) then setError (Some txt_channel_not_ready) w
  else if sendOk e then with_sent (fun l => l ++ [msg]) w
  else w |> log error_caught |> setError (Some txt_send_failed).

(** ** Round state machine *)

Definition clearTimer : World -> World := setTimerRef false.

Definition resetGameState (e : Env) (w : World) : World :=
  w |> clearTimer
    |> setCurrentRoundId None
    |> setCurrentRoundIdRef None
    |> setCurrentGameId None
    |> setStoredGameIdHint None
    |> setSnapshotVersionRef 0
    |> setSnapshotMeta None
    |> setOfflineSnapshotMode false
    |> tryStorage e (removeItem GAME_ID_STORAGE_KEY)
    |> setStartTimeSec None
    |> setEndTimeSec None
    |> setResolvedEndTimeSec None
    |> setScores noScores
    |> setVoteEvents []
    |> setTimeRemaining 0
    |> setGameState idle
    |> setIncomingEndChange None
    |> setIncomingEndNow false
    |> setInfoMessage None
    |> setVoteIgnoreMessage None.

Definition applyVote (tgt : Role) (el : Z) (w : World) : World :=
  let w := setScores (bump tgt (scores (round w))) w in
  let w := setVoteEvents
             (voteEvents (round w) ++ [{| target := tgt; elapsed := el |}]) w in
  setVoteIgnoreMessage None w.

Definition beginGameWithEndTime
    (roundId : string) (startSec : Z) (endSec : jsnum) (w : World) : World :=
  match endSec with
  | Fin endSec =>
      if decide (endSec <= startSec) then w
      else
        w |> setCurrentRoundId (Some roundId)
          |> setCurrentRoundIdRef (Some roundId)
          |> setStartTimeSec (Some startSec)
          |> setEndTimeSec (Some endSec)
          |> setResolvedEndTimeSec (Some endSec)
          |> setScores noScores
          |> setVoteEvents []
          |> setTimeRemaining (Z.max 0 (endSec - startSec))
          |> setGameState running
          |> setIncomingEndChange None
          |> setIncomingEndNow false
          |> setInfoMessage None
  | PosInf | NegInf | NaN => w
  end.

Definition applyEndTimeUpdate (newEndTimeSec : Z) (w : World) : World :=
  w |> setEndTimeSec (Some newEndTimeSec)
    |> setResolvedEndTimeSec (Some newEndTimeSec).

Definition applyImmediateEndLocal (e : Env) (w : World) : World :=
  w |> clearTimer
    |> setEndTimeSec (Some (nowSec e))
    |> setResolvedEndTimeSec (Some (nowSec e))
    |> setTimeRemaining 0
    |> setGameState ended
    |> setIncomingEndNow false.

(** ** Session controller *)

Definition clearAssignRolesRetryTimer : World -> World :=
  setAssignRolesRetryTimerRef false.

Definition resetSessionAndRolesForNewAnswerJoin (w : World) : World :=
  w |> setRoleLocked false
    |> setLockedRole None
    |> setRoleSyncMessage (Some txt_waiting_for_assignment)
    |> setSessionRoles None
    |> setSessionRolesRef None
    |> setRolesConfirmed false
    |> setRolesConfirmedRef false
    |> clearAssignRolesRetryTimer
    |> setAssignRolesRetryCountRef 0.

Inductive ResyncReason := fallback_start | vote_mismatch.

Definition expectedRole (mode : ConnectionMode) (roles : SessionRoles) : Role :=
  match mode with offer => hostRole roles | answer => guestRole roles end.

Definition ensureRoleFromSessionRoles (reason : ResyncReason) (w : World) : World :=
  match sessionRolesRef (refs w) with
  | None => w
  | Some roles =>
      let expected := expectedRole (connectionModeRef (refs w)) roles in
      let w := setRoleLocked true w in
      if decide (lockedRole (session w) = Some expected) then w
      else
        let message := match reason with
                       | vote_mismatch => txt_role_misassigned_retry
                       | fallback_start => txt_role_corrected_from_round
                       end in
        w |> setRoleSyncMessage (Some message) |> setLockedRole (Some expected)
  end.

(** [lockedRoleRef.current || lockedRole] *)
Definition currentLockedRole (w : World) : option Role :=
  match lockedRoleRef (refs w) with
  | Some r => Some r
  | None => lockedRole (session w)
  end.

(** [fresh] is what [generateSessionId()] would return. *)
Definition sendAssignRolesOnce (fresh : string) (e : Env) (w : World)
    : bool * World :=
  if negb (channelOpen w) then (false, w)
  else match currentLockedRole w with
  | None => (false, w)
  | Some host =>
      let sid := default fresh (sessionIdRef (refs w)) in
      let guest := other host in
      let roles := {| hostRole := host; guestRole := guest |} in
      let w := w |> setSessionId (Some sid) |> setSessionIdRef (Some sid)
                 |> setSessionRoles (Some roles)
                 |> setSessionRolesRef (Some roles) in
      if sendOk e then
        (true,
         w |> with_sent (fun l => l ++ [assignRoles sid host guest])
           |> setHasSentAssignRolesRef true
           |> setRoleLocked true
           |> setLockedRole (Some host)
           |> setRoleSyncMessage (Some (txt_role_locked host)))
      else
        (false, w |> log error_caught |> setError (Some txt_assign_send_failed))
  end.

(** ** Snapshot store *)

Definition toSnapshotEvent (v : VoteEvent) : SnapshotEvent :=
  {| ev_at := elapsed v; ev_target := target v |}.

Definition toVoteEvent (s : SnapshotEvent) : VoteEvent :=
  {| target := ev_target s; elapsed := ev_at s |}.

Definition buildSnapshotFromState (e : Env) (w : World) : option GameSnapshot :=
  let r := round w in
  match currentRoundId r, startTimeSec r, endTimeSec r, lockedRole (session w) with
  | Some rid, Some st, Some en, Some role =>
      if negb (truthy_str (currentRoundId r)) || negb (truthy_num (startTimeSec r))
         || negb (truthy_num (endTimeSec r))
      then None
      else if decide (gameState r = idle) then None
      else Some {|
        snap_version := or_else (snapshotVersionRef (refs w)) 0;
        snap_lastUpdatedAt := now e;
        snap_gameId := rid;
        snap_sessionId := sessionId (session w);
        snap_isHost := bool_decide (connectionModeRef (refs w) = offer);
        snap_lockedRole := role;
        snap_startTimeSec := st;
        snap_endTimeSec := en;
        snap_gameState := gameState r;
        snap_scoreRed := score_red (scores r);
        snap_scoreBlue := score_blue (scores r);
        snap_events := toSnapshotEvent <$> voteEvents r |}
  | _, _, _, _ => None
  end.

(** [{ ...base, version: v, lastUpdatedAt: t }] *)
Definition restamp (v t : Z) (base : GameSnapshot) : GameSnapshot :=
  {| snap_version := v;
     snap_lastUpdatedAt := t;
     snap_gameId := snap_gameId base;
     snap_sessionId := snap_sessionId base;
     snap_isHost := snap_isHost base;
     snap_lockedRole := snap_lockedRole base;
     snap_startTimeSec := snap_startTimeSec base;
     snap_endTimeSec := snap_endTimeSec base;
     snap_gameState := snap_gameState base;
     snap_scoreRed := snap_scoreRed base;
     snap_scoreBlue := snap_scoreBlue base;
     snap_events := snap_events base |}.

Definition persistSnapshot (e : Env) (w : World) : option GameSnapshot * World :=
  match buildSnapshotFromState e w with
  | None => (None, w)
  | Some base =>
      let newVersion := or_else (snapshotVersionRef (refs w)) 0 + 1 in
      let snapshot := restamp newVersion (now e) base in
      (Some snapshot,
       w |> tryStorage e (fun w =>
              w |> setItem (getSnapshotStorageKey (snap_gameId snapshot))
                           (StoredSnapshot snapshot)
                |> setItem SNAPSHOT_LAST_ID_KEY (StoredId (snap_gameId snapshot))
                |> setSnapshotVersionRef newVersion
                |> setSnapshotMeta
                     (Some (newVersion, snap_lastUpdatedAt snapshot))))
  end.

Definition hydrateStateFromSnapshot
    (snapshot : GameSnapshot) (offline : bool) (e : Env) (w : World) : World :=
  let remaining :=
    if decide (snap_gameState snapshot = running)
    then Z.max 0 (snap_endTimeSec snapshot - nowSec e) else 0 in
  let w :=
    w |> setCurrentRoundId (Some (snap_gameId snapshot))
      |> setCurrentRoundIdRef (Some (snap_gameId snapshot))
      |> setCurrentGameId (Some (snap_gameId snapshot))
      |> setStartTimeSec (Some (snap_startTimeSec snapshot))
      |> setEndTimeSec (Some (snap_endTimeSec snapshot))
      |> setResolvedEndTimeSec (Some (snap_endTimeSec snapshot))
      |> setScores {| score_red := snap_scoreRed snapshot;
                      score_blue := snap_scoreBlue snapshot |}
      |> setVoteEvents (toVoteEvent <$> snap_events snapshot)
      |> setTimeRemaining remaining
      |> setGameState (snap_gameState snapshot)
      |> setLockedRole (Some (snap_lockedRole snapshot))
      |> setRoleLocked true
      |> setSessionId (snap_sessionId snapshot)
      |> setSessionIdRef (snap_sessionId snapshot)
      |> setSnapshotVersionRef (or_else (snap_version snapshot) 0)
      |> setSnapshotMeta
           (Some (or_else (snap_version snapshot) 0,
                  or_else (snap_lastUpdatedAt snapshot) (now e)))
      |> tryStorage e (fun w =>
           w |> setItem (getSnapshotStorageKey (snap_gameId snapshot))
                        (StoredSnapshot snapshot)
             |> setItem SNAPSHOT_LAST_ID_KEY (StoredId (snap_gameId snapshot))) in
  let w := if offline then setOfflineSnapshotMode true w else w in
  w |> setStoredGameIdHint (Some (snap_gameId snapshot))
    |> setHistoryViewSnapshot None.

(** ** History index *)

(** The comparator handed to [Array.prototype.sort]: negative when [a]
    goes first. *)
Definition compareHistory (a b : HistoryIndexEntry) : Z :=
  if decide (hist_endTimeSec a ≠ hist_endTimeSec b)
  then hist_endTimeSec b - hist_endTimeSec a
  else hist_lastUpdatedAt b - hist_lastUpdatedAt a.

(** [Array.prototype.sort] is a stable sort; with a comparator that is a
    total preorder its result is the one that inserting the elements from
    the right, each before the first element it does not come after,
    produces. *)
Section Array_sort.
Context {A : Type} (cmp : A -> A -> Z).

Fixpoint sort_insert (x : A) (l : list A) : list A :=
  match l with
  | [] => [x]
  | y :: l' => if decide (cmp x y <= 0) then x :: l else y :: sort_insert x l'
  end.

Fixpoint Array_sort (l : list A) : list A :=
  match l with
  | [] => []
  | x :: l' => sort_insert x (Array_sort l')
  end.
End Array_sort.

(** [findIndex((item) => item.gameId === id)] *)
Definition findIndex (id : string) (l : list HistoryIndexEntry) : option nat :=
  fst <$> list_find (fun item => hist_gameId item = id) l.

Definition toHistoryEntry (snapshot : GameSnapshot) : HistoryIndexEntry :=
  {| hist_gameId := snap_gameId snapshot;
     hist_startTimeSec := snap_startTimeSec snapshot;
     hist_endTimeSec := snap_endTimeSec snapshot;
     hist_scoreRed := snap_scoreRed snapshot;
     hist_scoreBlue := snap_scoreBlue snapshot;
     hist_lastUpdatedAt := snap_lastUpdatedAt snapshot |}.

(** The updater that [upsertHistoryIndex] passes to [setHistoryIndex]. *)
Definition upsertEntry (entry : HistoryIndexEntry)
    (prev : list HistoryIndexEntry) : list HistoryIndexEntry :=
  let next :=
    match findIndex (hist_gameId entry) prev with
    | Some existingIndex => <[existingIndex:=entry]> prev
    | None => prev ++ [entry]
    end in
  Array_sort compareHistory next.

Definition upsertHistoryIndex (snapshot : GameSnapshot) (e : Env) (w : World)
    : World :=
  if decide (snap_gameState snapshot ≠ ended) then w
  else
    let next := upsertEntry (toHistoryEntry snapshot) (historyIndex (view w)) in
    w |> tryStorage e (setItem HISTORY_INDEX_KEY (StoredIndex next))
      |> setHistoryIndex next.

(** The updater that [handleDeleteHistoryGame] passes to [setHistoryIndex]. *)
Definition removeEntry (gameId : string)
    (prev : list HistoryIndexEntry) : list HistoryIndexEntry :=
  filter (fun item => hist_gameId item ≠ gameId) prev.

Definition handleDeleteHistoryGame (gameId : string) (e : Env) (w : World)
    : World :=
  let next := removeEntry gameId (historyIndex (view w)) in
  let w :=
    w |> tryStorage e (fun w =>
           w |> setItem HISTORY_INDEX_KEY (StoredIndex next)
             |> removeItem (getSnapshotStorageKey gameId))
      |> setHistoryIndex next in
  if decide (activeTabKey (view w) = Some gameId)
  then w |> setActiveTabKey None |> setHistoryViewSnapshot None
  else w.

(** ** The dispatcher of received messages *)

Definition setGid (g : option string) : World -> World := with_gid (fun _ => g).

Definition handleIncomingMessage (msg : Message) (e : Env) (w : World) : World :=
  match msg with
  | start roundId endTime roles =>
      let nowSec := nowSec e in
      if negb (Number_isFinite endTime) || js_le endTime nowSec then w
      else
        let w :=
          match roles with
          | Some r =>
              w |> setSessionRoles (Some r) |> setSessionRolesRef (Some r)
                |> ensureRoleFromSessionRoles fallback_start
          | None => w
          end in
        w |> setSnapshotVersionRef 0
          |> setSnapshotMeta None
          |> setOfflineSnapshotMode false
          |> setCurrentGameId (Some roundId)
          |> setStoredGameIdHint (Some roundId)
          |> tryStorage e (setItem GAME_ID_STORAGE_KEY (StoredId roundId))
          |> setGid (Some roundId)
          |> beginGameWithEndTime roundId nowSec endTime
  | stateSnapshot _ snapshot =>
      let current := currentRoundIdRef (refs w) in
      if decide (snap_gameId snapshot = "") then w
      else if truthy_str current
              && bool_decide (current ≠ Some (snap_gameId snapshot))
      then log (warn_foreign_snapshot (default "" current)
                                      (snap_gameId snapshot)) w
      else
        w |> hydrateStateFromSnapshot snapshot false e
          |> setOfflineSnapshotMode false
  | vote roundId tgt at_ =>
      if foreignRound roundId w then w
      else
        match lockedRoleRef (refs w) with
        | None => w
        | Some localLockedRole =>
            if decide (tgt ≠ localLockedRole) then
              w |> log (warn_vote_target localLockedRole tgt)
                |> setVoteIgnoreMessage (Some txt_role_misassigned_retry)
                |> ensureRoleFromSessionRoles vote_mismatch
            else applyVote tgt at_ w
        end
  | assignRoles sid host guest =>
      let mode := connectionModeRef (refs w) in
      let myRole := match mode with offer => host | answer => guest end in
      let roles := {| hostRole := host; guestRole := guest |} in
      let w :=
        w |> setSessionId (Some sid) |> setSessionIdRef (Some sid)
          |> setSessionRoles (Some roles) |> setSessionRolesRef (Some roles)
          |> setRoleLocked true in
      let w :=
        match lockedRole (session w) with
        | Some prev =>
            if decide (prev ≠ myRole)
            then setRoleSyncMessage (Some (txt_role_overridden prev myRole)) w
            else setRoleSyncMessage (Some (txt_role_locked myRole)) w
        | None => setRoleSyncMessage (Some (txt_role_locked myRole)) w
        end |> setLockedRole (Some myRole) in
      match mode with
      | answer =>
          w |> sendMessage (assignRolesAck sid myRole) e
            |> setRoleAssignmentNotice (Some txt_roles_done_guest)
      | offer => w
      end
  | assignRolesAck sid _ =>
      if negb (truthy_str (sessionIdRef (refs w)))
         || bool_decide (Some sid ≠ sessionIdRef (refs w))
      then w
      else
        w |> setRolesConfirmedRef true
          |> setRolesConfirmed true
          |> clearAssignRolesRetryTimer
          |> setRoleAssignmentNotice (Some txt_roles_done_host)
  | proposeEndChange roundId proposedEndTime =>
      if foreignRound roundId w then w
      else setIncomingEndChange (Some proposedEndTime) w
  | acceptEndChange roundId proposedEndTime =>
      if foreignRound roundId w then w
      else
        w |> applyEndTimeUpdate proposedEndTime
          |> setInfoMessage (Some txt_end_change_accepted_by_peer)
  | rejectEndChange roundId _ =>
      if foreignRound roundId w then w
      else setInfoMessage (Some txt_end_change_rejected_by_peer) w
  | proposeEndNow roundId =>
      if foreignRound roundId w then w
      else setIncomingEndNow true w
  | acceptEndNow roundId =>
      if foreignRound roundId w then w
      else
        w |> applyImmediateEndLocal e
          |> setInfoMessage (Some txt_end_now_accepted_by_peer)
  | rejectEndNow roundId =>
      if foreignRound roundId w then w
      else setInfoMessage (Some txt_end_now_rejected_by_peer) w
  end.

(** ** What the user does *)

(** [a || b] for two [string | null]. *)
Definition or_str (a b : option string) : option string :=
  if truthy_str a then a else b.

Definition getId (k : string) (w : World) : option string :=
  match getItem k w with Some (StoredId s) => Some s | _ => None end.

(** [endTimeUnix] is what [parseDatetimeLocalToUnixSeconds] made of the
    input box and [gameId] what [generateGameId()] returns. *)
Definition handleStartGame (endTimeUnix : option Z) (gameId : string)
    (e : Env) (w : World) : World :=
  if decide (is_Some (historyViewSnapshot (view w)))
  then setError (Some txt_start_history_readonly) w
  else match lockedRole (session w) with
  | None => setError (Some txt_start_role_not_locked) w
  | Some locked =>
      if decide (connectionStatus (conn w) ≠ connected)
      then setError (Some txt_start_not_connected) w
      else match endTimeUnix with
      | None => setError (Some txt_start_invalid_end) w
      | Some endUnix =>
          if negb (truthy_num endTimeUnix)
          then setError (Some txt_start_invalid_end) w
          else if decide (endUnix <= nowSec e)
          then setError (Some txt_start_end_not_future) w
          else
            let roles := sessionRolesRef (refs w) in
            let hostGuest :=
              match roles with
              | Some r => r
              | None =>
                  match connectionModeRef (refs w) with
                  | offer => {| hostRole := locked; guestRole := other locked |}
                  | answer => {| hostRole := other locked; guestRole := locked |}
                  end
              end in
            let w :=
              match roles with
              | Some _ => w
              | None => w |> setSessionRoles (Some hostGuest)
                          |> setSessionRolesRef (Some hostGuest)
              end in
            w |> setSnapshotVersionRef 0
              |> setSnapshotMeta None
              |> setOfflineSnapshotMode false
              |> setCurrentGameId (Some gameId)
              |> setStoredGameIdHint (Some gameId)
              |> tryStorage e (setItem GAME_ID_STORAGE_KEY (StoredId gameId))
              |> setGid (Some gameId)
              |> beginGameWithEndTime gameId (nowSec e) (Fin endUnix)
              |> sendMessage (start gameId (Fin endUnix) (Some hostGuest)) e
      end
  end.

Definition handleProposeEndChange (proposedUnix : option Z)
    (e : Env) (w : World) : World :=
  if decide (is_Some (historyViewSnapshot (view w)))
  then setError (Some txt_propose_history_readonly) w
  else if decide (connectionStatus (conn w) ≠ connected)
  then setError (Some txt_propose_not_connected) w
  else match currentRoundId (round w) with
  | Some rid =>
      if bool_decide (gameState (round w) ≠ running)
         || negb (truthy_str (currentRoundId (round w)))
      then setError (Some txt_propose_not_running) w
      else match proposedUnix with
      | None => setError (Some txt_propose_invalid_end) w
      | Some proposed =>
          if negb (truthy_num proposedUnix)
          then setError (Some txt_propose_invalid_end) w
          else if decide (proposed <= nowSec e)
          then setError (Some txt_propose_end_not_future) w
          else
            w |> sendMessage (proposeEndChange rid proposed) e
              |> setInfoMessage (Some txt_proposed_end_change)
      end
  | None => setError (Some txt_propose_not_running) w
  end.

Definition handleProposeEndNow (e : Env) (w : World) : World :=
  if decide (is_Some (historyViewSnapshot (view w)))
  then setError (Some txt_endnow_history_readonly) w
  else if decide (connectionStatus (conn w) ≠ connected)
  then setError (Some txt_endnow_not_connected) w
  else match currentRoundId (round w) with
  | Some rid =>
      if bool_decide (gameState (round w) ≠ running)
         || negb (truthy_str (currentRoundId (round w)))
      then setError (Some txt_endnow_not_running) w
      else
        w |> sendMessage (proposeEndNow rid) e
          |> setInfoMessage (Some txt_proposed_end_now)
  | None => setError (Some txt_endnow_not_running) w
  end.

Definition handleAcceptIncomingEndChange (e : Env) (w : World) : World :=
  match incomingEndChange (nego w), currentRoundId (round w) with
  | Some proposed, Some rid =>
      if negb (truthy_str (currentRoundId (round w))) then w
      else
        w |> applyEndTimeUpdate proposed
          |> sendMessage (acceptEndChange rid proposed) e
          |> setIncomingEndChange None
          |> setInfoMessage (Some txt_you_accepted_end_change)
  | _, _ => w
  end.

Definition handleRejectIncomingEndChange (e : Env) (w : World) : World :=
  match incomingEndChange (nego w), currentRoundId (round w) with
  | Some proposed, Some rid =>
      if negb (truthy_str (currentRoundId (round w))) then w
      else
        w |> sendMessage (rejectEndChange rid proposed) e
          |> setIncomingEndChange None
          |> setInfoMessage (Some txt_you_rejected_end_change)
  | _, _ => w
  end.

Definition handleAcceptIncomingEndNow (e : Env) (w : World) : World :=
  match currentRoundId (round w) with
  | Some rid =>
      if negb (truthy_str (currentRoundId (round w))) then w
      else
        w |> applyImmediateEndLocal e
          |> sendMessage (acceptEndNow rid) e
          |> setInfoMessage (Some txt_you_accepted_end_now)
  | None => w
  end.

Definition handleRejectIncomingEndNow (e : Env) (w : World) : World :=
  match currentRoundId (round w) with
  | Some rid =>
      if negb (truthy_str (currentRoundId (round w))) then w
      else
        w |> setIncomingEndNow false
          |> sendMessage (rejectEndNow rid) e
          |> setInfoMessage (Some txt_you_rejected_end_now)
  | None => w
  end.

Definition handleSelectRole (nextRole : Role) (w : World) : World :=
  match lockedRole (session w) with
  | Some locked =>
      if roleLocked (session w) && bool_decide (locked ≠ nextRole)
      then setRoleSyncMessage (Some txt_role_change_refused) w
      else
        w |> setLockedRole (Some nextRole) |> setRoleLocked true
          |> setRoleSyncMessage (Some (txt_role_locked nextRole))
  | None =>
      w |> setLockedRole (Some nextRole) |> setRoleLocked true
        |> setRoleSyncMessage (Some (txt_role_locked nextRole))
  end.

Definition handleVote (e : Env) (w : World) : World :=
  if decide (is_Some (historyViewSnapshot (view w)))
  then setError (Some txt_vote_history_readonly) w
  else match lockedRole (session w) with
  | None => setError (Some txt_vote_role_not_locked) w
  | Some locked =>
      if decide (connectionStatus (conn w) ≠ connected)
      then setError (Some txt_vote_not_connected) w
      else match startTimeSec (round w), currentRoundId (round w) with
      | Some startSec, Some rid =>
          if bool_decide (gameState (round w) ≠ running)
             || negb (truthy_num (startTimeSec (round w)))
             || negb (truthy_str (currentRoundId (round w)))
          then setError (Some txt_vote_not_running) w
          else
            let el := Z.max 0 (nowSec e - startSec) in
            let tgt := other locked in
            w |> applyVote tgt el |> sendMessage (vote rid tgt el) e
      | _, _ => setError (Some txt_vote_not_running) w
      end
  end.

(** The part of [handleStartNewRound], [cleanupConnection] that forgets
    the session and the roles. *)
Definition forgetSession (w : World) : World :=
  w |> setSessionId None
    |> setSessionIdRef None
    |> setHasSentAssignRolesRef false
    |> setHasSentStateSnapshotRef false
    |> clearAssignRolesRetryTimer
    |> setAssignRolesRetryCountRef 0
    |> setRolesConfirmed false
    |> setRolesConfirmedRef false
    |> setSessionRoles None
    |> setSessionRolesRef None
    |> setLockedRole None
    |> setRoleLocked false
    |> setRoleSyncMessage None
    |> setRoleAssignmentNotice None
    |> setHistoryViewSnapshot None.

(** The [removeItem]s shared by the handlers that discard a snapshot:
    the snapshot of [gameId] and the pointer when it points to it. *)
Definition forgetSnapshotOf (gameId : string) (w : World) : World :=
  let lastId := getId SNAPSHOT_LAST_ID_KEY w in
  let w := removeItem (getSnapshotStorageKey gameId) w in
  if decide (lastId = Some gameId) then removeItem SNAPSHOT_LAST_ID_KEY w else w.

Definition handleStartNewRound (e : Env) (w : World) : World :=
  let prevGameId :=
    or_str (or_str (currentRoundIdRef (refs w)) (currentGameId (view w))) None in
  w |> resetGameState e
    |> tryStorage e (fun w =>
         let lastId := getId SNAPSHOT_LAST_ID_KEY w in
         match prevGameId with
         | Some prev => forgetSnapshotOf prev w
         | None =>
             let w := if truthy_str lastId
                      then removeItem (getSnapshotStorageKey (default "" lastId)) w
                      else w in
             removeItem SNAPSHOT_LAST_ID_KEY w
         end)
    |> setGid None
    |> forgetSession
    |> setActiveTabKey None
    |> setInfoMessage None
    |> setVoteIgnoreMessage None
    |> setIncomingEndChange None
    |> setIncomingEndNow false.

Definition handleDiscardSnapshotFromBanner (e : Env) (w : World) : World :=
  let gameId :=
    or_str (or_str (currentRoundId (round w)) (currentGameId (view w)))
           (storedGameIdHint (view w)) in
  w |> tryStorage e (fun w =>
         if truthy_str gameId then forgetSnapshotOf (default "" gameId) w
         else removeItem SNAPSHOT_LAST_ID_KEY w)
    |> setGid None
    |> resetGameState e
    |> setHistoryViewSnapshot None
    |> setActiveTabKey None.

Definition handleDiscardSnapshotFromStats (e : Env) (w : World) : World :=
  let gameId :=
    or_str (or_str (or_str (historyViewSnapshot (view w) ≫= viewedGameId)
                           (currentRoundId (round w)))
                   (currentGameId (view w)))
           (storedGameIdHint (view w)) in
  if negb (truthy_str gameId) then w
  else
    w |> tryStorage e (forgetSnapshotOf (default "" gameId))
      |> setSnapshotMeta None.

Definition showHistory (gameId : string) (snapshot : ViewedSnapshot)
    (w : World) : World :=
  w |> setActiveTabKey (Some gameId)
    |> setHistoryViewSnapshot (Some snapshot)
    |> setOfflineSnapshotMode false
    |> setVoteIgnoreMessage None.

Definition handleLoadHistoryGame (gameId : string) (e : Env) (w : World)
    : World :=
  let w := setHistoryError None w in
  match historyViewSnapshots (view w) !! gameId with
  | Some snapshot => showHistory gameId (viewed snapshot) w
  | None =>
      if bool_decide (gameId ∈ objectPrototypeKeys)
      then showHistory gameId (inherited gameId) w
      else if negb (storageOk e)
      then w |> log error_caught |> setHistoryError (Some txt_history_load_failed)
      else match getItem (getSnapshotStorageKey gameId) w with
      | Some (StoredSnapshot parsed) =>
          if decide (snap_gameId parsed = "")
          then setHistoryError (Some txt_history_snapshot_malformed) w
          else
            w |> setHistoryViewSnapshots
                   (<[gameId:=parsed]> (historyViewSnapshots (view w)))
              |> showHistory gameId (viewed parsed)
      | Some _ => setHistoryError (Some txt_history_snapshot_malformed) w
      | None => setHistoryError (Some txt_history_snapshot_missing) w
      end
  end.

Definition handleExitHistoryView (w : World) : World :=
  w |> setHistoryViewSnapshot None
    |> setHistoryError None
    |> setActiveTabKey None.

(** ** The connection, as far as the protocol depends on it *)

Definition cleanupConnection (e : Env) (w : World) : World :=
  w |> clearTimer
    |> setDataChannelRef None
    |> setConnectionStatus conn_idle
    |> resetGameState e
    |> forgetSession.

Definition createPeerConnection (mode : ConnectionMode) (w : World) : World :=
  let w := w |> setDataChannelRef None |> setError None in
  match mode with
  | offer => setDataChannelRef (Some connecting) w
  | answer => resetSessionAndRolesForNewAnswerJoin w
  end.

(** [threw] tells whether one of the awaited calls throws. *)
Definition handleCreateOffer (threw : bool) (w : World) : World :=
  let w :=
    w |> setConnectionMode offer
      |> setConnectionStatus creating_offer
      |> createPeerConnection offer in
  if threw
  then w |> log error_caught |> setConnectionStatus conn_error
         |> setError (Some txt_offer_failed)
  else w.

(** How [handleApplyOfferAndCreateAnswer] ends: the pasted offer is
    missing, or is applied, or one of the awaited calls throws. *)
Inductive AnswerOutcome := answer_no_offer | answer_created | answer_threw.

Definition handleApplyOfferAndCreateAnswer (o : AnswerOutcome) (w : World)
    : World :=
  let w :=
    w |> setConnectionMode answer
      |> resetSessionAndRolesForNewAnswerJoin
      |> createPeerConnection answer in
  match o with
  | answer_no_offer => setError (Some txt_paste_offer_first) w
  | answer_created => setConnectionStatus waiting_answer w
  | answer_threw =>
      w |> log error_caught |> setConnectionStatus conn_error
        |> setError (Some txt_answer_failed)
  end.

(** The callbacks of the channel and of the peer connection.  The
    browser changes [readyState] before it calls them. *)
Definition channel_onopen (w : World) : World :=
  w |> setConnectionStatus connected |> setError None.

Definition channel_onerror (w : World) : World :=
  w |> setConnectionStatus conn_error |> setError (Some txt_channel_error).

Inductive PcState := pc_connected | pc_connecting | pc_failed | pc_disconnected.

Definition pc_onconnectionstatechange (s : PcState) (w : World) : World :=
  match s with
  | pc_connected => setConnectionStatus connected w
  | pc_connecting => w
  | pc_failed | pc_disconnected =>
      w |> setConnectionStatus conn_error |> setError (Some txt_connection_lost)
  end.

Definition pc_oniceconnectionstatechange (s : PcState) (w : World) : World :=
  match s with
  | pc_failed | pc_disconnected =>
      w |> setConnectionStatus conn_error |> setError (Some txt_p2p_problem)
  | _ => w
  end.

(** The browser moves the channel to another [readyState]. *)
Definition readyStateChange (s : ReadyState) (w : World) : World :=
  match dataChannelRef (refs w) with
  | Some _ => setDataChannelRef (Some s) w
  | None => w
  end.

(** [pc.ondatachannel] on the answering side. *)
Definition pc_ondatachannel (s : ReadyState) (w : World) : World :=
  setDataChannelRef (Some s) w.

(** ** Effects and timers *)

(** The callback of the round timer. *)
Definition updateRemaining (e : Env) (w : World) : World :=
  match endTimeSec (round w) with
  | Some endSec =>
      let remaining := endSec - nowSec e in
      if decide (remaining <= 0)
      then w |> setTimeRemaining 0 |> setGameState ended |> clearTimer
      else setTimeRemaining remaining w
  | None => w
  end.

(** The effect on [endTimeSec, gameState] that arms the round timer. *)
Definition timerEffect (e : Env) (w : World) : World :=
  if negb (truthy_num (endTimeSec (round w)))
     || bool_decide (gameState (round w) ≠ running)
  then w
  else w |> clearTimer |> updateRemaining e |> setTimerRef true.

(** The round timer fires. *)
Definition intervalTick (e : Env) (w : World) : World :=
  if timerRef (refs w) then updateRemaining e w else w.

(** The effect that persists the round and files it when it has ended. *)
Definition persistEffect (e : Env) (w : World) : World :=
  if negb (truthy_str (currentRoundId (round w)))
     || negb (truthy_num (startTimeSec (round w)))
     || negb (truthy_num (endTimeSec (round w)))
     || bool_decide (lockedRole (session w) = None)
  then w
  else if decide (gameState (round w) = idle) then w
  else
    match persistSnapshot e w with
    | (Some snapshot, w) =>
        if decide (snap_gameState snapshot = ended)
        then upsertHistoryIndex snapshot e w else w
    | (None, w) => w
    end.

(** The effect that forgets the open round once it has ended. *)
Definition endedEffect (e : Env) (w : World) : World :=
  if decide (gameState (round w) ≠ ended) then w
  else
    let w := w |> tryStorage e (removeItem GAME_ID_STORAGE_KEY)
               |> setStoredGameIdHint None in
    match endTimeSec (round w) with
    | Some endSec =>
        if truthy_str (currentRoundId (round w))
           && truthy_num (endTimeSec (round w))
           && bool_decide (endSec < nowSec e)
        then tryStorage e (removeItem SNAPSHOT_LAST_ID_KEY) w
        else w
    | None => w
    end.

(** [scheduleRetry]: one pending timeout at most. *)
Definition scheduleRetry (w : World) : World :=
  w |> clearAssignRolesRetryTimer |> setAssignRolesRetryTimerRef true.

(** The effect on [connectionStatus, lockedRole] that sends [assignRoles]
    and starts the retries. *)
Definition assignRolesEffect (fresh : string) (e : Env) (w : World) : World :=
  if decide (connectionStatus (conn w) ≠ connected) then
    w |> clearAssignRolesRetryTimer
      |> setAssignRolesRetryCountRef 0
      |> setRolesConfirmed false
      |> setRolesConfirmedRef false
  else if decide (connectionModeRef (refs w) ≠ offer) then w
  else if decide (lockedRole (session w) = None) then w
  else if bool_decide (0 < assignRolesRetryCountRef (refs w))
          && hasSentAssignRolesRef (refs w)
  then w
  else
    match sendAssignRolesOnce fresh e w with
    | (false, w) => w
    | (true, w) =>
        w |> setAssignRolesRetryCountRef 1
          |> setRolesConfirmedRef false
          |> setRolesConfirmed false
          |> scheduleRetry
    end.

(** The callback that [scheduleRetry] hands to [setTimeout]; it runs
    only for a timeout that is still pending. *)
Definition retryTimeout (fresh : string) (e : Env) (w : World) : World :=
  if negb (assignRolesRetryTimerRef (refs w)) then w
  else
    let w := setAssignRolesRetryTimerRef false w in
    if rolesConfirmedRef (refs w) then w
    else if decide (3 <= assignRolesRetryCountRef (refs w)) then w
    else if negb (channelOpen w) then w
    else
      match sendAssignRolesOnce fresh e w with
      | (false, w) => w
      | (true, w) =>
          w |> setAssignRolesRetryCountRef (assignRolesRetryCountRef (refs w) + 1)
            |> scheduleRetry
      end.

(** The effect by which the host pushes its snapshot once per connection. *)
Definition snapshotPushEffect (e : Env) (w : World) : World :=
  if decide (connectionStatus (conn w) ≠ connected)
  then setHasSentStateSnapshotRef false w
  else if decide (connectionModeRef (refs w) ≠ offer) then w
  else if negb (truthy_str (currentRoundId (round w)))
          || negb (truthy_num (startTimeSec (round w)))
          || negb (truthy_num (endTimeSec (round w)))
          || bool_decide (lockedRole (session w) = None)
  then w
  else if decide (gameState (round w) = idle) then w
  else if hasSentStateSnapshotRef (refs w) then w
  else if negb (channelOpen w) then w
  else
    match buildSnapshotFromState e w with
    | None => w
    | Some snapshot =>
        if sendOk e then
          w |> with_sent (fun l =>
                 l ++ [stateSnapshot (snap_gameId snapshot) snapshot])
            |> setHasSentStateSnapshotRef true
        else log error_caught w
    end.

(** The timeout that clears the role notice. *)
Definition noticeTimeout : World -> World := setRoleAssignmentNotice None.

(** The effect that reads the history index when the component mounts. *)
Definition loadHistoryEffect (e : Env) (w : World) : World :=
  if negb (storageOk e)
  then w |> log error_caught
         |> setHistoryError (Some txt_history_index_unreadable)
  else match getItem HISTORY_INDEX_KEY w with
  | Some (StoredIndex parsed) =>
      setHistoryIndex (Array_sort compareHistory parsed) w
  | _ => w
  end.

(** The snapshot that the resume effect would hydrate. *)
Definition snapshotToResume (e : Env) (w : World) : option GameSnapshot :=
  let gameIdToUse := or_str (gid w) (getId SNAPSHOT_LAST_ID_KEY w) in
  if negb (truthy_str gameIdToUse) then None
  else match getItem (getSnapshotStorageKey (default "" gameIdToUse)) w with
  | Some (StoredSnapshot parsed) =>
      if decide (snap_gameId parsed = "") then None
      else if bool_decide (snap_gameState parsed = ended)
              && bool_decide (snap_endTimeSec parsed ≠ 0)
              && bool_decide (snap_endTimeSec parsed < nowSec e)
      then None
      else Some parsed
  | _ => None
  end.

(** The effect that resumes a stored round when the component mounts. *)
Definition resumeEffect (e : Env) (w : World) : World :=
  if negb (storageOk e) then log error_caught w
  else match snapshotToResume e w with
  | Some parsed => hydrateStateFromSnapshot parsed true e w
  | None => w
  end.

(** The effects that copy a cell into its ref, and the clean-up of the
    timer effect, which leaves no round timer behind when the round is
    not running. *)
Definition flushEffects (w : World) : World :=
  let w :=
    w |> setConnectionModeRef (connectionMode (conn w))
      |> setLockedRoleRef (lockedRole (session w))
      |> setSessionIdRef (sessionId (session w))
      |> setRolesConfirmedRef (rolesConfirmed (session w))
      |> setSessionRolesRef (sessionRoles (session w))
      |> setCurrentRoundIdRef (currentRoundId (round w)) in
  if negb (truthy_num (endTimeSec (round w)))
     || bool_decide (gameState (round w) ≠ running)
  then clearTimer w else w.

(** ** Events *)

Inductive Event :=
  | onmessage (msg : Message)
  | timer_effect
  | interval_tick
  | persist_effect
  | ended_effect
  | assign_roles_effect (fresh : string)
  | retry_timeout (fresh : string)
  | snapshot_push_effect
  | notice_timeout
  | load_history_effect
  | resume_effect
  | click_start_game (endTimeUnix : option Z) (gameId : string)
  | click_vote
  | click_propose_end_change (proposedUnix : option Z)
  | click_propose_end_now
  | click_accept_end_change
  | click_reject_end_change
  | click_accept_end_now
  | click_reject_end_now
  | click_select_role (r : Role)
  | click_start_new_round
  | click_discard_banner
  | click_discard_stats
  | click_load_history (gameId : string)
  | click_delete_history (gameId : string)
  | click_exit_history
  | click_create_offer (threw : bool)
  | click_create_answer (o : AnswerOutcome)
  | on_channel_open
  | on_channel_error
  | on_ready_state (s : ReadyState)
  | on_datachannel (s : ReadyState)
  | on_connection_state (s : PcState)
  | on_ice_state (s : PcState)
  | unmount.

Definition handle (ev : Event) (e : Env) (w : World) : World :=
  match ev with
  | onmessage msg => handleIncomingMessage msg e w
  | timer_effect => timerEffect e w
  | interval_tick => intervalTick e w
  | persist_effect => persistEffect e w
  | ended_effect => endedEffect e w
  | assign_roles_effect fresh => assignRolesEffect fresh e w
  | retry_timeout fresh => retryTimeout fresh e w
  | snapshot_push_effect => snapshotPushEffect e w
  | notice_timeout => noticeTimeout w
  | load_history_effect => loadHistoryEffect e w
  | resume_effect => resumeEffect e w
  | click_start_game endTimeUnix gameId => handleStartGame endTimeUnix gameId e w
  | click_vote => handleVote e w
  | click_propose_end_change p => handleProposeEndChange p e w
  | click_propose_end_now => handleProposeEndNow e w
  | click_accept_end_change => handleAcceptIncomingEndChange e w
  | click_reject_end_change => handleRejectIncomingEndChange e w
  | click_accept_end_now => handleAcceptIncomingEndNow e w
  | click_reject_end_now => handleRejectIncomingEndNow e w
  | click_select_role r => handleSelectRole r w
  | click_start_new_round => handleStartNewRound e w
  | click_discard_banner => handleDiscardSnapshotFromBanner e w
  | click_discard_stats => handleDiscardSnapshotFromStats e w
  | click_load_history gameId => handleLoadHistoryGame gameId e w
  | click_delete_history gameId => handleDeleteHistoryGame gameId e w
  | click_exit_history => handleExitHistoryView w
  | click_create_offer threw => handleCreateOffer threw w
  | click_create_answer o => handleApplyOfferAndCreateAnswer o w
  | on_channel_open => channel_onopen w
  | on_channel_error => channel_onerror w
  | on_ready_state s => readyStateChange s w
  | on_datachannel s => pc_ondatachannel s w
  | on_connection_state s => pc_onconnectionstatechange s w
  | on_ice_state s => pc_oniceconnectionstatechange s w
  | unmount => cleanupConnection e w
  end.

(** One event: its handler runs to completion, then the component
    renders and the effects above run. *)
Definition step (ev : Event) (e : Env) (w : World) : World :=
  flushEffects (handle ev e w).

Fixpoint run (evs : list (Event * Env)) (w : World) : World :=
  match evs with
  | [] => w
  | (ev, e) :: evs' => run evs' (step ev e w)
  end.

(** The component as it mounts. *)
Definition initialWorld : World :=
  {| round := {| currentRoundId := None; startTimeSec := None;
                 endTimeSec := None; resolvedEndTimeSec := None;
                 timeRemaining := 0; gameState := idle;
                 scores := noScores; voteEvents := [] |};
     session := {| lockedRole := None; roleLocked := false; sessionId := None;
                   sessionRoles := None; rolesConfirmed := false |};
     nego := {| incomingEndChange := None; incomingEndNow := false |};
     notices := {| roleSyncMessage := None; infoMessage := None;
                   voteIgnoreMessage := None; roleAssignmentNotice := None;
                   error := None |};
     view := {| currentGameId := None; storedGameIdHint := None;
                offlineSnapshotMode := false; snapshotMeta := None;
                historyIndex := []; historyError := None;
                historyViewSnapshot := None; historyViewSnapshots := ∅;
                activeTabKey := None |};
     conn := {| connectionMode := offer; connectionStatus := conn_idle |};
     refs := {| dataChannelRef := None; timerRef := false;
                currentRoundIdRef := None; sessionIdRef := None;
                lockedRoleRef := None; connectionModeRef := offer;
                hasSentAssignRolesRef := false; snapshotVersionRef := 0;
                hasSentStateSnapshotRef := false;
                assignRolesRetryCountRef := 0;
                assignRolesRetryTimerRef := false;
                rolesConfirmedRef := false; sessionRolesRef := None |};
     localStorage := ∅;
     gid := None;
     sent := [];
     console := [] |}.

(** * The vocabulary of the statements *)

(** ** Worlds and snapshots of the examples *)

(** The clock at [t] milliseconds, store and channel in order. *)
Definition at_ms (t : Z) : Env := {| now := t; storageOk := true; sendOk := true |}.

(** The same with a local store that refuses every access. *)
Definition storeless (t : Z) : Env :=
  {| now := t; storageOk := false; sendOk := true |}.

Definition redBlue : SessionRoles := {| hostRole := red; guestRole := blue |}.

(** A host that chose red, offered a connection and saw its channel open. *)
Definition hostReady : World :=
  run [ (click_select_role red, at_ms 1000);
        (click_create_offer false, at_ms 2000);
        (on_ready_state open, at_ms 3000);
        (on_channel_open, at_ms 3000) ] initialWorld.

(** A host that chose blue, assigned the roles and started round [r1], to
    run from second 100 to second 700. *)
Definition hostRunning : World :=
  run [ (click_select_role blue, at_ms 1000);
        (click_create_offer false, at_ms 2000);
        (on_ready_state open, at_ms 3000);
        (on_channel_open, at_ms 3000);
        (assign_roles_effect "s1", at_ms 3000);
        (onmessage (assignRolesAck "s1" red), at_ms 3500);
        (click_start_game (Some 700) "r1", at_ms 100000) ] initialWorld.

(** A guest that answered a connection and received the host's roles. *)
Definition guestReady : World :=
  run [ (click_create_answer answer_created, at_ms 1000);
        (on_datachannel open, at_ms 2000);
        (on_channel_open, at_ms 2000);
        (onmessage (assignRoles "s1" red blue), at_ms 3000) ] initialWorld.

(** The guest after the host started round [r1], from second 100 to 200. *)
Definition guestRunning : World :=
  step (onmessage (start "r1" (Fin 200) (Some redBlue))) (at_ms 100000) guestReady.

(** The same round after its timer ran out. *)
Definition guestEnded : World :=
  run [ (timer_effect, at_ms 100000); (interval_tick, at_ms 200000) ] guestRunning.

(** A guest whose role cell was overwritten with the host's role. *)
Definition guestMisassigned : World :=
  flushEffects (setLockedRole (Some red) guestRunning).

(** The guest of [guestReady] after a [start] whose round id is the empty
    string. *)
Definition guestEmptyRound : World :=
  step (onmessage (start "" (Fin 200) (Some redBlue))) (at_ms 100000) guestReady.

(** What a host would push for a round after two votes for blue. *)
Definition hostSnapshot (gameId : string) (st : GameState) : GameSnapshot :=
  {| snap_version := 3; snap_lastUpdatedAt := 150000; snap_gameId := gameId;
     snap_sessionId := Some "s1"; snap_isHost := true; snap_lockedRole := red;
     snap_startTimeSec := 100; snap_endTimeSec := 200; snap_gameState := st;
     snap_scoreRed := 0; snap_scoreBlue := 2;
     snap_events := [ {| ev_at := 10; ev_target := blue |};
                      {| ev_at := 20; ev_target := blue |} ] |}.

(** The snapshot of a round that ended at [endSec]. *)
Definition endedSnapshot (gameId : string) (endSec updated : Z) : GameSnapshot :=
  {| snap_version := 1; snap_lastUpdatedAt := updated; snap_gameId := gameId;
     snap_sessionId := None; snap_isHost := true; snap_lockedRole := red;
     snap_startTimeSec := 100; snap_endTimeSec := endSec;
     snap_gameState := ended; snap_scoreRed := 1; snap_scoreBlue := 2;
     snap_events := [] |}.

(** ** Snapshots *)

(** What adopting [snapshot] means for the cells of the round and of the
    session: each holds the snapshot's field. *)
Definition adopted (snapshot : GameSnapshot) (w : World) : Prop :=
  currentRoundId (round w) = Some (snap_gameId snapshot)
  /\ currentRoundIdRef (refs w) = Some (snap_gameId snapshot)
  /\ startTimeSec (round w) = Some (snap_startTimeSec snapshot)
  /\ endTimeSec (round w) = Some (snap_endTimeSec snapshot)
  /\ gameState (round w) = snap_gameState snapshot
  /\ score_red (scores (round w)) = snap_scoreRed snapshot
  /\ score_blue (scores (round w)) = snap_scoreBlue snapshot
  /\ voteEvents (round w) = toVoteEvent <$> snap_events snapshot
  /\ lockedRole (session w) = Some (snap_lockedRole snapshot)
  /\ sessionId (session w) = snap_sessionId snapshot
  /\ sessionIdRef (refs w) = snap_sessionId snapshot
  /\ snapshotVersionRef (refs w) = snap_version snapshot.

(** [persistSnapshot] called once per element of [envs], in succession. *)
Fixpoint persistAll (envs : list Env) (w : World)
    : list (option GameSnapshot) * World :=
  match envs with
  | [] => ([], w)
  | e :: envs' =>
      let '(s, w1) := persistSnapshot e w in
      let '(ss, w2) := persistAll envs' w1 in
      (s :: ss, w2)
  end.

(** The versions of the snapshots that a series of calls returned. *)
Definition versions (l : list (option GameSnapshot)) : list (option Z) :=
  (fun s : option GameSnapshot => snap_version <$> s) <$> l.


(** ** The history index *)

(** The order of the index in the words of the specification: later end
    time first, and among equal end times later update first. *)
Definition newerFirst (a b : HistoryIndexEntry) : Prop :=
  hist_endTimeSec b < hist_endTimeSec a
  \/ (hist_endTimeSec a = hist_endTimeSec b
      /\ hist_lastUpdatedAt b <= hist_lastUpdatedAt a).

Definition gameIds (l : list HistoryIndexEntry) : list string :=
  hist_gameId <$> l.

(** Sorted, and one entry per round id. *)
Definition historyOk (l : list HistoryIndexEntry) : Prop :=
  StronglySorted newerFirst l /\ NoDup (gameIds l).

(** The two operations on the index. *)
Inductive HistoryOp :=
  | history_upsert (snapshot : GameSnapshot)
  | history_remove (gameId : string).

Definition applyHistoryOp (op : HistoryOp) (e : Env) (w : World) : World :=
  match op with
  | history_upsert snapshot => upsertHistoryIndex snapshot e w
  | history_remove gameId => handleDeleteHistoryGame gameId e w
  end.

Fixpoint runHistory (ops : list (HistoryOp * Env)) (w : World) : World :=
  match ops with
  | [] => w
  | (op, e) :: ops' => runHistory ops' (applyHistoryOp op e w)
  end.

(** ** The state and the times of a round *)

(** The events that replace the cells by a snapshot's. *)
Definition adoptsSnapshot (ev : Event) : bool :=
  match ev with
  | onmessage (stateSnapshot _ _) | resume_effect => true
  | _ => false
  end.

(** The events that start a round under the id [rid]. *)
Definition restarts (rid : string) (ev : Event) : bool :=
  match ev with
  | onmessage (start roundId _ _) => bool_decide (roundId = rid)
  | click_start_game _ gameId => bool_decide (gameId = rid)
  | _ => false
  end.

(** The invariant of the data model: the end time of a round is after its
    start time. *)
Definition timingOk (w : World) : Prop :=
  forall startSec endSec,
    startTimeSec (round w) = Some startSec ->
    endTimeSec (round w) = Some endSec ->
    startSec < endSec.

(** What the events that take an end time from outside must bring for the
    invariant to survive them; the others need nothing. *)
Definition keepsTiming (ev : Event) (e : Env) (w : World) : Prop :=
  match ev with
  | onmessage (acceptEndChange _ proposedEndTime) =>
      forall startSec,
        startTimeSec (round w) = Some startSec -> startSec < proposedEndTime
  | click_accept_end_change =>
      forall startSec proposedEndTime,
        startTimeSec (round w) = Some startSec ->
        incomingEndChange (nego w) = Some proposedEndTime ->
        startSec < proposedEndTime
  | onmessage (acceptEndNow _) | click_accept_end_now =>
      forall startSec,
        startTimeSec (round w) = Some startSec -> startSec < nowSec e
  | onmessage (stateSnapshot _ snapshot) =>
      snap_startTimeSec snapshot < snap_endTimeSec snapshot
  | resume_effect =>
      forall snapshot,
        snapshotToResume e w = Some snapshot ->
        snap_startTimeSec snapshot < snap_endTimeSec snapshot
  | _ => True
  end.

(** Every event of a run brings what [keepsTiming] asks of it. *)
Fixpoint allKeepTiming (evs : list (Event * Env)) (w : World) : Prop :=
  match evs with
  | [] => True
  | (ev, e) :: evs' => keepsTiming ev e w /\ allKeepTiming evs' (step ev e w)
  end.

(** ** The retries of [assignRoles] *)



(** The retry timeout is pending; the retry counter. *)
Definition pending (w : World) : bool := assignRolesRetryTimerRef (refs w).
Definition retries (w : World) : Z := assignRolesRetryCountRef (refs w).





(** ** Proof tools *)

Ltac unfold_handlers :=
  unfold handleIncomingMessage, timerEffect, intervalTick, persistEffect,
    endedEffect, assignRolesEffect, retryTimeout, snapshotPushEffect,
    noticeTimeout, loadHistoryEffect, resumeEffect, handleStartGame, handleVote,
    handleProposeEndChange, handleProposeEndNow, handleAcceptIncomingEndChange,
    handleRejectIncomingEndChange, handleAcceptIncomingEndNow,
    handleRejectIncomingEndNow, handleSelectRole, handleStartNewRound,
    handleDiscardSnapshotFromBanner, handleDiscardSnapshotFromStats,
    handleLoadHistoryGame, handleDeleteHistoryGame, handleExitHistoryView,
    handleCreateOffer, handleApplyOfferAndCreateAnswer, channel_onopen,
    channel_onerror, readyStateChange, pc_ondatachannel,
    pc_onconnectionstatechange, pc_oniceconnectionstatechange,
    cleanupConnection, createPeerConnection,
    resetSessionAndRolesForNewAnswerJoin, forgetSession, forgetSnapshotOf,
    showHistory, resetGameState, applyVote, beginGameWithEndTime,
    applyEndTimeUpdate, applyImmediateEndLocal, updateRemaining,
    ensureRoleFromSessionRoles, sendAssignRolesOnce, sendMessage,
    persistSnapshot, upsertHistoryIndex, hydrateStateFromSnapshot,
    scheduleRetry, tryStorage in *.

(** Every event, every branch of its handler. *)
Ltac each_branch ev :=
  destruct ev as [[]| | | | | | | | | | | | | | | | | | | | | | | | | | | | | | | | | |];
  cbn [handle]; unfold_handlers; repeat case_match; simplify_eq/=.


(** * More of the component *)

(** ** The chart of the scores *)

(** A point of the chart: [{ second, red, blue }]. *)
Record ChartPoint := { pt_second : Z; pt_red : Z; pt_blue : Z }.

(** The duration of the round, once it has a start and an end. *)
Definition liveTotalDurationSec (w : World) : option Z :=
  match startTimeSec (round w), resolvedEndTimeSec (round w) with
  | Some st, Some en =>
      if negb (truthy_num (startTimeSec (round w)))
         || negb (truthy_num (resolvedEndTimeSec (round w)))
      then None
      else Some (Z.max 0 (en - st))
  | _, _ => None
  end.

(** [baseEvents.length > 0 ? Math.max(...elapsed) : 0] *)
Definition maxElapsedFromVotes (events : list VoteEvent) : Z :=
  match events with
  | [] => 0
  | v :: events' => foldr Z.max (elapsed v) (elapsed <$> events')
  end.

(** The [forEach] of one second: the accumulators [(redAcc, blueAcc)]
    after it. *)
Definition tallySecond (second : Z) (events : list VoteEvent) (acc : Z * Z)
    : Z * Z :=
  fold_left
    (fun acc event =>
       if decide (elapsed event = second) then
         match target event with
         | red => (acc.1 + 1, acc.2)
         | blue => (acc.1, acc.2 + 1)
         end
       else acc)
    events acc.

(** [n] more rounds of the [for] loop, beginning at [second]. *)
Fixpoint chartLoop (events : list VoteEvent) (n : nat) (second : Z)
    (acc : Z * Z) : list ChartPoint :=
  match n with
  | O => []
  | S n' =>
      let acc' := tallySecond second events acc in
      {| pt_second := second; pt_red := acc'.1; pt_blue := acc'.2 |}
      :: chartLoop events n' (second + 1) acc'
  end.

(** The loop from second 0 to [finalDuration], both included. *)
Definition chartPoints (events : list VoteEvent) (finalDuration : Z)
    : list ChartPoint :=
  chartLoop events (Z.to_nat (finalDuration + 1)) 0 (0, 0).

(** [finalDuration] in [chartData]: the later of the round's duration and
    of the last vote. *)
Definition chartFinalDuration (w : World) : Z :=
  Z.max (default 0 (liveTotalDurationSec w))
        (maxElapsedFromVotes (voteEvents (round w))).

(** The chart of the live round, and the chart of a stored round. *)
Definition chartData (w : World) : list ChartPoint :=
  let finalDuration := chartFinalDuration w in
  if negb (truthy_str (currentRoundId (round w)))
     || bool_decide (finalDuration <= 0)
  then []
  else chartPoints (voteEvents (round w)) finalDuration.

Definition buildChartDataForSnapshot (snapshot : GameSnapshot)
    : list ChartPoint :=
  let baseEvents := toVoteEvent <$> snap_events snapshot in
  let durationFromTimes :=
    Z.max 0 (snap_endTimeSec snapshot - snap_startTimeSec snapshot) in
  let finalDuration :=
    Z.max durationFromTimes (maxElapsedFromVotes baseEvents) in
  if decide (finalDuration <= 0) then []
  else chartPoints baseEvents finalDuration.

(** ** The button for a new game *)

(** [handleNewGameClick]: whether it opened the confirmation dialog
    ([setNewGameConfirmOpen(true)]), and the world it leaves.  When the
    store refuses, the [catch] logs and the flag stays false. *)
Definition handleNewGameClick (e : Env) (w : World) : bool * World :=
  let hasSnapshotFlag :=
    storageOk e && truthy_str (getId SNAPSHOT_LAST_ID_KEY w) in
  let w := if storageOk e then w else log error_caught w in
  if bool_decide (gameState (round w) = running) || hasSnapshotFlag
  then (true, w)
  else (false, handleStartNewRound e w).

(** ** Round ids

    [generateGameId] draws 24 bytes, writes them in base 64 with [btoa],
    makes the text safe for an address and puts [GID-] before it.  [btoa]
    writes each three bytes as four digits of base 64, most significant
    first, and pads an incomplete last group with [=]. *)

(** The character of a text of length one. *)
Definition char (s : string) : Ascii.ascii :=
  match s with String c _ => c | EmptyString => Ascii.zero end.

Definition base64Alphabet : list Ascii.ascii :=
  String.list_ascii_of_string
    "ABCDEFGHIJKLMNOPQRSTUVWXYZabcdefghijklmnopqrstuvwxyz0123456789+/".

Definition base64Digit (i : Z) : Ascii.ascii :=
  nth (Z.to_nat i) base64Alphabet (char "=").

Fixpoint btoa (bytes : list Z) : list Ascii.ascii :=
  match bytes with
  | [] => []
  | [a] =>
      let n := a * 65536 in
      [base64Digit (n / 262144); base64Digit (n / 4096 mod 64);
       char "="; char "="]
  | [a; b] =>
      let n := a * 65536 + b * 256 in
      [base64Digit (n / 262144); base64Digit (n / 4096 mod 64);
       base64Digit (n / 64 mod 64); char "="]
  | a :: b :: c :: rest =>
      let n := a * 65536 + b * 256 + c in
      base64Digit (n / 262144) :: base64Digit (n / 4096 mod 64)
      :: base64Digit (n / 64 mod 64) :: base64Digit (n mod 64)
      :: btoa rest
  end.

(** [.replace(/\+/g, '-').replace(/\//g, '_')] on one character. *)
Definition urlSafeChar (c : Ascii.ascii) : Ascii.ascii :=
  if decide (c = char "+") then char "-"
  else if decide (c = char "/") then char "_"
  else c.

(** [.replace(/=+$/g, '')] *)
Fixpoint stripPadding (l : list Ascii.ascii) : list Ascii.ascii :=
  match l with
  | [] => []
  | c :: l' =>
      match stripPadding l' with
      | [] => if decide (c = char "=") then [] else [c]
      | rest => c :: rest
      end
  end.

(** [bytes] is what [crypto.getRandomValues], or [Math.random] 24 times,
    filled the array with. *)
Definition generateGameId (bytes : list Z) : string :=
  "GID-" +:+ String.string_of_list_ascii (stripPadding (urlSafeChar <$> btoa bytes)).

(** * The vocabulary of the further properties *)

(** The round that a message names, for the messages that name one. *)
Definition namesRound (m : Message) : option string :=
  match m with
  | vote r _ _ | proposeEndChange r _ | acceptEndChange r _
  | rejectEndChange r _ | proposeEndNow r | acceptEndNow r | rejectEndNow r =>
      Some r
  | start _ _ _ | assignRoles _ _ _ | assignRolesAck _ _ | stateSnapshot _ _ =>
      None
  end.

(** The peer has a current round, [rid]. *)
Definition inRound (rid : string) (w : World) : Prop :=
  rid <> "" /\ currentRoundId (round w) = Some rid
  /\ currentRoundIdRef (refs w) = Some rid.

(** The peer can send: its channel is open. *)
Definition online (w : World) : Prop :=
  connectionStatus (conn w) = connected /\ channelOpen w = true.

(** A host about to assign the roles: connected as the offering side with
    an open channel, locked to [r], no session yet and no attempt begun. *)
Definition hostCanAssign (r : Role) (h : World) : Prop :=
  online h
  /\ connectionModeRef (refs h) = offer
  /\ lockedRole (session h) = Some r
  /\ lockedRoleRef (refs h) = Some r
  /\ assignRolesRetryCountRef (refs h) = 0
  /\ sessionIdRef (refs h) = None.

(** A peer that may negotiate about round [rid]: online, the round
    running, no history view open. *)
Definition canNegotiate (rid : string) (w : World) : Prop :=
  online w /\ inRound rid w
  /\ gameState (round w) = running
  /\ historyViewSnapshot (view w) = None.

(** The events whose handlers write the scores or the vote log. *)
Definition touchesTally (ev : Event) : bool :=
  match ev with
  | onmessage (vote _ _ _) | onmessage (start _ _ _)
  | onmessage (stateSnapshot _ _) | resume_effect
  | click_vote | click_start_game _ _
  | click_start_new_round | click_discard_banner | unmount => true
  | _ => false
  end.

(** The events whose handlers write the start or the end time. *)
Definition touchesTiming (ev : Event) : bool :=
  match ev with
  | onmessage (start _ _ _) | onmessage (stateSnapshot _ _)
  | onmessage (acceptEndChange _ _) | onmessage (acceptEndNow _)
  | resume_effect | click_start_game _ _
  | click_accept_end_change | click_accept_end_now
  | click_start_new_round | click_discard_banner | unmount => true
  | _ => false
  end.

(** A peer whose vote button does something: no history view, a locked
    role [r], connected, round [rid] running since second [startSec]. *)
Definition canVote (r : Role) (rid : string) (startSec : Z) (w : World) : Prop :=
  historyViewSnapshot (view w) = None
  /\ lockedRole (session w) = Some r
  /\ connectionStatus (conn w) = connected
  /\ gameState (round w) = running
  /\ startTimeSec (round w) = Some startSec /\ startSec <> 0
  /\ currentRoundId (round w) = Some rid /\ rid <> "".

(** How many entries of a vote log are for [r]. *)
Fixpoint votesFor (r : Role) (l : list VoteEvent) : Z :=
  match l with
  | [] => 0
  | v :: l' => (if decide (target v = r) then 1 else 0) + votesFor r l'
  end.

(** The scores are the counts of the vote log. *)
Definition tallyOk (w : World) : Prop :=
  forall r, score r (scores (round w)) = votesFor r (voteEvents (round w)).

(** The same of a snapshot. *)
Definition snapshotTallyOk (s : GameSnapshot) : Prop :=
  forall r,
    score r {| score_red := snap_scoreRed s; score_blue := snap_scoreBlue s |}
    = votesFor r (toVoteEvent <$> snap_events s).

(** What an adopted snapshot must bring for the tally to survive. *)
Definition keepsTally (ev : Event) (e : Env) (w : World) : Prop :=
  match ev with
  | onmessage (stateSnapshot _ snapshot) => snapshotTallyOk snapshot
  | resume_effect =>
      forall snapshot, snapshotToResume e w = Some snapshot ->
                       snapshotTallyOk snapshot
  | _ => True
  end.

(** The remaining time is never negative, is zero unless the round is
    running, and a round timer exists only for a running round. *)
Definition clockOk (w : World) : Prop :=
  0 <= timeRemaining (round w)
  /\ (gameState (round w) <> running -> timeRemaining (round w) = 0)
  /\ (timerRef (refs w) = true -> gameState (round w) = running).

(** ** The snapshot pushed to a peer that connects *)

Definition isSnapshot (m : Message) : bool :=
  match m with stateSnapshot _ _ => true | _ => false end.

(** How many [stateSnapshot] messages the channel was given. *)
Fixpoint snapshotCount (l : list Message) : nat :=
  match l with
  | [] => 0%nat
  | m :: l' => ((if isSnapshot m then 1 else 0) + snapshotCount l')%nat
  end.

(** The events that clear [hasSentStateSnapshotRef]: the push effect when
    it finds the connection not connected, the start of a new round, and
    the clean-up of the connection. *)
Definition resetsPush (ev : Event) (w : World) : bool :=
  match ev with
  | snapshot_push_effect =>
      bool_decide (connectionStatus (conn w) <> connected)
  | click_start_new_round | unmount => true
  | _ => false
  end.

(** A run in which no event clears the flag. *)
Fixpoint pushQuiet (tr : list (Event * Env)) (w : World) : Prop :=
  match tr with
  | [] => True
  | (ev, e) :: tr' => resetsPush ev w = false /\ pushQuiet tr' (step ev e w)
  end.

(** A host about to push the snapshot [s] of its round, its own role
    being [r]. *)
Definition hostPushes (r : Role) (s : GameSnapshot) (e : Env) (h : World)
    : Prop :=
  online h /\ connectionModeRef (refs h) = offer
  /\ hasSentStateSnapshotRef (refs h) = false
  /\ buildSnapshotFromState e h = Some s
  /\ lockedRole (session h) = Some r
  /\ sendOk e = true.

(** A host with role [r] that may start a round: it views no history
    game, is connected, and the roles it stored, if any, give it [r]. *)
Definition hostCanStart (r : Role) (h : World) : Prop :=
  historyViewSnapshot (view h) = None
  /\ lockedRole (session h) = Some r
  /\ online h
  /\ connectionModeRef (refs h) = offer
  /\ (sessionRolesRef (refs h) = None
      \/ sessionRolesRef (refs h)
         = Some {| hostRole := r; guestRole := other r |}).


(** ** The page loaded again

    Every cell and ref takes its initial value; the local store and the
    [gid] parameter of the address survive. *)
Definition reload (w : World) : World :=
  initialWorld |> with_localStorage (fun _ => localStorage w)
               |> setGid (gid w).

(** ** What the component puts on the channel

    [wellSent e w m]: a message [m] that the component sends from the
    world [w] at the time of [e] fits the state it is sent from. *)
Definition wellSent (e : Env) (w : World) (m : Message) : Prop :=
  match m with
  | start rid endTime roles =>
      (exists en, endTime = Fin en /\ nowSec e < en)
      /\ (exists r hg,
            lockedRole (session w) = Some r /\ roles = Some hg
            /\ (sessionRolesRef (refs w) = None ->
                expectedRole (connectionModeRef (refs w)) hg = r
                /\ guestRole hg = other (hostRole hg)))
      /\ connectionStatus (conn w) = connected
  | vote rid tgt at_ =>
      lockedRole (session w) = Some (other tgt) /\ 0 <= at_
      /\ currentRoundId (round w) = Some rid /\ rid <> ""
      /\ gameState (round w) = running
      /\ connectionStatus (conn w) = connected
  | assignRoles sid host guest =>
      guest = other host /\ currentLockedRole w = Some host
      /\ (forall s, sessionIdRef (refs w) = Some s -> sid = s)
  | assignRolesAck sid r => connectionModeRef (refs w) = answer
  | stateSnapshot rid s =>
      rid = snap_gameId s /\ buildSnapshotFromState e w = Some s
      /\ connectionModeRef (refs w) = offer
      /\ connectionStatus (conn w) = connected
  | proposeEndChange rid p =>
      currentRoundId (round w) = Some rid /\ rid <> ""
      /\ nowSec e < p /\ gameState (round w) = running
      /\ connectionStatus (conn w) = connected
  | acceptEndChange rid p | rejectEndChange rid p =>
      currentRoundId (round w) = Some rid /\ rid <> ""
      /\ incomingEndChange (nego w) = Some p
  | proposeEndNow rid =>
      currentRoundId (round w) = Some rid /\ rid <> ""
      /\ gameState (round w) = running
      /\ connectionStatus (conn w) = connected
  | acceptEndNow rid | rejectEndNow rid =>
      currentRoundId (round w) = Some rid /\ rid <> ""
  end.

(** ** The locked role *)

(** The events that may replace a locked role: what the peer sends, the
    resumption of a stored round, and leaving the session. *)
Definition changesRole (ev : Event) : bool :=
  match ev with
  | onmessage (assignRoles _ _ _) | onmessage (start _ _ (Some _))
  | onmessage (vote _ _ _) | onmessage (stateSnapshot _ _)
  | resume_effect | click_start_new_round | click_create_answer _
  | unmount => true
  | _ => false
  end.

(** The local actions that a history view refuses, each with the error
    it shows. *)
Definition refusedInHistoryView (ev : Event) : option Text :=
  match ev with
  | click_start_game _ _ => Some txt_start_history_readonly
  | click_vote => Some txt_vote_history_readonly
  | click_propose_end_change _ => Some txt_propose_history_readonly
  | click_propose_end_now => Some txt_endnow_history_readonly
  | _ => None
  end.

(** The events by which the user discards stored snapshots. *)
Definition deletesSnapshot (ev : Event) : bool :=
  match ev with
  | click_start_new_round | click_discard_banner | click_discard_stats
  | click_delete_history _ => true
  | _ => false
  end.

(** The votes for [r] cast from second 0 to second [k]. *)
Definition votesUpTo (r : Role) (k : Z) (events : list VoteEvent) : Z :=
  votesFor r (filter (fun v => 0 <= elapsed v <= k) events).

(** The votes for [r] in the log that were cast up to second [k]. *)
Definition votesBy (r : Role) (k : Z) (events : list VoteEvent) : Z :=
  votesFor r (filter (fun v => elapsed v <= k) events).

(** An array of 24 bytes. *)
Definition randomBytes (bytes : list Z) : Prop :=
  length bytes = 24%nat /\ Forall (fun b => 0 <= b < 256) bytes.

(** The characters that need no escaping in an address. *)
Definition urlSafe (c : Ascii.ascii) : bool :=
  let n := Ascii.nat_of_ascii c in
  ((65 <=? n) && (n <=? 90) || (97 <=? n) && (n <=? 122)
   || (48 <=? n) && (n <=? 57) || (n =? 45) || (n =? 95))%nat.

(** ** Two components on one channel

    What one component receives is a message that the other sent; the
    channel may lose, repeat and reorder.  Each component begins as it
    mounts, with an empty store. *)
Record Peers := { peerA : World; peerB : World }.

Inductive PeerEvent :=
  | in_a (ev : Event)
  | in_b (ev : Event)
  | a_to_b (k : nat)
  | b_to_a (k : nat).

(** The events of a component alone: all but the arrival of a message. *)
Definition isLocal (ev : Event) : bool :=
  match ev with onmessage _ => false | _ => true end.

Definition peersStep (pev : PeerEvent) (e : Env) (p : Peers) : Peers :=
  match pev with
  | in_a ev =>
      if isLocal ev then {| peerA := step ev e (peerA p); peerB := peerB p |}
      else p
  | in_b ev =>
      if isLocal ev then {| peerA := peerA p; peerB := step ev e (peerB p) |}
      else p
  | a_to_b k =>
      match sent (peerA p) !! k with
      | Some msg =>
          {| peerA := peerA p; peerB := step (onmessage msg) e (peerB p) |}
      | None => p
      end
  | b_to_a k =>
      match sent (peerB p) !! k with
      | Some msg =>
          {| peerA := step (onmessage msg) e (peerA p); peerB := peerB p |}
      | None => p
      end
  end.

Fixpoint peersRun (pevs : list (PeerEvent * Env)) (p : Peers) : Peers :=
  match pevs with
  | [] => p
  | (pev, e) :: pevs' => peersRun pevs' (peersStep pev e p)
  end.

Definition freshPeers : Peers :=
  {| peerA := initialWorld; peerB := initialWorld |}.

(** [w] is a component of two that began fresh and received nothing but
    what the other sent. *)
Definition amongPeers (w : World) : Prop :=
  exists pevs,
    w = peerA (peersRun pevs freshPeers)
    \/ w = peerB (peersRun pevs freshPeers).

(** What holds of the votes of such components: the scores are the counts
    of the log and no elapsed time is negative, in the round, in what was
    sent and in what was stored. *)
Definition soundSnapshot (s : GameSnapshot) : Prop :=
  snapshotTallyOk s /\ Forall (fun x => 0 <= ev_at x) (snap_events s).

Definition soundMessage (m : Message) : Prop :=
  match m with
  | vote _ _ at_ => 0 <= at_
  | stateSnapshot _ s => soundSnapshot s
  | _ => True
  end.

Definition soundWorld (w : World) : Prop :=
  tallyOk w
  /\ Forall (fun v => 0 <= elapsed v) (voteEvents (round w))
  /\ Forall soundMessage (sent w)
  /\ (forall k s, localStorage w !! k = Some (StoredSnapshot s) ->
                  soundSnapshot s).

(** What the event brings from outside is sound. *)
Definition soundEvent (ev : Event) : Prop :=
  match ev with onmessage m => soundMessage m | _ => True end.

(** The history index is sorted with one entry per round, in the
    component and in what it stored. *)
Definition indexOk (w : World) : Prop :=
  historyOk (historyIndex (view w))
  /\ (forall k l, localStorage w !! k = Some (StoredIndex l) -> historyOk l).

(** ** More worlds of the examples *)

(** A guest that answered a connection and saw its channel open; the
    host's roles have not arrived yet. *)
Definition guestJoined : World :=
  run [ (click_create_answer answer_created, at_ms 1000);
        (on_datachannel open, at_ms 2000);
        (on_channel_open, at_ms 2000) ] initialWorld.

(** The host of [guestRunning]: it chose red, assigned the roles and
    started round [r1], to run from second 100 to second 200. *)
Definition redHostTrace : list (Event * Env) :=
  [ (click_select_role red, at_ms 1000);
    (click_create_offer false, at_ms 2000);
    (on_ready_state open, at_ms 3000);
    (on_channel_open, at_ms 3000);
    (assign_roles_effect "s1", at_ms 3000);
    (onmessage (assignRolesAck "s1" blue), at_ms 3500);
    (click_start_game (Some 200) "r1", at_ms 100000) ].

Definition redHostRunning : World := run redHostTrace initialWorld.

(** What [buildSnapshotFromState] makes of it at second 150. *)
Definition redHostSnapshot : GameSnapshot :=
  {| snap_version := 0; snap_lastUpdatedAt := 150000; snap_gameId := "r1";
     snap_sessionId := Some "s1"; snap_isHost := true; snap_lockedRole := red;
     snap_startTimeSec := 100; snap_endTimeSec := 200;
     snap_gameState := running; snap_scoreRed := 0; snap_scoreBlue := 0;
     snap_events := [] |}.

(** The guest after it voted at second 130, and the host after that vote
    arrived. *)
Definition guestVoted : World := step click_vote (at_ms 130000) guestRunning.

Definition redHostVoted : World :=
  step (onmessage (vote "r1" red 30)) (at_ms 130500) redHostRunning.

(** The run of two components in which the host becomes [redHostVoted]
    and the guest [guestVoted]. *)
Definition votedPeersTrace : list (PeerEvent * Env) :=
  [ (in_a (click_select_role red), at_ms 1000);
    (in_b (click_create_answer answer_created), at_ms 1000);
    (in_a (click_create_offer false), at_ms 2000);
    (in_b (on_datachannel open), at_ms 2000);
    (in_b on_channel_open, at_ms 2000);
    (in_a (on_ready_state open), at_ms 3000);
    (in_a on_channel_open, at_ms 3000);
    (in_a (assign_roles_effect "s1"), at_ms 3000);
    (a_to_b 0, at_ms 3000);
    (b_to_a 0, at_ms 3500);
    (in_a (click_start_game (Some 200) "r1"), at_ms 100000);
    (a_to_b 1, at_ms 100000);
    (in_b click_vote, at_ms 130000);
    (b_to_a 1, at_ms 130500) ].

(** What [buildSnapshotFromState] makes of that host at second 150. *)
Definition redHostVotedSnapshot : GameSnapshot :=
  {| snap_version := 0; snap_lastUpdatedAt := 150000; snap_gameId := "r1";
     snap_sessionId := Some "s1"; snap_isHost := true; snap_lockedRole := red;
     snap_startTimeSec := 100; snap_endTimeSec := 200;
     snap_gameState := running; snap_scoreRed := 1; snap_scoreBlue := 0;
     snap_events := [ {| ev_at := 30; ev_target := red |} ] |}.

(** The host's round after its timer ran out, and its snapshot then. *)
Definition redHostEnded : World :=
  run [ (timer_effect, at_ms 100000); (interval_tick, at_ms 200000) ]
      redHostVoted.

Definition redHostEndedSnapshot : GameSnapshot :=
  {| snap_version := 0; snap_lastUpdatedAt := 200000; snap_gameId := "r1";
     snap_sessionId := Some "s1"; snap_isHost := true; snap_lockedRole := red;
     snap_startTimeSec := 100; snap_endTimeSec := 200;
     snap_gameState := ended; snap_scoreRed := 1; snap_scoreBlue := 0;
     snap_events := [ {| ev_at := 30; ev_target := red |} ] |}.

(** ** More proof tools *)

(** The guards that a case analysis left as equations on booleans, as
    propositions. *)
Ltac bool_hyps :=
  repeat match goal with
         | H : _ || _ = false |- _ => apply orb_false_iff in H as [? ?]
         | H : _ && _ = true |- _ => apply andb_true_iff in H as [? ?]
         | H : negb _ = false |- _ => apply negb_false_iff in H
         | H : negb _ = true |- _ => apply negb_true_iff in H
         | H : bool_decide _ = true |- _ => apply bool_decide_eq_true in H
         | H : bool_decide _ = false |- _ => apply bool_decide_eq_false in H
         | H : truthy_str (Some _) = true |- _ =>
             apply bool_decide_eq_true in H
         | H : truthy_num (Some _) = true |- _ =>
             apply bool_decide_eq_true in H
         | H : ¬ ¬ _ |- _ => apply dec_stable in H
         end.

(** * Properties *)

(** ** Receiving [start] *)

Lemma start_guard_finite (endTime nowS : Z) :
  nowS < endTime ->
  negb (Number_isFinite (Fin endTime)) || js_le (Fin endTime) nowS = false.
Proof. intros H. simpl. apply Z.leb_gt. lia. Qed.

Lemma start_guard_late (endTime : jsnum) (nowS : Z) :
  js_le endTime nowS = true ->
  negb (Number_isFinite endTime) || js_le endTime nowS = true.
Proof. intros ->. apply orb_true_r. Qed.

(** C1 (as amended): a received [start] whose end time is a finite number
    strictly greater than the current second leaves the round running,
    begun at the receiver's current second, with [endTime - now] remaining,
    both scores zero, the vote log empty and the message's round id as the
    current one, in the cell and in its ref. *)
Theorem start_begins_round roundId (endTime : Z) roles e w :
  nowSec e < endTime ->
  let w' := handleIncomingMessage (start roundId (Fin endTime) roles) e w in
  gameState (round w') = running
  /\ startTimeSec (round w') = Some (nowSec e)
  /\ endTimeSec (round w') = Some endTime
  /\ timeRemaining (round w') = endTime - nowSec e
  /\ scores (round w') = noScores
  /\ voteEvents (round w') = []
  /\ currentRoundId (round w') = Some roundId
  /\ currentRoundIdRef (refs w') = Some roundId.
Proof.
  intros Hlt w'. subst w'. unfold handleIncomingMessage.
  rewrite start_guard_finite by done.
  unfold beginGameWithEndTime.
  destruct (decide (endTime <= nowSec e)) as [Hle|_]; [lia|].
  cbn. repeat split; try done. lia.
Qed.

Lemma start_begins_round_witness :
  let w' := handleIncomingMessage (start "r1" (Fin 200) (Some redBlue))
              (at_ms 100000) guestReady in
  gameState (round w') = running
  /\ startTimeSec (round w') = Some 100
  /\ endTimeSec (round w') = Some 200
  /\ timeRemaining (round w') = 100
  /\ scores (round w') = noScores
  /\ voteEvents (round w') = []
  /\ currentRoundId (round w') = Some "r1"
  /\ currentRoundIdRef (refs w') = Some "r1".
Proof.
  apply (start_begins_round "r1" 200 (Some redBlue) (at_ms 100000) guestReady).
  vm_compute. reflexivity.
Defined.

(** C1, counterexample: an end time of [Infinity] (the JSON text [1e999])
    is greater than every current time, and the handler drops the message:
    the round of a fresh component stays idle. *)
Lemma start_infinite_end_dropped :
  js_gt PosInf (nowSec (at_ms 100000)) = true
  /\ handleIncomingMessage (start "r1" PosInf None) (at_ms 100000) initialWorld
     = initialWorld
  /\ gameState (round (handleIncomingMessage (start "r1" PosInf None)
                         (at_ms 100000) initialWorld)) <> running.
Proof.
  split; [reflexivity|]. split; [reflexivity|].
  vm_compute. discriminate.
Qed.

(** ** Dropped messages *)

(** C6: a received [start] whose end time is not after the current second,
    and a received [vote] for another round than the current one, leave
    every cell as it was. *)
Theorem stale_start_and_foreign_vote_ignored e w :
  (forall roundId endTime roles,
      js_le endTime (nowSec e) = true ->
      handleIncomingMessage (start roundId endTime roles) e w = w)
  /\ (forall roundId tgt at_,
      currentRoundIdRef (refs w) <> Some roundId ->
      handleIncomingMessage (vote roundId tgt at_) e w = w).
Proof.
  split.
  - intros roundId endTime roles Hle. simpl.
    by rewrite start_guard_late.
  - intros roundId tgt at_ Hne. simpl. unfold foreignRound.
    rewrite (bool_decide_eq_true_2 (Some roundId ≠ currentRoundIdRef (refs w)))
      by congruence.
    by rewrite orb_true_r.
Qed.

Lemma stale_start_and_foreign_vote_ignored_witness :
  handleIncomingMessage (start "r2" (Fin 100) None) (at_ms 100000) guestRunning
  = guestRunning
  /\ handleIncomingMessage (vote "r2" blue 5) (at_ms 100000) guestRunning
     = guestRunning.
Proof.
  destruct (stale_start_and_foreign_vote_ignored (at_ms 100000) guestRunning)
    as [Hstart Hvote].
  split.
  - apply Hstart. vm_compute. reflexivity.
  - apply Hvote. vm_compute. discriminate.
Defined.

(** ** Receiving [vote] *)

Lemma foreignRound_current roundId w :
  currentRoundIdRef (refs w) = Some roundId ->
  roundId <> "" ->
  foreignRound roundId w = false.
Proof.
  intros Href Hne. unfold foreignRound. rewrite Href. simpl.
  rewrite (bool_decide_eq_true_2 (roundId ≠ "")) by done.
  by rewrite (bool_decide_eq_false_2 (Some roundId ≠ Some roundId)) by tauto.
Qed.

Lemma ensureRole_keeps_round reason w :
  round (ensureRoleFromSessionRoles reason w) = round w.
Proof.
  unfold ensureRoleFromSessionRoles.
  destruct (sessionRolesRef (refs w)); [|done].
  by case_decide.
Qed.

Lemma ensureRole_keeps_notice reason w :
  voteIgnoreMessage (notices (ensureRoleFromSessionRoles reason w))
  = voteIgnoreMessage (notices w).
Proof.
  unfold ensureRoleFromSessionRoles.
  destruct (sessionRolesRef (refs w)); [|done].
  by case_decide.
Qed.

Lemma ensureRole_resyncs reason w roles :
  sessionRolesRef (refs w) = Some roles ->
  let w' := ensureRoleFromSessionRoles reason w in
  roleLocked (session w') = true
  /\ lockedRole (session w')
     = Some (expectedRole (connectionModeRef (refs w)) roles).
Proof.
  intros Hroles. unfold ensureRoleFromSessionRoles. rewrite Hroles.
  cbn zeta. case_decide as Hlocked; [|done].
  split; [done|]. exact Hlocked.
Qed.

(** C7 (as amended): a received [vote] for the current round, whose id is
    not empty, with a target that is not the receiver's locked role
    changes neither score nor the vote log, shows the resync notice, and
    runs the role resync from the stored session roles, which, when roles
    are stored, locks the role they give to this side of the connection. *)
Theorem mistargeted_vote_rejected roundId tgt at_ e w localRole :
  currentRoundIdRef (refs w) = Some roundId ->
  roundId <> "" ->
  lockedRoleRef (refs w) = Some localRole ->
  tgt <> localRole ->
  let w' := handleIncomingMessage (vote roundId tgt at_) e w in
  scores (round w') = scores (round w)
  /\ voteEvents (round w') = voteEvents (round w)
  /\ voteIgnoreMessage (notices w') = Some txt_role_misassigned_retry
  /\ w' = ensureRoleFromSessionRoles vote_mismatch
            (w |> log (warn_vote_target localRole tgt)
               |> setVoteIgnoreMessage (Some txt_role_misassigned_retry))
  /\ (forall roles,
        sessionRolesRef (refs w) = Some roles ->
        roleLocked (session w') = true
        /\ lockedRole (session w')
           = Some (expectedRole (connectionModeRef (refs w)) roles)).
Proof.
  intros Href Hne Hlocked Htgt w'. subst w'.
  unfold handleIncomingMessage.
  rewrite foreignRound_current, Hlocked by done.
  destruct (decide (tgt ≠ localRole)) as [_|]; [|done].
  rewrite ensureRole_keeps_round, ensureRole_keeps_notice.
  do 4 (split; [done|]).
  intros roles Hroles.
  exact (ensureRole_resyncs vote_mismatch
           (w |> log (warn_vote_target localRole tgt)
              |> setVoteIgnoreMessage (Some txt_role_misassigned_retry))
           roles Hroles).
Qed.

Lemma mistargeted_vote_rejected_witness :
  let w' := handleIncomingMessage (vote "r1" blue 12) (at_ms 112000)
              guestMisassigned in
  scores (round w') = noScores
  /\ voteEvents (round w') = []
  /\ voteIgnoreMessage (notices w') = Some txt_role_misassigned_retry
  /\ lockedRole (session w') = Some blue.
Proof.
  destruct (mistargeted_vote_rejected "r1" blue 12 (at_ms 112000)
              guestMisassigned red)
    as (Hscores & Hvotes & Hnotice & _ & Hresync).
  - vm_compute. reflexivity.
  - discriminate.
  - vm_compute. reflexivity.
  - discriminate.
  - assert (Hroles : sessionRolesRef (refs guestMisassigned) = Some redBlue)
      by (vm_compute; reflexivity).
    destruct (Hresync redBlue Hroles) as [_ Hrole].
    cbv zeta. split; [exact Hscores|]. split; [exact Hvotes|].
    split; [exact Hnotice | exact Hrole].
Defined.

(** C7, counterexample: a [start] with the empty string as round id has
    made the empty string the current round of a guest locked to blue.  A
    [vote] for that round with target red, which is not the guest's role,
    is dropped as a vote for no round: every cell stays as it was, so no
    resync notice is shown and no resync is run. *)
Lemma mistargeted_vote_for_empty_round_silent :
  let w' := handleIncomingMessage (vote "" red 5) (at_ms 105000)
              guestEmptyRound in
  currentRoundIdRef (refs guestEmptyRound) = Some ""
  /\ gameState (round guestEmptyRound) = running
  /\ lockedRoleRef (refs guestEmptyRound) = Some blue
  /\ w' = guestEmptyRound
  /\ voteIgnoreMessage (notices w') = None
  /\ voteIgnoreMessage (notices w') <> Some txt_role_misassigned_retry.
Proof.
  cbv zeta. do 5 (split; [vm_compute; reflexivity|]).
  vm_compute. discriminate.
Qed.

(** C10 (as amended): a received [vote] for the current round, whose id
    is not empty, that targets the receiver's locked role is applied
    whatever the state of the round is, so also when it has ended: the
    target's score grows by one and the log by one entry; the local vote
    does nothing of the kind unless the round is running, it only reports
    an error. *)
Theorem received_vote_ignores_round_state e w :
  (forall roundId tgt at_ st,
      gameState (round w) = st ->
      currentRoundIdRef (refs w) = Some roundId ->
      roundId <> "" ->
      lockedRoleRef (refs w) = Some tgt ->
      let w' := handleIncomingMessage (vote roundId tgt at_) e w in
      score tgt (scores (round w')) = score tgt (scores (round w)) + 1
      /\ score (other tgt) (scores (round w'))
         = score (other tgt) (scores (round w))
      /\ voteEvents (round w')
         = voteEvents (round w) ++ [{| target := tgt; elapsed := at_ |}]
      /\ gameState (round w') = st)
  /\ (gameState (round w) <> running ->
      let w' := handleVote e w in
      scores (round w') = scores (round w)
      /\ voteEvents (round w') = voteEvents (round w)
      /\ sent w' = sent w
      /\ is_Some (error (notices w'))).
Proof.
  split.
  - intros roundId tgt at_ st Hst Href Hne Hlocked w'. subst w'.
    unfold handleIncomingMessage.
    rewrite foreignRound_current, Hlocked by done.
    destruct (decide (tgt ≠ tgt)) as [|_]; [done|].
    destruct tgt; cbn; repeat split; done.
  - intros Hst w'. subst w'. unfold handleVote.
    rewrite (bool_decide_eq_true_2 (gameState (round w) ≠ running)) by done.
    repeat case_match; simplify_eq/=; repeat split; eauto.
Qed.

Lemma received_vote_ignores_round_state_witness :
  gameState (round guestEnded) = ended
  /\ score blue (scores (round (handleIncomingMessage (vote "r1" blue 150)
                                  (at_ms 250000) guestEnded))) = 1
  /\ scores (round (handleVote (at_ms 250000) guestEnded)) = noScores.
Proof.
  destruct (received_vote_ignores_round_state (at_ms 250000) guestEnded)
    as [Hrecv Hlocal].
  split; [reflexivity|]. split.
  - destruct (Hrecv "r1" blue 150 ended) as [Hscore _];
      [reflexivity | reflexivity | discriminate | reflexivity |].
    exact Hscore.
  - destruct Hlocal as [Hscores _]; [discriminate|]. exact Hscores.
Defined.

(** C10, counterexample: in the running round whose id is the empty
    string a received [vote] for that round with the receiver's locked
    role as target is not applied: the score of the target and the vote
    log stay as they were. *)
Lemma received_vote_for_empty_round_not_applied :
  let w' := handleIncomingMessage (vote "" blue 5) (at_ms 105000)
              guestEmptyRound in
  currentRoundIdRef (refs guestEmptyRound) = Some ""
  /\ gameState (round guestEmptyRound) = running
  /\ lockedRoleRef (refs guestEmptyRound) = Some blue
  /\ score blue (scores (round w')) = score blue (scores (round guestEmptyRound))
  /\ score blue (scores (round w'))
     <> score blue (scores (round guestEmptyRound)) + 1
  /\ voteEvents (round w') = voteEvents (round guestEmptyRound).
Proof.
  cbv zeta. do 4 (split; [vm_compute; reflexivity|]).
  split; [vm_compute; discriminate | vm_compute; reflexivity].
Qed.

(** ** Snapshots *)

Lemma or_else_0 n : or_else n 0 = n.
Proof. unfold or_else. by case_decide. Qed.

Lemma hydrate_adopts snapshot offline e w :
  adopted snapshot (hydrateStateFromSnapshot snapshot offline e w).
Proof.
  unfold adopted, hydrateStateFromSnapshot, tryStorage.
  destruct offline, (storageOk e); cbn; rewrite or_else_0; repeat split.
Qed.

Lemma setOfflineSnapshotMode_adopted snapshot b w :
  adopted snapshot w -> adopted snapshot (setOfflineSnapshotMode b w).
Proof. done. Qed.

(** C8 (as amended): a received [stateSnapshot] whose snapshot has a
    non-empty round id is dropped with a warning, every cell unchanged,
    when the receiver has a current round with another id; it is adopted
    by [hydrateStateFromSnapshot], every cell of the round and of the
    session taking the snapshot's field, when the receiver has no current
    round or has the round of the snapshot.  A snapshot with an empty round
    id is dropped without a warning. *)
Theorem snapshot_adopted_or_dropped roundId snapshot e w :
  let current := currentRoundIdRef (refs w) in
  let w' := handleIncomingMessage (stateSnapshot roundId snapshot) e w in
  (snap_gameId snapshot <> "" ->
   truthy_str current = true ->
   current <> Some (snap_gameId snapshot) ->
   w' = log (warn_foreign_snapshot (default "" current) (snap_gameId snapshot)) w
   /\ round w' = round w /\ session w' = session w /\ refs w' = refs w)
  /\ (snap_gameId snapshot <> "" ->
      truthy_str current = false \/ current = Some (snap_gameId snapshot) ->
      w' = (w |> hydrateStateFromSnapshot snapshot false e
              |> setOfflineSnapshotMode false)
      /\ adopted snapshot w')
  /\ (snap_gameId snapshot = "" -> w' = w).
Proof.
  intros current w'. subst current w'. unfold handleIncomingMessage.
  split; [|split].
  - intros Hid Hcur Hne. case_decide; [done|].
    rewrite Hcur, bool_decide_eq_true_2 by done. done.
  - intros Hid Hcur. case_decide; [done|].
    assert (truthy_str (currentRoundIdRef (refs w))
            && bool_decide (currentRoundIdRef (refs w)
                            ≠ Some (snap_gameId snapshot)) = false) as ->.
    { destruct Hcur as [-> | ->]; [done|].
      rewrite bool_decide_eq_false_2 by tauto. apply andb_false_r. }
    split; [done|].
    apply setOfflineSnapshotMode_adopted, hydrate_adopts.
  - intros Hid. by case_decide.
Qed.

Lemma snapshot_adopted_or_dropped_witness :
  round (handleIncomingMessage (stateSnapshot "r2" (hostSnapshot "r2" running))
           (at_ms 150000) guestRunning) = round guestRunning
  /\ adopted (hostSnapshot "r1" running)
       (handleIncomingMessage (stateSnapshot "r1" (hostSnapshot "r1" running))
          (at_ms 150000) guestRunning)
  /\ adopted (hostSnapshot "r1" running)
       (handleIncomingMessage (stateSnapshot "r1" (hostSnapshot "r1" running))
          (at_ms 150000) guestReady)
  /\ handleIncomingMessage (stateSnapshot "" (hostSnapshot "" running))
       (at_ms 150000) guestReady = guestReady.
Proof.
  split; [|split; [|split]].
  - destruct (snapshot_adopted_or_dropped "r2" (hostSnapshot "r2" running)
                (at_ms 150000) guestRunning) as [Hdrop _].
    destruct Hdrop as (_ & Hround & _);
      [discriminate | reflexivity | discriminate |].
    exact Hround.
  - destruct (snapshot_adopted_or_dropped "r1" (hostSnapshot "r1" running)
                (at_ms 150000) guestRunning) as (_ & Hadopt & _).
    destruct Hadopt as [_ Hfields]; [discriminate | right; reflexivity |].
    exact Hfields.
  - destruct (snapshot_adopted_or_dropped "r1" (hostSnapshot "r1" running)
                (at_ms 150000) guestReady) as (_ & Hadopt & _).
    destruct Hadopt as [_ Hfields]; [discriminate | left; reflexivity |].
    exact Hfields.
  - destruct (snapshot_adopted_or_dropped "" (hostSnapshot "" running)
                (at_ms 150000) guestReady) as (_ & _ & Hempty).
    apply Hempty. reflexivity.
Defined.

(** C8, counterexample: the receiver has no current round and the
    snapshot's round id is the empty string; the claim has the snapshot
    adopted, the handler leaves every cell as it was, so the round is still
    idle and not the running round of the snapshot. *)
Lemma snapshot_without_id_not_adopted :
  let snapshot := hostSnapshot "" running in
  let w' := handleIncomingMessage (stateSnapshot "" snapshot) (at_ms 150000)
              guestReady in
  truthy_str (currentRoundIdRef (refs guestReady)) = false
  /\ w' = guestReady
  /\ gameState (round w') <> snap_gameState snapshot
  /\ ~ adopted snapshot w'.
Proof.
  cbv zeta. split; [reflexivity|]. split; [reflexivity|].
  split; [vm_compute; discriminate|].
  intros (Hid & _). vm_compute in Hid. discriminate.
Qed.






Lemma persist_returns_state e w snapshot w1 :
  persistSnapshot e w = (Some snapshot, w1) ->
  currentRoundId (round w) = Some (snap_gameId snapshot)
  /\ startTimeSec (round w) = Some (snap_startTimeSec snapshot)
  /\ endTimeSec (round w) = Some (snap_endTimeSec snapshot)
  /\ gameState (round w) = snap_gameState snapshot
  /\ score_red (scores (round w)) = snap_scoreRed snapshot
  /\ score_blue (scores (round w)) = snap_scoreBlue snapshot
  /\ voteEvents (round w) = toVoteEvent <$> snap_events snapshot
  /\ lockedRole (session w) = Some (snap_lockedRole snapshot)
  /\ sessionId (session w) = snap_sessionId snapshot.
Proof.
  unfold persistSnapshot, buildSnapshotFromState. intros Hp.
  repeat case_match; simplify_eq; cbn.
  repeat split; try congruence.
  rewrite <- list_fmap_compose. symmetry.
  rewrite <- (list_fmap_id (voteEvents (round w))) at 2.
  apply list_fmap_ext. by intros _ [] _.
Qed.






(** The start of another round puts the versions back: after three
    persists of round [r1] the counter holds 3, and the persists of the
    round [r2] that a [start] then begins return 1 and 2. *)
Example start_restarts_versions :
  let w := (persistAll [at_ms 101000; at_ms 102000; at_ms 103000]
              guestRunning).2 in
  let w' := step (onmessage (start "r2" (Fin 400) (Some redBlue)))
              (at_ms 150000) w in
  snapshotVersionRef (refs w) = 3
  /\ versions (persistAll [at_ms 151000; at_ms 152000] w').1
     = [Some 1; Some 2].
Proof. cbv zeta. split; vm_compute; reflexivity. Qed.


(** ** The history index *)

Section Array_sort_facts.
Context {A : Type} (cmp : A -> A -> Z) (R : relation A).
Context `{!Transitive R, !Total R}.
Hypothesis cmp_R : forall a b, cmp a b <= 0 <-> R a b.

Lemma sort_insert_Permutation x l : sort_insert cmp x l ≡ₚ x :: l.
Proof.
  induction l as [|y l IH]; [done|]. simpl. case_decide; [done|].
  by rewrite IH, Permutation_swap.
Qed.

Lemma Array_sort_Permutation l : Array_sort cmp l ≡ₚ l.
Proof.
  induction l as [|x l IH]; [done|]. simpl.
  by rewrite sort_insert_Permutation, IH.
Qed.

Lemma sort_insert_sorted x l :
  StronglySorted R l -> StronglySorted R (sort_insert cmp x l).
Proof.
  induction l as [|y l IH]; intros Hl; simpl.
  - repeat constructor.
  - apply StronglySorted_cons in Hl as [Hy Hl]. case_decide as Hxy.
    + apply cmp_R in Hxy. apply StronglySorted_cons. split.
      * constructor; [done|].
        eapply Forall_impl; [exact Hy|]. intros z Hyz. by trans y.
      * by apply StronglySorted_cons.
    + apply StronglySorted_cons. split; [|by apply IH].
      rewrite sort_insert_Permutation. constructor; [|done].
      destruct (total R x y) as [Hx|Hx]; [|done].
      by apply cmp_R in Hx.
Qed.

Lemma Array_sort_sorted l : StronglySorted R (Array_sort cmp l).
Proof.
  induction l as [|x l IH]; simpl; [constructor|].
  by apply sort_insert_sorted.
Qed.
End Array_sort_facts.

#[local] Instance newerFirst_trans : Transitive newerFirst.
Proof. unfold newerFirst. intros a b c ??. lia. Qed.

#[local] Instance newerFirst_total : Total newerFirst.
Proof. unfold newerFirst. intros a b. lia. Qed.

Lemma compareHistory_newerFirst a b : compareHistory a b <= 0 <-> newerFirst a b.
Proof. unfold compareHistory, newerFirst. case_decide; lia. Qed.

Lemma findIndex_Some id l i :
  findIndex id l = Some i ->
  exists x, l !! i = Some x /\ hist_gameId x = id.
Proof.
  unfold findIndex. intros Hfind.
  apply fmap_Some in Hfind as ([j x] & Hfind & ->).
  apply list_find_Some in Hfind as (Hlook & Hid & _). eauto.
Qed.

Lemma findIndex_None id l : findIndex id l = None -> id ∉ gameIds l.
Proof.
  unfold findIndex, gameIds. intros Hfind.
  apply fmap_None, list_find_None in Hfind.
  intros (x & -> & Hx)%list_elem_of_fmap.
  by apply (proj1 (Forall_forall _ _) Hfind x).
Qed.

Lemma upsertEntry_ok entry prev : historyOk prev -> historyOk (upsertEntry entry prev).
Proof.
  intros [_ Hdup]. unfold upsertEntry, historyOk. split.
  - apply (Array_sort_sorted compareHistory newerFirst compareHistory_newerFirst).
  - unfold gameIds.
    rewrite (Array_sort_Permutation compareHistory).
    destruct (findIndex (hist_gameId entry) prev) as [i|] eqn:Hfind.
    + apply findIndex_Some in Hfind as (x & Hlook & Hid).
      rewrite list_fmap_insert, list_insert_id; [done|].
      by rewrite list_lookup_fmap, Hlook, <- Hid.
    + apply findIndex_None in Hfind.
      rewrite fmap_app. apply NoDup_app. split; [done|]. split.
      * intros id Hin ->%list_elem_of_singleton. done.
      * apply NoDup_singleton.
Qed.

Lemma StronglySorted_filter {A} (R : relation A) (P : A -> Prop)
    `{!forall x, Decision (P x)} (l : list A) :
  StronglySorted R l -> StronglySorted R (filter P l).
Proof.
  induction 1 as [|x l Hl IH Hx]; [constructor|].
  rewrite filter_cons. case_decide; [|done].
  constructor; [done|].
  apply Forall_forall. intros y [_ Hy]%list_elem_of_filter.
  by apply (proj1 (Forall_forall _ _) Hx).
Qed.

Lemma removeEntry_ok gameId prev : historyOk prev -> historyOk (removeEntry gameId prev).
Proof.
  intros [Hsorted Hdup]. unfold removeEntry, historyOk. split.
  - by apply StronglySorted_filter.
  - eapply sublist_NoDup; [exact Hdup|].
    unfold gameIds. apply fmap_sublist, sublist_filter.
Qed.

Lemma applyHistoryOp_ok op e w :
  historyOk (historyIndex (view w)) ->
  historyOk (historyIndex (view (applyHistoryOp op e w))).
Proof.
  intros Hok. destruct op as [snapshot|gameId]; simpl.
  - unfold upsertHistoryIndex. case_decide; [done|].
    cbn. by apply upsertEntry_ok.
  - unfold handleDeleteHistoryGame.
    case_decide; cbn; by apply removeEntry_ok.
Qed.

(** C9: whatever upserts and removals are applied, in whatever order and
    whether or not the store takes the writes, the history index stays
    sorted by end time descending, ties by [lastUpdatedAt] descending, and
    holds each round id at most once; so it is after any such sequence
    that begins with the empty index of a fresh component. *)
Theorem history_index_sorted_unique ops :
  (forall w,
      historyOk (historyIndex (view w)) ->
      historyOk (historyIndex (view (runHistory ops w))))
  /\ historyOk (historyIndex (view (runHistory ops initialWorld))).
Proof.
  assert (forall w, historyOk (historyIndex (view w)) ->
                    historyOk (historyIndex (view (runHistory ops w)))) as Hall.
  { induction ops as [|[op e] ops IH]; intros w Hok; [done|].
    simpl. by apply IH, applyHistoryOp_ok. }
  split; [exact Hall|].
  apply Hall. split; constructor.
Qed.

Example history_index_example :
  gameIds (historyIndex (view (runHistory
    [ (history_upsert (endedSnapshot "r1" 200 5), at_ms 1);
      (history_upsert (endedSnapshot "r2" 300 6), storeless 2);
      (history_upsert (endedSnapshot "r3" 200 7), at_ms 3);
      (history_upsert (endedSnapshot "r1" 400 8), at_ms 4);
      (history_remove "r2", at_ms 5) ] initialWorld)))
  = ["r1"; "r3"].
Proof. reflexivity. Qed.

Lemma history_index_sorted_unique_witness :
  let w := runHistory [ (history_upsert (endedSnapshot "r1" 200 5), at_ms 1);
                        (history_upsert (endedSnapshot "r2" 300 6), at_ms 2) ]
             initialWorld in
  historyOk (historyIndex (view w))
  /\ historyOk (historyIndex (view (runHistory
       [ (history_upsert (endedSnapshot "r1" 400 8), at_ms 4);
         (history_remove "r2", at_ms 5) ] w))).
Proof.
  intros w.
  assert (Hw : historyOk (historyIndex (view w))).
  { split.
    - repeat constructor; vm_compute; left; reflexivity.
    - vm_compute. apply NoDup_cons. split; [|apply NoDup_singleton].
      intros Hin%list_elem_of_singleton. discriminate. }
  split; [exact Hw|].
  destruct (history_index_sorted_unique
              [ (history_upsert (endedSnapshot "r1" 400 8), at_ms 4);
                (history_remove "r2", at_ms 5) ]) as [Hkeep _].
  exact (Hkeep w Hw).
Defined.

(** ** The state of a round only moves forward *)

Lemma flushEffects_round w : round (flushEffects w) = round w.
Proof. unfold flushEffects. by case_match. Qed.

(** C4 (as amended): for every state and every handled event other than
    the adoption of a snapshot (a received [stateSnapshot], the resume
    effect) and a start that carries the current round id again, if the
    round id is the same before and after, the state of the round is
    unchanged or has become [ended]; so it never moves backward, and an
    ended round stays ended. *)
Theorem round_state_moves_forward ev e w rid :
  adoptsSnapshot ev = false ->
  restarts rid ev = false ->
  currentRoundId (round w) = Some rid ->
  currentRoundId (round (step ev e w)) = Some rid ->
  (gameState (round (step ev e w)) = gameState (round w)
   \/ gameState (round (step ev e w)) = ended)
  /\ (gameState (round w) = ended -> gameState (round (step ev e w)) = ended).
Proof.
  intros Hadopt Hrestart Hrid Hrid'.
  assert (gameState (round (step ev e w)) = gameState (round w)
          \/ gameState (round (step ev e w)) = ended) as Hforward.
  { revert Hrid'. unfold step. rewrite !flushEffects_round.
    each_branch ev; auto; try discriminate; try (intros; congruence).
    all: apply bool_decide_eq_false in Hrestart; intros [= ?]; congruence. }
  split; [exact Hforward|]. intros Hended.
  destruct Hforward as [-> | ->]; done.
Qed.

Lemma round_state_moves_forward_witness :
  gameState (round guestRunning) = running
  /\ gameState (round (step (onmessage (acceptEndNow "r1")) (at_ms 150000)
                         guestRunning)) = ended
  /\ gameState (round (step (onmessage (vote "r1" blue 60)) (at_ms 260000)
                         guestEnded)) = ended.
Proof.
  split; [reflexivity|]. split.
  - destruct (round_state_moves_forward (onmessage (acceptEndNow "r1"))
                (at_ms 150000) guestRunning "r1") as [[Hsame|Hended] _];
      [reflexivity | reflexivity | reflexivity | reflexivity | | exact Hended].
    vm_compute in Hsame. discriminate.
  - destruct (round_state_moves_forward (onmessage (vote "r1" blue 60))
                (at_ms 260000) guestEnded "r1") as [_ Hstays];
      [reflexivity | reflexivity | reflexivity | reflexivity |].
    apply Hstays. reflexivity.
Defined.

(** C4, counterexample: the guest's round [r1] has ended (its timer ran
    out at second 200); the host, whose copy is still running, pushes its
    snapshot of [r1]; the guest adopts it and its round [r1] is running
    again, under the same round id. *)
Lemma snapshot_revives_ended_round :
  let w' := step (onmessage (stateSnapshot "r1" (hostSnapshot "r1" running)))
              (at_ms 201000) guestEnded in
  gameState (round guestEnded) = ended
  /\ currentRoundId (round guestEnded) = Some "r1"
  /\ currentRoundId (round w') = Some "r1"
  /\ gameState (round w') = running.
Proof. cbv zeta. repeat split. Qed.

(** ** End time after start time *)

Lemma step_timingOk ev e w :
  timingOk w -> keepsTiming ev e w -> timingOk (step ev e w).
Proof.
  unfold timingOk, step. rewrite !flushEffects_round.
  intros Hok Hkeep.
  each_branch ev; try done.
  all: intros startSec endSec Hstart Hend; simplify_eq;
    first [ lia
          | by eapply Hok
          | by (eapply Hkeep; eauto)
          | match goal with
            | H : snapshotToResume _ _ = Some _ |- _ => apply Hkeep in H; lia
            end ].
Qed.

(** C5 (as amended): [endTime > startTime] holds for a round from the
    moment it is started and is preserved by every event, where a received
    or locally accepted end-time change must propose an end after the start
    time, an accepted immediate end must come in a later second than the
    start, and an adopted snapshot must itself have its end after its
    start; the code checks none of the three. *)
Theorem end_after_start_preserved :
  (forall ev e w, timingOk w -> keepsTiming ev e w -> timingOk (step ev e w))
  /\ (forall evs, allKeepTiming evs initialWorld -> timingOk (run evs initialWorld)).
Proof.
  split; [exact step_timingOk|].
  assert (forall evs w, timingOk w -> allKeepTiming evs w -> timingOk (run evs w))
    as Hrun.
  { induction evs as [|[ev e] evs IH]; intros w Hok Hall; [done|].
    destruct Hall as [Hkeep Hall]. simpl.
    apply IH; [by apply step_timingOk | done]. }
  intros evs. apply Hrun. by intros ??.
Qed.

Lemma end_after_start_preserved_witness :
  timingOk guestRunning
  /\ timingOk (step (onmessage (acceptEndChange "r1" 300)) (at_ms 150000)
                 guestRunning)
  /\ timingOk (step (onmessage (acceptEndNow "r1")) (at_ms 150000) guestRunning).
Proof.
  destruct end_after_start_preserved as [Hstep Hrun].
  assert (Hguest : timingOk guestRunning).
  { apply (Hrun [ (click_create_answer answer_created, at_ms 1000);
                  (on_datachannel open, at_ms 2000);
                  (on_channel_open, at_ms 2000);
                  (onmessage (assignRoles "s1" red blue), at_ms 3000);
                  (onmessage (start "r1" (Fin 200) (Some redBlue)),
                   at_ms 100000) ]).
    simpl. tauto. }
  split; [exact Hguest|]. split.
  - apply Hstep; [exact Hguest|].
    intros startSec Hstart. vm_compute in Hstart. injection Hstart as <-. lia.
  - apply Hstep; [exact Hguest|].
    intros startSec Hstart. vm_compute in Hstart. injection Hstart as <-.
    vm_compute. reflexivity.
Defined.

(** C5, counterexample: round [r1] began at second 100 and is to end at
    200; an immediate end accepted within second 100 sets the end time to
    100, and an accepted end-time change to second 50 sets it to 50: both
    leave a round whose end time is not after its start time. *)
Lemma accepted_end_breaks_timing :
  let ended_at_once :=
    step (onmessage (acceptEndNow "r1")) (at_ms 100900) guestRunning in
  let moved_back :=
    step (onmessage (acceptEndChange "r1" 50)) (at_ms 150000) guestRunning in
  timingOk guestRunning
  /\ gameState (round ended_at_once) = ended
  /\ startTimeSec (round ended_at_once) = Some 100
  /\ endTimeSec (round ended_at_once) = Some 100
  /\ ~ timingOk ended_at_once
  /\ gameState (round moved_back) = running
  /\ endTimeSec (round moved_back) = Some 50
  /\ ~ timingOk moved_back.
Proof.
  cbv zeta. split.
  { intros s en Hs Hen. vm_compute in Hs, Hen. simplify_eq. lia. }
  do 3 (split; [reflexivity|]). split.
  { intros Hok. specialize (Hok 100 100 eq_refl eq_refl). lia. }
  do 2 (split; [reflexivity|]).
  intros Hok. specialize (Hok 100 50 eq_refl eq_refl). lia.
Qed.

(** ** The retries of [assignRoles] *)


Lemma flushEffects_sent w : sent (flushEffects w) = sent w.
Proof. unfold flushEffects. by case_match. Qed.
Lemma flushEffects_retry w :
  assignRolesRetryTimerRef (refs (flushEffects w)) = assignRolesRetryTimerRef (refs w)
  /\ assignRolesRetryCountRef (refs (flushEffects w)) = assignRolesRetryCountRef (refs w).
Proof. unfold flushEffects. by case_match. Qed.











Lemma ack_stops_retry sid myRole e w :
  sessionIdRef (refs w) = Some sid ->
  sid <> "" ->
  let w' := step (onmessage (assignRolesAck sid myRole)) e w in
  pending w' = false /\ rolesConfirmedRef (refs w') = true.
Proof.
  intros Hsid Hne. unfold step, pending.
  destruct (flushEffects_retry (handle (onmessage (assignRolesAck sid myRole)) e w))
    as [-> _].
  cbn [handle handleIncomingMessage]. rewrite Hsid. simpl.
  rewrite (bool_decide_eq_true_2 (sid ≠ "")) by done.
  rewrite (bool_decide_eq_false_2 (Some sid ≠ Some sid)) by tauto.
  simpl. split; [done|]. unfold flushEffects. by case_match.
Qed.





Example retry_runs_out :
  sent (run [ (assign_roles_effect "s1", at_ms 3000);
              (retry_timeout "s2", at_ms 5000);
              (retry_timeout "s3", at_ms 7000);
              (retry_timeout "s4", at_ms 9000);
              (assign_roles_effect "s5", at_ms 9500) ] hostReady)
  = replicate 3 (assignRoles "s1" red blue).
Proof. reflexivity. Qed.

Example retry_stopped_by_ack :
  sent (run [ (assign_roles_effect "s1", at_ms 3000);
              (retry_timeout "s2", at_ms 5000);
              (onmessage (assignRolesAck "s1" blue), at_ms 5500);
              (retry_timeout "s3", at_ms 7000) ] hostReady)
  = replicate 2 (assignRoles "s1" red blue).
Proof. reflexivity. Qed.

Example retry_stopped_by_close :
  sent (run [ (assign_roles_effect "s1", at_ms 3000);
              (on_ready_state closed, at_ms 4000);
              (retry_timeout "s2", at_ms 5000);
              (on_ready_state open, at_ms 6000);
              (retry_timeout "s3", at_ms 7000) ] hostReady)
  = [assignRoles "s1" red blue].
Proof. reflexivity. Qed.



(** ** The scenarios of the specification *)

(** The guest ends up with the role the host left to it, and the host's
    [start] leaves its round running with the time to the end remaining. *)
Example scenario_roles_and_start :
  lockedRole (session guestReady) = Some blue
  /\ rolesConfirmed (session hostRunning) = true
  /\ gameState (round guestRunning) = running
  /\ timeRemaining (round guestRunning) = 100
  /\ sent hostRunning
     = [ assignRoles "s1" blue red;
         start "r1" (Fin 700) (Some {| hostRole := blue; guestRole := red |}) ].
Proof. repeat split. Qed.

(** A vote for blue reaches a host locked as blue. *)
Example scenario_vote_counts :
  let w := step (onmessage (vote "r1" blue 12)) (at_ms 112000) hostRunning in
  scores (round w) = {| score_red := 0; score_blue := 1 |}
  /\ voteEvents (round w) = [ {| target := blue; elapsed := 12 |} ].
Proof. split; reflexivity. Qed.

(** A vote for red reaches a host locked as blue. *)
Example scenario_vote_rejected :
  let w := step (onmessage (vote "r1" red 12)) (at_ms 112000) hostRunning in
  scores (round w) = noScores
  /\ voteEvents (round w) = []
  /\ voteIgnoreMessage (notices w) = Some txt_role_misassigned_retry
  /\ console w = [ warn_vote_target blue red ].
Proof. repeat split. Qed.

(** A proposal for another round than the current one. *)
Example scenario_foreign_proposal :
  step (onmessage (proposeEndChange "r0" 900)) (at_ms 112000) hostRunning
  = hostRunning.
Proof. reflexivity. Qed.

(** The host's snapshot replaces the guest's round, local votes included. *)
Example scenario_snapshot_replaces_votes :
  let voted :=
    run [ (click_vote, at_ms 110000); (click_vote, at_ms 120000) ] guestRunning in
  let w := step (onmessage (stateSnapshot "r1" (hostSnapshot "r1" running)))
             (at_ms 150000) voted in
  scores (round voted) = {| score_red := 2; score_blue := 0 |}
  /\ scores (round w) = {| score_red := 0; score_blue := 2 |}
  /\ voteEvents (round w)
     = [ {| target := blue; elapsed := 10 |}; {| target := blue; elapsed := 20 |} ].
Proof. repeat split. Qed.

(** * Further properties *)

Lemma foreignRound_other rid w :
  currentRoundIdRef (refs w) <> Some rid \/ rid = "" ->
  foreignRound rid w = true.
Proof.
  unfold foreignRound. intros [Hne | ->].
  - rewrite (bool_decide_eq_true_2 (Some rid ≠ currentRoundIdRef (refs w)))
      by congruence.
    apply orb_true_r.
  - destruct (currentRoundIdRef (refs w)) as [s|] eqn:Href; simpl; [|done].
    case_bool_decide as Hs; simpl; [|done].
    apply bool_decide_eq_true_2. congruence.
Qed.

(** X1: a received message that names a round (a vote, or the proposal,
    acceptance or rejection of a new end time or of an immediate end) is
    ignored when the round it names is not the current one, or is the empty
    id: the handler returns the very same world. *)
Theorem foreign_round_message_ignored m rid e w :
  namesRound m = Some rid ->
  currentRoundIdRef (refs w) <> Some rid \/ rid = "" ->
  handleIncomingMessage m e w = w.
Proof.
  intros Hname Hforeign. apply foreignRound_other in Hforeign.
  destruct m; simplify_eq/=; by rewrite Hforeign.
Qed.

Lemma foreign_round_message_ignored_witness :
  handleIncomingMessage (acceptEndNow "r0") (at_ms 150000) guestRunning
  = guestRunning
  /\ handleIncomingMessage (proposeEndChange "" 900) (at_ms 150000) guestReady
     = guestReady.
Proof.
  split.
  - apply (foreign_round_message_ignored _ "r0"); [reflexivity|].
    left. vm_compute. discriminate.
  - apply (foreign_round_message_ignored _ ""); [reflexivity|].
    right. reflexivity.
Defined.

Lemma channelOpen_true w :
  channelOpen w = true -> dataChannelRef (refs w) = Some open.
Proof. unfold channelOpen. by intros ?%bool_decide_eq_true. Qed.

Lemma sendMessage_open msg e w :
  channelOpen w = true -> sendOk e = true ->
  sendMessage msg e w = with_sent (fun l => l ++ [msg]) w.
Proof. unfold sendMessage. by intros -> ->. Qed.

Lemma sendMessage_closed msg e w :
  channelOpen w = false ->
  sendMessage msg e w = setError (Some txt_channel_not_ready) w.
Proof. unfold sendMessage. by intros ->. Qed.

Lemma assignRolesEffect_first fresh r e h :
  hostCanAssign r h -> sendOk e = true ->
  let h1 := step (assign_roles_effect fresh) e h in
  sent h1 = sent h ++ [assignRoles fresh r (other r)]
  /\ sessionIdRef (refs h1) = Some fresh
  /\ sessionId (session h1) = Some fresh
  /\ lockedRole (session h1) = Some r
  /\ sessionRoles (session h1) = Some {| hostRole := r; guestRole := other r |}
  /\ pending h1 = true /\ retries h1 = 1
  /\ rolesConfirmed (session h1) = false.
Proof.
  intros ([Hconn Hopen] & Hmode & Hrole & Href & Hcount & Hsid) Hsend.
  unfold step, pending, retries. cbn [handle].
  unfold assignRolesEffect, sendAssignRolesOnce, currentLockedRole.
  rewrite Hconn, Hmode, Hrole, Href, Hcount, Hsid, Hopen, Hsend. simpl.
  unfold flushEffects. simpl. by case_match.
Qed.

(** X2: the hand-shake of the roles.  A connected host that holds role
    [r] and has no session yet sends [assignRoles] with a fresh session id
    and the two roles; a guest that receives it takes the other role, keeps
    the session and answers [assignRolesAck]; once the host receives that
    answer both hold complementary roles, the same session id and the same
    session roles, the host has the roles confirmed and no retry pending. *)
Theorem roles_handshake fresh r eh eg ea h g :
  hostCanAssign r h -> sendOk eh = true -> fresh <> "" ->
  connectionModeRef (refs g) = answer -> channelOpen g = true ->
  sendOk eg = true ->
  let h1 := step (assign_roles_effect fresh) eh h in
  let g1 := step (onmessage (assignRoles fresh r (other r))) eg g in
  let h2 := step (onmessage (assignRolesAck fresh (other r))) ea h1 in
  sent h1 = sent h ++ [assignRoles fresh r (other r)]
  /\ sent g1 = sent g ++ [assignRolesAck fresh (other r)]
  /\ lockedRole (session h2) = Some r
  /\ lockedRole (session g1) = Some (other r)
  /\ sessionId (session h2) = Some fresh
  /\ sessionId (session g1) = Some fresh
  /\ sessionRoles (session g1) = sessionRoles (session h2)
  /\ rolesConfirmed (session h2) = true
  /\ pending h2 = false.
Proof.
  intros Hhost Hsend Hfresh Hmode Hopen Hsendg h1 g1 h2.
  destruct (assignRolesEffect_first fresh r eh h Hhost Hsend)
    as (Hsent & Hsidref & Hsid & Hrole & Hroles & _ & _ & _).
  fold h1 in Hsent, Hsidref, Hsid, Hrole, Hroles.
  destruct (ack_stops_retry fresh (other r) ea h1 Hsidref Hfresh)
    as [Hquiet _]. fold h2 in Hquiet.
  assert (Hh2 : session h2
                = session (setRolesConfirmed true h1)
                /\ True).
  { split; [|done]. subst h2. unfold step. cbn [handle handleIncomingMessage].
    rewrite Hsidref. simpl.
    rewrite (bool_decide_eq_true_2 (fresh ≠ "")) by done.
    rewrite (bool_decide_eq_false_2 (Some fresh ≠ Some fresh)) by tauto.
    simpl. unfold flushEffects. by case_match. }
  destruct Hh2 as [Hh2 _].
  assert (Hg1 : sent g1 = sent g ++ [assignRolesAck fresh (other r)]
                /\ session g1
                   = {| lockedRole := Some (other r); roleLocked := true;
                        sessionId := Some fresh;
                        sessionRoles :=
                          Some {| hostRole := r; guestRole := other r |};
                        rolesConfirmed := rolesConfirmed (session g) |}).
  { subst g1. unfold step. cbn [handle handleIncomingMessage].
    rewrite Hmode. cbn -[sendMessage flushEffects].
    destruct (lockedRole (session g)) as [prev|]; [case_decide|];
      (rewrite sendMessage_open; [|exact Hopen|exact Hsendg]);
      unfold flushEffects; simpl; split; by repeat case_match. }
  destruct Hg1 as [Hg1s Hg1].
  rewrite Hh2, Hg1. simpl. rewrite Hrole, Hsid, Hroles.
  repeat split; done.
Qed.

Lemma roles_handshake_witness :
  let h1 := step (assign_roles_effect "s9") (at_ms 3000) hostReady in
  let g1 := step (onmessage (assignRoles "s9" red blue)) (at_ms 3200) guestJoined in
  let h2 := step (onmessage (assignRolesAck "s9" blue)) (at_ms 3400) h1 in
  sent g1 = sent guestJoined ++ [assignRolesAck "s9" blue]
  /\ lockedRole (session g1) = Some blue
  /\ rolesConfirmed (session h2) = true.
Proof.
  destruct (roles_handshake "s9" red (at_ms 3000) (at_ms 3200) (at_ms 3400)
              hostReady guestJoined)
    as (_ & Hack & _ & Hrole & _ & _ & _ & Hconf & _).
  - repeat split; reflexivity.
  - reflexivity.
  - discriminate.
  - reflexivity.
  - reflexivity.
  - reflexivity.
  - repeat split; assumption.
Defined.

Lemma inRound_truthy rid w :
  inRound rid w ->
  truthy_str (currentRoundId (round w)) = true
  /\ foreignRound rid w = false.
Proof.
  intros (Hne & Hcur & Href). split.
  - rewrite Hcur. simpl. by apply bool_decide_eq_true_2.
  - by apply foreignRound_current.
Qed.

Lemma step_round ev e w : round (step ev e w) = round (handle ev e w).
Proof. apply flushEffects_round. Qed.

Lemma flushEffects_roundRef w :
  currentRoundIdRef (refs (flushEffects w)) = currentRoundId (round w).
Proof. unfold flushEffects. by case_match. Qed.

Lemma step_roundRef ev e w :
  currentRoundIdRef (refs (step ev e w)) = currentRoundId (round (step ev e w)).
Proof. unfold step. by rewrite flushEffects_roundRef, flushEffects_round. Qed.

Lemma flushEffects_nego w : nego (flushEffects w) = nego w.
Proof. unfold flushEffects. by case_match. Qed.

Lemma propose_end_change_sends rid p e a :
  canNegotiate rid a -> sendOk e = true -> p <> 0 -> nowSec e < p ->
  let a1 := step (click_propose_end_change (Some p)) e a in
  sent a1 = sent a ++ [proposeEndChange rid p] /\ round a1 = round a.
Proof.
  intros ([Hconn Hopen] & Hin & Hrun & Hview) Hsend Hp Hlt.
  destruct (inRound_truthy rid a Hin) as [Htruthy _].
  destruct Hin as (_ & Hcur & _).
  unfold step. rewrite flushEffects_sent, flushEffects_round.
  cbn [handle]. unfold handleProposeEndChange.
  rewrite Hview, Hconn, Hcur. rewrite Hcur in Htruthy.
  rewrite Hrun, Htruthy. simpl.
  rewrite (bool_decide_eq_true_2 (p ≠ 0)) by done. simpl.
  case_decide; [lia|].
  by rewrite sendMessage_open.
Qed.

Lemma accept_end_change_applies rid p e w :
  incomingEndChange (nego w) = Some p ->
  currentRoundId (round w) = Some rid -> rid <> "" ->
  channelOpen w = true -> sendOk e = true ->
  let w' := step click_accept_end_change e w in
  sent w' = sent w ++ [acceptEndChange rid p]
  /\ incomingEndChange (nego w') = None
  /\ endTimeSec (round w') = Some p.
Proof.
  intros Hin Hcur Hne Hopen Hsend. unfold step.
  rewrite flushEffects_sent, flushEffects_nego, flushEffects_round.
  cbn [handle]. unfold handleAcceptIncomingEndChange.
  rewrite Hin, Hcur. simpl.
  rewrite (bool_decide_eq_true_2 (rid ≠ "")) by done. simpl.
  by rewrite sendMessage_open.
Qed.

(** X3: agreeing on a new end time.  A peer in a running round proposes
    an end time [p] in the future, which changes nothing of its own
    round; the other peer, in the same round, receives the proposal, which
    changes nothing of its round either, and accepts it; the acceptance
    reaches the proposer.  Both then have [p] as the end time, and the
    accepting peer has no proposal pending. *)
Theorem end_change_agreed rid p ea eb eb' ea' a b :
  canNegotiate rid a -> sendOk ea = true -> p <> 0 -> nowSec ea < p ->
  inRound rid b -> channelOpen b = true -> sendOk eb' = true ->
  let a1 := step (click_propose_end_change (Some p)) ea a in
  let b1 := step (onmessage (proposeEndChange rid p)) eb b in
  let b2 := step click_accept_end_change eb' b1 in
  let a2 := step (onmessage (acceptEndChange rid p)) ea' a1 in
  sent a1 = sent a ++ [proposeEndChange rid p]
  /\ round a1 = round a
  /\ incomingEndChange (nego b1) = Some p
  /\ round b1 = round b
  /\ sent b2 = sent b ++ [acceptEndChange rid p]
  /\ incomingEndChange (nego b2) = None
  /\ endTimeSec (round a2) = Some p
  /\ endTimeSec (round b2) = Some p.
Proof.
  intros Ha Hsa Hp Hlt Hb Hopen Hsb a1 b1 b2 a2.
  destruct (propose_end_change_sends rid p ea a Ha Hsa Hp Hlt) as [Hs1 Hr1].
  fold a1 in Hs1, Hr1.
  destruct (inRound_truthy rid b Hb) as [Htb Hfb].
  destruct Ha as (_ & Hina & _).
  destruct (inRound_truthy rid a Hina) as [_ Hfa].
  assert (Hb1 : b1 = flushEffects (setIncomingEndChange (Some p) b)).
  { subst b1. unfold step. cbn [handle handleIncomingMessage]. by rewrite Hfb. }
  assert (Hfa1 : foreignRound rid a1 = false).
  { destruct Hina as (Hne & Hcur & _). apply foreignRound_current; [|done].
    rewrite <- Hcur, <- Hr1. apply step_roundRef. }
  do 2 (split; [done|]).
  split; [by rewrite Hb1, flushEffects_nego|].
  split; [by rewrite Hb1, flushEffects_round|].
  assert (Hb2 : sent b2 = sent b1 ++ [acceptEndChange rid p]
                /\ incomingEndChange (nego b2) = None
                /\ endTimeSec (round b2) = Some p).
  { apply accept_end_change_applies.
    - by rewrite Hb1, flushEffects_nego.
    - rewrite Hb1, flushEffects_round. by destruct Hb as (_ & ? & _).
    - by destruct Hb.
    - rewrite Hb1. unfold channelOpen, flushEffects in *. by case_match.
    - done. }
  assert (sent b1 = sent b) as Hsb1 by (by rewrite Hb1, flushEffects_sent).
  rewrite Hsb1 in Hb2.
  destruct Hb2 as (? & ? & ?).
  do 2 (split; [done|]). split; [|done].
  subst a2. unfold step. rewrite flushEffects_round.
  cbn [handle handleIncomingMessage]. by rewrite Hfa1.
Qed.

Lemma end_change_agreed_witness :
  let a1 := step (click_propose_end_change (Some 300)) (at_ms 150000)
              redHostRunning in
  let b1 := step (onmessage (proposeEndChange "r1" 300)) (at_ms 150200)
              guestRunning in
  let b2 := step click_accept_end_change (at_ms 151000) b1 in
  let a2 := step (onmessage (acceptEndChange "r1" 300)) (at_ms 151200) a1 in
  endTimeSec (round a2) = Some 300 /\ endTimeSec (round b2) = Some 300.
Proof.
  destruct (end_change_agreed "r1" 300 (at_ms 150000) (at_ms 150200)
              (at_ms 151000) (at_ms 151200) redHostRunning guestRunning)
    as (_ & _ & _ & _ & _ & _ & Ha & Hb).
  - repeat split; (reflexivity || discriminate).
  - reflexivity.
  - discriminate.
  - reflexivity.
  - repeat split; (reflexivity || discriminate).
  - reflexivity.
  - reflexivity.
  - split; assumption.
Defined.

Lemma flushEffects_timer_off w :
  gameState (round w) <> running -> timerRef (refs (flushEffects w)) = false.
Proof.
  intros Hstate. unfold flushEffects.
  rewrite (bool_decide_eq_true_2 (gameState (round w) ≠ running)) by done.
  by rewrite orb_true_r.
Qed.

Lemma propose_end_now_sends rid e a :
  canNegotiate rid a -> sendOk e = true ->
  let a1 := step click_propose_end_now e a in
  sent a1 = sent a ++ [proposeEndNow rid] /\ round a1 = round a.
Proof.
  intros ([Hconn Hopen] & Hin & Hrun & Hview) Hsend.
  destruct (inRound_truthy rid a Hin) as [Htruthy _].
  destruct Hin as (_ & Hcur & _).
  unfold step. rewrite flushEffects_sent, flushEffects_round.
  cbn [handle]. unfold handleProposeEndNow.
  rewrite Hview, Hconn, Hcur. rewrite Hcur in Htruthy.
  rewrite Hrun, Htruthy. simpl.
  by rewrite sendMessage_open.
Qed.

Lemma received_in_round rid w (f : World -> World) m e :
  inRound rid w ->
  (foreignRound rid w = false -> handleIncomingMessage m e w = f w) ->
  step (onmessage m) e w = flushEffects (f w).
Proof.
  intros Hin Hf. destruct (inRound_truthy rid w Hin) as [_ Hforeign].
  unfold step. cbn [handle]. by rewrite Hf.
Qed.

Lemma accept_end_now_applies rid e w :
  currentRoundId (round w) = Some rid -> rid <> "" ->
  channelOpen w = true -> sendOk e = true ->
  let w' := step click_accept_end_now e w in
  sent w' = sent w ++ [acceptEndNow rid]
  /\ gameState (round w') = ended
  /\ endTimeSec (round w') = Some (nowSec e)
  /\ timeRemaining (round w') = 0
  /\ timerRef (refs w') = false.
Proof.
  intros Hcur Hne Hopen Hsend. unfold step.
  rewrite flushEffects_sent, flushEffects_round.
  cbn [handle]. unfold handleAcceptIncomingEndNow.
  rewrite Hcur. simpl.
  rewrite (bool_decide_eq_true_2 (rid ≠ "")) by done. simpl.
  rewrite sendMessage_open by done.
  repeat split. by apply flushEffects_timer_off.
Qed.

Lemma inRound_step rid ev e w :
  inRound rid w -> round (step ev e w) = round w -> inRound rid (step ev e w).
Proof.
  intros (Hne & Hcur & _) Hround. split; [done|].
  rewrite step_roundRef, Hround. done.
Qed.

(** X4: agreeing on an immediate end.  A peer in a running round proposes
    to end now; the other peer, in the same round, accepts; the acceptance
    reaches the proposer.  Both rounds are then ended with no round timer
    left, and each peer's end time is the second at which it applied the
    end, on its own clock: the two end times need not be equal. *)
Theorem end_now_agreed rid ea eb eb' ea' a b :
  canNegotiate rid a -> sendOk ea = true ->
  inRound rid b -> channelOpen b = true -> sendOk eb' = true ->
  let a1 := step click_propose_end_now ea a in
  let b1 := step (onmessage (proposeEndNow rid)) eb b in
  let b2 := step click_accept_end_now eb' b1 in
  let a2 := step (onmessage (acceptEndNow rid)) ea' a1 in
  sent a1 = sent a ++ [proposeEndNow rid]
  /\ incomingEndNow (nego b1) = true
  /\ sent b2 = sent b ++ [acceptEndNow rid]
  /\ gameState (round a2) = ended /\ gameState (round b2) = ended
  /\ endTimeSec (round a2) = Some (nowSec ea')
  /\ endTimeSec (round b2) = Some (nowSec eb')
  /\ timerRef (refs a2) = false /\ timerRef (refs b2) = false.
Proof.
  intros Ha Hsa Hb Hopen Hsb a1 b1 b2 a2.
  destruct (propose_end_now_sends rid ea a Ha Hsa) as [Hs1 Hr1].
  fold a1 in Hs1, Hr1.
  destruct Ha as (_ & Hina & _).
  assert (Hb1 : b1 = flushEffects (setIncomingEndNow true b)).
  { apply (received_in_round rid b (setIncomingEndNow true)); [done|].
    simpl. by intros ->. }
  assert (Hb2 : sent b2 = sent b1 ++ [acceptEndNow rid]
                /\ gameState (round b2) = ended
                /\ endTimeSec (round b2) = Some (nowSec eb')
                /\ timeRemaining (round b2) = 0
                /\ timerRef (refs b2) = false).
  { apply accept_end_now_applies.
    - rewrite Hb1, flushEffects_round. by destruct Hb as (_ & ? & _).
    - by destruct Hb.
    - rewrite Hb1. unfold channelOpen, flushEffects in *. by case_match.
    - done. }
  assert (sent b1 = sent b) as Hsb1 by (by rewrite Hb1, flushEffects_sent).
  rewrite Hsb1 in Hb2. destruct Hb2 as (? & ? & ? & _ & ?).
  assert (Ha2 : a2 = flushEffects
                       (a1 |> applyImmediateEndLocal ea'
                           |> setInfoMessage (Some txt_end_now_accepted_by_peer))).
  { apply (received_in_round rid a1
             (fun w => w |> applyImmediateEndLocal ea'
                         |> setInfoMessage (Some txt_end_now_accepted_by_peer)));
      [by apply inRound_step|].
    simpl. by intros ->. }
  split; [done|]. split; [by rewrite Hb1, flushEffects_nego|].
  split; [done|].
  rewrite Ha2, flushEffects_round. simpl.
  repeat split; try done. by apply flushEffects_timer_off.
Qed.

Lemma end_now_agreed_witness :
  let a1 := step click_propose_end_now (at_ms 150000) redHostRunning in
  let b1 := step (onmessage (proposeEndNow "r1")) (at_ms 150200) guestRunning in
  let b2 := step click_accept_end_now (at_ms 151000) b1 in
  let a2 := step (onmessage (acceptEndNow "r1")) (at_ms 152200) a1 in
  gameState (round a2) = ended /\ gameState (round b2) = ended
  /\ endTimeSec (round a2) = Some 152 /\ endTimeSec (round b2) = Some 151.
Proof.
  destruct (end_now_agreed "r1" (at_ms 150000) (at_ms 150200)
              (at_ms 151000) (at_ms 152200) redHostRunning guestRunning)
    as (_ & _ & _ & Ha & Hb & Hea & Heb & _).
  - repeat split; (reflexivity || discriminate).
  - reflexivity.
  - repeat split; (reflexivity || discriminate).
  - reflexivity.
  - reflexivity.
  - repeat split; assumption.
Defined.

(** X5: what can touch the tally and the times of a round.  The scores
    and the vote log are changed only by a received [vote], [start] or
    [stateSnapshot], the resumption of a stored round, a local vote or
    start, a new round, the discarding of the open snapshot and the
    clean-up of the connection; the start and end time only by the
    messages and actions that start, resume, replace or end a round or
    accept a new end.  Every other event, in particular each change of
    the connection, each timer and each effect, leaves them as they are. *)
Theorem tally_and_times_framed ev e w :
  (touchesTally ev = false ->
   scores (round (step ev e w)) = scores (round w)
   /\ voteEvents (round (step ev e w)) = voteEvents (round w))
  /\ (touchesTiming ev = false ->
      startTimeSec (round (step ev e w)) = startTimeSec (round w)
      /\ endTimeSec (round (step ev e w)) = endTimeSec (round w)).
Proof.
  rewrite step_round. split; intros Htouch.
  - each_branch ev; done.
  - each_branch ev; done.
Qed.

(** X6: while the data channel is not open, or its [send] throws, no
    event puts a message on the channel: what was sent stays what it was. *)
Theorem nothing_sent_offline ev e w :
  channelOpen w = false \/ sendOk e = false ->
  sent (step ev e w) = sent w.
Proof.
  intros Hoff. unfold step. rewrite flushEffects_sent.
  unfold channelOpen in Hoff.
  destruct ev as [[]| | | | | | | | | | | | | | | | | | | | | | | | | | | | | | | | | |];
    cbn [handle]; unfold_handlers; unfold channelOpen;
    repeat case_match; simplify_eq/=; try done;
    exfalso;
    repeat match goal with
           | H : negb _ = false |- _ => apply negb_false_iff in H
           end;
    destruct Hoff; congruence.
Qed.

Lemma nothing_sent_offline_witness :
  sent (step click_vote (at_ms 130000)
          (step (on_ready_state closed) (at_ms 120000) guestRunning))
  = sent (step (on_ready_state closed) (at_ms 120000) guestRunning).
Proof.
  apply (nothing_sent_offline click_vote). left. reflexivity.
Defined.

(** X7: a local vote while the status is still connected but the data
    channel is not open is counted locally and sent to nobody: the
    opponent's score grows by one, the vote is logged, nothing is sent and
    the error says that the channel is not ready.  The peer never learns
    of this vote. *)
Theorem vote_counted_without_send r rid startSec e w :
  canVote r rid startSec w ->
  channelOpen w = false ->
  let w' := step click_vote e w in
  score (other r) (scores (round w')) = score (other r) (scores (round w)) + 1
  /\ score r (scores (round w')) = score r (scores (round w))
  /\ voteEvents (round w')
     = voteEvents (round w)
       ++ [{| target := other r; elapsed := Z.max 0 (nowSec e - startSec) |}]
  /\ sent w' = sent w
  /\ error (notices w') = Some txt_channel_not_ready.
Proof.
  intros (Hview & Hrole & Hconn & Hrun & Hstart & Hs0 & Hcur & Hrid) Hclosed.
  unfold step. rewrite flushEffects_round, flushEffects_sent.
  cbn [handle]. unfold handleVote.
  rewrite Hview, Hrole, Hconn, Hstart, Hcur, Hrun. simpl.
  rewrite (bool_decide_eq_true_2 (startSec ≠ 0)) by done.
  rewrite (bool_decide_eq_true_2 (rid ≠ "")) by done. simpl.
  rewrite sendMessage_closed by done.
  unfold flushEffects. destruct r; simpl; repeat split; by case_match.
Qed.

Lemma vote_counted_without_send_witness :
  let w := step (on_ready_state closed) (at_ms 120000) guestRunning in
  let w' := step click_vote (at_ms 130000) w in
  score red (scores (round w')) = score red (scores (round w)) + 1
  /\ sent w' = sent w.
Proof.
  destruct (vote_counted_without_send blue "r1" 100 (at_ms 130000)
              (step (on_ready_state closed) (at_ms 120000) guestRunning))
    as (Hscore & _ & _ & Hsent & _).
  - repeat split; (reflexivity || discriminate).
  - reflexivity.
  - split; assumption.
Defined.

Lemma votesFor_app r l k : votesFor r (l ++ k) = votesFor r l + votesFor r k.
Proof. induction l as [|v l IH]; simpl; [done|]. rewrite IH. lia. Qed.

Lemma buildSnapshot_tally e w s :
  tallyOk w -> buildSnapshotFromState e w = Some s -> snapshotTallyOk s.
Proof.
  unfold buildSnapshotFromState, tallyOk, snapshotTallyOk.
  intros Hok Hs r. repeat case_match; simplify_eq/=.
  rewrite <- list_fmap_compose.
  replace (toVoteEvent ∘ toSnapshotEvent <$> voteEvents (round w))
    with (voteEvents (round w)).
  - rewrite <- Hok. by destruct r.
  - rewrite <- (list_fmap_id (voteEvents (round w))) at 1.
    apply list_fmap_ext. by intros _ [] _.
Qed.

Lemma step_tallyOk ev e w :
  tallyOk w -> keepsTally ev e w -> tallyOk (step ev e w).
Proof.
  unfold tallyOk. rewrite step_round. intros Hok Hkeep.
  each_branch ev; try done.
  all: try (intros r0; specialize (Hok r0); rewrite ?votesFor_app; simpl;
            repeat case_decide; destruct r0; simplify_eq/=; lia).
  all: try (intros r0; by destruct r0).
  all: try (intros r0; exact (Hkeep r0)).
  all: try match goal with
       | H : snapshotToResume _ _ = Some _ |- _ =>
           intros r0; exact (Hkeep _ H r0)
       end.
  all: intros r0; specialize (Hok r0); rewrite votesFor_app;
    unfold bump, score in *; simpl;
    repeat match goal with
           | |- context [other ?x] => destruct x; simpl
           | |- context [match ?x with red => _ | blue => _ end] =>
               destruct x; simpl
           end;
    repeat case_decide; simplify_eq/=; lia.
Qed.

(** X8: the scores are the counts of the vote log.  Every event keeps
    this, provided that a snapshot it adopts has it; it holds when the
    component mounts; and every snapshot built from a state that has it
    has it, so snapshots that an honest peer pushes or that the component
    stored itself keep it. *)
Theorem scores_count_the_vote_log :
  (forall ev e w, tallyOk w -> keepsTally ev e w -> tallyOk (step ev e w))
  /\ tallyOk initialWorld
  /\ (forall e w s,
        tallyOk w -> buildSnapshotFromState e w = Some s -> snapshotTallyOk s).
Proof.
  split; [exact step_tallyOk|]. split; [|exact buildSnapshot_tally].
  intros r. by destruct r.
Qed.

Lemma flushEffects_timerRef w :
  timerRef (refs (flushEffects w)) = true ->
  gameState (round w) = running /\ timerRef (refs w) = true.
Proof.
  unfold flushEffects. case_match eqn:Hc; simpl; [done|].
  apply orb_false_iff in Hc as [_ Hrun].
  apply bool_decide_eq_false in Hrun. intros ->. split; [|done].
  by destruct (decide (gameState (round w) = running)).
Qed.

(** X9: the clock of the round stays well formed under every event:
    the remaining time is never negative, it is zero unless the round is
    running, and a round timer exists only while the round is running. *)
Theorem remaining_time_well_formed ev e w :
  clockOk w -> clockOk (step ev e w).
Proof.
  unfold clockOk. intros (Hpos & Hzero & Htimer).
  assert (0 <= timeRemaining (round (handle ev e w))
          /\ (gameState (round (handle ev e w)) <> running ->
              timeRemaining (round (handle ev e w)) = 0)) as [Hp Hz].
  { each_branch ev; split; try done; try lia; try (intros; congruence).
    all: try (intros _; apply Htimer in H; congruence).
    all: try (rewrite Htimer in *; done).
    all: match goal with
         | H : _ || bool_decide (_ <> running) = false |- _ =>
             apply orb_false_iff in H as [_ H];
             apply bool_decide_eq_false in H; intros Hn; by destruct H
         end. }
  unfold step. rewrite flushEffects_round.
  split; [done|]. split; [done|].
  by intros [? _]%flushEffects_timerRef.
Qed.

Lemma remaining_time_well_formed_witness :
  clockOk (step interval_tick (at_ms 150000)
             (step timer_effect (at_ms 100000) redHostRunning)).
Proof.
  apply remaining_time_well_formed. apply remaining_time_well_formed.
  repeat split.
  - vm_compute. discriminate.
  - intros Hidle. exfalso. apply Hidle. reflexivity.
Defined.

Lemma snapshotCount_app l k :
  snapshotCount (l ++ k) = (snapshotCount l + snapshotCount k)%nat.
Proof. induction l as [|m l IH]; simpl; [done|]. rewrite IH. lia. Qed.

Lemma flushEffects_pushed w :
  hasSentStateSnapshotRef (refs (flushEffects w))
  = hasSentStateSnapshotRef (refs w).
Proof. unfold flushEffects. by case_match. Qed.

(** One event: a snapshot is sent only with the flag clear, and sets it;
    with the flag set nothing is sent and, unless the event clears it, the
    flag stays. *)
Lemma step_push ev e w :
  let w' := step ev e w in
  (hasSentStateSnapshotRef (refs w) = false
   /\ snapshotCount (sent w') = S (snapshotCount (sent w))
   /\ hasSentStateSnapshotRef (refs w') = true)
  \/ (snapshotCount (sent w') = snapshotCount (sent w)
      /\ (resetsPush ev w = false ->
          hasSentStateSnapshotRef (refs w') = hasSentStateSnapshotRef (refs w))).
Proof.
  cbn zeta. unfold step. rewrite flushEffects_sent, flushEffects_pushed.
  destruct ev as [[]| | | | | | | | | | | | | | | | | | | | | | | | | | | | | | | | | |];
    cbn [handle resetsPush]; unfold_handlers;
    repeat case_match; simplify_eq/=;
    rewrite ?snapshotCount_app; simpl;
    first [ by right; split; [lia | done]
          | by left; repeat split; try lia;
              match goal with H : _ = false |- _ => exact H end
          | idtac ].
  right. split; [done|]. intros Hq. apply bool_decide_eq_false in Hq.
  by destruct Hq.
Qed.

(** X10: the host pushes its snapshot at most once between two resets of
    the push flag (a lost connection seen by the effect, a new round, the
    clean-up of the connection): over any run without such a reset at most
    one [stateSnapshot] is sent, and none when the flag was already
    set. *)
Theorem snapshot_pushed_once tr w :
  pushQuiet tr w ->
  (snapshotCount (sent (run tr w)) <= snapshotCount (sent w) + 1)%nat
  /\ (hasSentStateSnapshotRef (refs w) = true ->
      snapshotCount (sent (run tr w)) = snapshotCount (sent w)).
Proof.
  revert w. induction tr as [|[ev e] tr IH]; intros w; simpl.
  { intros _. split; [lia | done]. }
  intros [Hq Htr]. destruct (IH _ Htr) as [IH1 IH2].
  destruct (step_push ev e w) as [(Hno & Hcnt & Hset)|[Hcnt Hflag]];
    cbn zeta in *.
  - split; [|congruence]. rewrite (IH2 Hset). lia.
  - split; [lia|]. intros Hset. rewrite IH2; [done|].
    by rewrite (Hflag Hq).
Qed.

Lemma snapshot_pushed_once_witness :
  let tr := [ (snapshot_push_effect, at_ms 150000);
              (onmessage (vote "r1" red 55), at_ms 155000);
              (snapshot_push_effect, at_ms 156000) ] in
  (snapshotCount (sent (run tr redHostRunning))
   <= snapshotCount (sent redHostRunning) + 1)%nat.
Proof.
  apply (snapshot_pushed_once
           [ (snapshot_push_effect, at_ms 150000);
             (onmessage (vote "r1" red 55), at_ms 155000);
             (snapshot_push_effect, at_ms 156000) ] redHostRunning).
  repeat split.
Defined.

Lemma flushEffects_session w : session (flushEffects w) = session w.
Proof. unfold flushEffects. by case_match. Qed.
Lemma flushEffects_conn w : conn (flushEffects w) = conn w.
Proof. unfold flushEffects. by case_match. Qed.
Lemma flushEffects_view w : view (flushEffects w) = view w.
Proof. unfold flushEffects. by case_match. Qed.
Lemma flushEffects_notices w : notices (flushEffects w) = notices w.
Proof. unfold flushEffects. by case_match. Qed.
Lemma flushEffects_channel w :
  dataChannelRef (refs (flushEffects w)) = dataChannelRef (refs w).
Proof. unfold flushEffects. by case_match. Qed.
Lemma flushEffects_roleRef w :
  lockedRoleRef (refs (flushEffects w)) = lockedRole (session w).
Proof. unfold flushEffects. by case_match. Qed.

Lemma step_roleRef ev e w :
  lockedRoleRef (refs (step ev e w)) = lockedRole (session (step ev e w)).
Proof. unfold step. by rewrite flushEffects_roleRef, flushEffects_session. Qed.

Lemma buildSnapshot_fields e w s :
  buildSnapshotFromState e w = Some s ->
  currentRoundId (round w) = Some (snap_gameId s)
  /\ snap_gameId s <> ""
  /\ startTimeSec (round w) = Some (snap_startTimeSec s)
  /\ snap_startTimeSec s <> 0
  /\ endTimeSec (round w) = Some (snap_endTimeSec s)
  /\ snap_endTimeSec s <> 0
  /\ lockedRole (session w) = Some (snap_lockedRole s)
  /\ gameState (round w) = snap_gameState s
  /\ snap_gameState s <> idle
  /\ scores (round w)
     = {| score_red := snap_scoreRed s; score_blue := snap_scoreBlue s |}.
Proof.
  unfold buildSnapshotFromState. intros Hs.
  repeat case_match; simplify_eq/=.
  match goal with
  | H : _ || _ || _ = false |- _ =>
      apply orb_false_iff in H as [[Ha Hb]%orb_false_iff Hc];
      apply negb_false_iff, bool_decide_eq_true in Ha, Hb, Hc
  end.
  repeat split; congruence.
Qed.

Lemma push_sends r s e h :
  hostPushes r s e h ->
  let h1 := step snapshot_push_effect e h in
  sent h1 = sent h ++ [stateSnapshot (snap_gameId s) s]
  /\ round h1 = round h /\ session h1 = session h.
Proof.
  intros ([Hconn Hopen] & Hmode & Hflag & Hs & Hrole & Hsend).
  destruct (buildSnapshot_fields _ _ _ Hs)
    as (Hcur & Hne & Hst & Hst0 & Hen & Hen0 & _ & Hgs & Hidle & _).
  unfold step. rewrite flushEffects_sent, flushEffects_round, flushEffects_session.
  cbn [handle]. unfold snapshotPushEffect.
  rewrite Hconn, Hmode, Hcur, Hst, Hen, Hrole, Hflag, Hopen, Hs, Hsend, Hgs.
  simpl.
  rewrite (bool_decide_eq_true_2 (snap_gameId s ≠ "")) by done.
  rewrite (bool_decide_eq_true_2 (snap_startTimeSec s ≠ 0)) by done.
  rewrite (bool_decide_eq_true_2 (snap_endTimeSec s ≠ 0)) by done.
  simpl. by case_decide.
Qed.

Lemma adopt_pushed x s e g :
  snap_gameId s <> "" ->
  currentRoundIdRef (refs g) = None
  \/ currentRoundIdRef (refs g) = Some (snap_gameId s) ->
  let g1 := step (onmessage (stateSnapshot x s)) e g in
  adopted s g1
  /\ historyViewSnapshot (view g1) = None
  /\ conn g1 = conn g
  /\ dataChannelRef (refs g1) = dataChannelRef (refs g)
  /\ sent g1 = sent g.
Proof.
  intros Hne Hcur. unfold step.
  rewrite flushEffects_view, flushEffects_conn, flushEffects_channel,
    flushEffects_sent.
  cbn [handle handleIncomingMessage].
  case_decide; [done|].
  assert (truthy_str (currentRoundIdRef (refs g))
          && bool_decide (currentRoundIdRef (refs g) ≠ Some (snap_gameId s))
          = false) as ->.
  { destruct Hcur as [-> | ->]; [done|].
    apply andb_false_iff. right. by apply bool_decide_eq_false_2; tauto. }
  split.
  - pose proof (hydrate_adopts s false e g) as Ha.
    unfold adopted in *. rewrite flushEffects_round, flushEffects_session,
      flushEffects_roundRef.
    destruct Ha as (?&?&?&?&?&?&?&?&?&?&?&?).
    repeat split; try done.
    all: unfold flushEffects; by case_match.
  - unfold hydrateStateFromSnapshot, tryStorage. by case_match.
Qed.

Lemma vote_counted_and_sent r rid startSec e w :
  canVote r rid startSec w ->
  channelOpen w = true -> sendOk e = true ->
  let w' := step click_vote e w in
  let el := Z.max 0 (nowSec e - startSec) in
  score (other r) (scores (round w')) = score (other r) (scores (round w)) + 1
  /\ score r (scores (round w')) = score r (scores (round w))
  /\ voteEvents (round w')
     = voteEvents (round w) ++ [{| target := other r; elapsed := el |}]
  /\ sent w' = sent w ++ [vote rid (other r) el].
Proof.
  intros (Hview & Hrole & Hconn & Hrun & Hstart & Hs0 & Hcur & Hrid) Hopen Hsend.
  unfold step. rewrite flushEffects_round, flushEffects_sent.
  cbn [handle]. unfold handleVote.
  rewrite Hview, Hrole, Hconn, Hstart, Hcur, Hrun. simpl.
  rewrite (bool_decide_eq_true_2 (startSec ≠ 0)) by done.
  rewrite (bool_decide_eq_true_2 (rid ≠ "")) by done. simpl.
  rewrite sendMessage_open by done.
  destruct r; simpl; repeat split.
Qed.

Lemma mistargeted_vote_dropped rid r tgt at_ e w :
  currentRoundIdRef (refs w) = Some rid -> rid <> "" ->
  lockedRoleRef (refs w) = Some r -> tgt <> r ->
  let w' := step (onmessage (vote rid tgt at_)) e w in
  round w' = round w
  /\ voteIgnoreMessage (notices w') = Some txt_role_misassigned_retry.
Proof.
  intros Hcur Hne Hrole Htgt. unfold step.
  rewrite flushEffects_round, flushEffects_notices.
  cbn [handle handleIncomingMessage].
  rewrite foreignRound_current, Hrole by done.
  case_decide; [|done].
  by rewrite ensureRole_keeps_round, ensureRole_keeps_notice.
Qed.

(** X11: a pushed snapshot carries the role of its sender, and the peer
    that adopts it takes that role as its own.  A host that holds [r]
    pushes the snapshot of its running round; a guest without a round
    adopts it and now holds [r] too; its next vote is therefore for the
    other role, it counts that vote itself, and the host, whose role is
    [r], ignores it with the notice of a wrong role and an unchanged
    round. *)
Theorem adopted_snapshot_takes_senders_role r s eh eg ev eh' h g :
  hostPushes r s eh h ->
  snap_gameState s = running ->
  currentRoundIdRef (refs g) = None ->
  online g -> sendOk ev = true ->
  let rid := snap_gameId s in
  let h1 := step snapshot_push_effect eh h in
  let g1 := step (onmessage (stateSnapshot rid s)) eg g in
  let g2 := step click_vote ev g1 in
  let el := Z.max 0 (nowSec ev - snap_startTimeSec s) in
  let h2 := step (onmessage (vote rid (other r) el)) eh' h1 in
  sent h1 = sent h ++ [stateSnapshot rid s]
  /\ lockedRole (session g1) = Some r
  /\ sent g2 = sent g ++ [vote rid (other r) el]
  /\ score (other r) (scores (round g2)) = score (other r) (scores (round h)) + 1
  /\ round h2 = round h
  /\ voteIgnoreMessage (notices h2) = Some txt_role_misassigned_retry.
Proof.
  intros Hpush Hrun Hfresh [Hconn Hopen] Hsend rid h1 g1 g2 el h2.
  destruct (push_sends r s eh h Hpush) as (Hsent1 & Hround1 & Hsess1).
  fold h1 in Hsent1, Hround1, Hsess1.
  destruct Hpush as (_ & _ & _ & Hs & Hrole & _).
  destruct (buildSnapshot_fields _ _ _ Hs)
    as (Hcur & Hne & Hst & Hst0 & _ & _ & Hsr & Hgs & _ & Hsc).
  assert (snap_lockedRole s = r) as Hr by congruence.
  destruct (adopt_pushed rid s eg g Hne (or_introl Hfresh))
    as (Had & Hview & Hconn1 & Hch1 & Hsent_g1).
  fold g1 in Had, Hview, Hconn1, Hch1, Hsent_g1.
  destruct Had as (Hg_cur & _ & Hg_st & _ & Hg_gs & Hg_red & Hg_blue & _
                   & Hg_role & _).
  assert (canVote r rid (snap_startTimeSec s) g1) as Hcan.
  { repeat split; try done; congruence. }
  assert (channelOpen g1 = true) as Hopen1.
  { unfold channelOpen in *. by rewrite Hch1. }
  destruct (vote_counted_and_sent r rid _ ev g1 Hcan Hopen1 Hsend)
    as (Hscore & _ & _ & Hsent_g2).
  fold g2 el in Hscore, Hsent_g2.
  assert (score (other r) (scores (round g1))
          = score (other r) (scores (round h))) as Hsame.
  { rewrite Hsc. unfold score. destruct (other _); simpl; congruence. }
  assert (round h2 = round h1
          /\ voteIgnoreMessage (notices h2) = Some txt_role_misassigned_retry)
    as [Hround2 Hnote].
  { apply mistargeted_vote_dropped with (r := r).
    - transitivity (currentRoundId (round h1)); [apply step_roundRef|].
      by rewrite Hround1.
    - done.
    - transitivity (lockedRole (session h1)); [apply step_roleRef|].
      by rewrite Hsess1.
    - by destruct r. }
  repeat split; try done; congruence.
Qed.

Lemma adopted_snapshot_takes_senders_role_witness :
  let g1 := step (onmessage (stateSnapshot "r1" redHostSnapshot))
              (at_ms 150500) guestReady in
  let g2 := step click_vote (at_ms 160000) g1 in
  let h1 := step snapshot_push_effect (at_ms 150000) redHostRunning in
  let h2 := step (onmessage (vote "r1" blue 60)) (at_ms 160500) h1 in
  lockedRole (session g1) = Some red
  /\ sent g2 = sent guestReady ++ [vote "r1" blue 60]
  /\ round h2 = round redHostRunning
  /\ voteIgnoreMessage (notices h2) = Some txt_role_misassigned_retry.
Proof.
  destruct (adopted_snapshot_takes_senders_role red redHostSnapshot
              (at_ms 150000) (at_ms 150500) (at_ms 160000) (at_ms 160500)
              redHostRunning guestReady)
    as (_ & Hrole & Hsent & _ & Hround & Hnote).
  - repeat split; reflexivity.
  - reflexivity.
  - reflexivity.
  - split; reflexivity.
  - reflexivity.
  - repeat split; assumption.
Defined.

Lemma start_game_sends r rid endUnix e h :
  hostCanStart r h -> endUnix <> 0 -> nowSec e < endUnix -> sendOk e = true ->
  let roles := {| hostRole := r; guestRole := other r |} in
  let h1 := step (click_start_game (Some endUnix) rid) e h in
  sent h1 = sent h ++ [start rid (Fin endUnix) (Some roles)]
  /\ gameState (round h1) = running
  /\ currentRoundId (round h1) = Some rid
  /\ startTimeSec (round h1) = Some (nowSec e)
  /\ endTimeSec (round h1) = Some endUnix
  /\ scores (round h1) = noScores
  /\ voteEvents (round h1) = []
  /\ lockedRole (session h1) = Some r.
Proof.
  intros (Hview & Hrole & [Hconn Hopen] & Hmode & Hroles) H0 Hlt Hsend.
  cbn zeta. unfold step.
  rewrite flushEffects_sent, flushEffects_round, flushEffects_session.
  cbn [handle]. unfold handleStartGame.
  rewrite Hview, Hrole, Hconn. simpl.
  rewrite (bool_decide_eq_true_2 (endUnix ≠ 0)) by done. simpl.
  case_decide; [lia|].
  assert (forall w, channelOpen w = channelOpen h ->
     sendMessage (start rid (Fin endUnix)
                    (Some {| hostRole := r; guestRole := other r |})) e w
     = with_sent (fun l => l ++ [start rid (Fin endUnix)
                    (Some {| hostRole := r; guestRole := other r |})]) w)
    as Hsm.
  { intros w Hw. apply sendMessage_open; [congruence | done]. }
  destruct Hroles as [Hr | Hr]; rewrite Hr, ?Hmode; unfold tryStorage;
    destruct (storageOk e); unfold beginGameWithEndTime;
    try (case_decide; [lia|]); rewrite Hsm by done; simpl; by rewrite ?Hrole.
Qed.

Lemma start_received rid endUnix roles e g :
  nowSec e < endUnix ->
  let g1 := step (onmessage (start rid (Fin endUnix) (Some roles))) e g in
  gameState (round g1) = running
  /\ currentRoundId (round g1) = Some rid
  /\ startTimeSec (round g1) = Some (nowSec e)
  /\ endTimeSec (round g1) = Some endUnix
  /\ scores (round g1) = noScores
  /\ voteEvents (round g1) = []
  /\ lockedRole (session g1)
     = Some (expectedRole (connectionModeRef (refs g)) roles)
  /\ sent g1 = sent g.
Proof.
  intros Hlt. cbn zeta. unfold step.
  rewrite flushEffects_sent, flushEffects_round, flushEffects_session.
  cbn [handle handleIncomingMessage].
  rewrite start_guard_finite by done.
  unfold tryStorage, beginGameWithEndTime, ensureRoleFromSessionRoles.
  destruct (storageOk e); (case_decide; [lia|]); simpl;
    case_decide; simpl; repeat split; done.
Qed.

(** X12: starting a round.  A connected host with role [r] starts round
    [rid] to end at a second in its future, and the [start] it sends
    reaches a guest for which that second is in the future too.  Both are
    then running round [rid] with that end time and no votes, each with
    the second of its own clock as start time, the host with role [r] and
    the guest with the other role. *)
Theorem start_reaches_guest r rid endUnix eh eg h g :
  hostCanStart r h -> endUnix <> 0 -> nowSec eh < endUnix ->
  sendOk eh = true ->
  connectionModeRef (refs g) = answer -> nowSec eg < endUnix ->
  let roles := {| hostRole := r; guestRole := other r |} in
  let h1 := step (click_start_game (Some endUnix) rid) eh h in
  let g1 := step (onmessage (start rid (Fin endUnix) (Some roles))) eg g in
  sent h1 = sent h ++ [start rid (Fin endUnix) (Some roles)]
  /\ (gameState (round h1) = running /\ gameState (round g1) = running)
  /\ (currentRoundId (round h1) = Some rid
      /\ currentRoundId (round g1) = Some rid)
  /\ (endTimeSec (round h1) = Some endUnix
      /\ endTimeSec (round g1) = Some endUnix)
  /\ (startTimeSec (round h1) = Some (nowSec eh)
      /\ startTimeSec (round g1) = Some (nowSec eg))
  /\ (scores (round h1) = noScores /\ scores (round g1) = noScores)
  /\ (lockedRole (session h1) = Some r
      /\ lockedRole (session g1) = Some (other r)).
Proof.
  intros Hh H0 Hlt Hsend Hmode Hltg roles h1 g1.
  destruct (start_game_sends r rid endUnix eh h Hh H0 Hlt Hsend)
    as (?&?&?&?&?&?&?&?).
  destruct (start_received rid endUnix roles eg g Hltg)
    as (?&?&?&?&?&?&Hrole&?).
  rewrite Hmode in Hrole. by repeat split.
Qed.

Lemma start_reaches_guest_witness :
  let h1 := step (click_start_game (Some 200) "r1") (at_ms 100000) hostReady in
  let g1 := step (onmessage (start "r1" (Fin 200) (Some redBlue)))
              (at_ms 100400) guestReady in
  (gameState (round h1) = running /\ gameState (round g1) = running)
  /\ (lockedRole (session h1) = Some red
      /\ lockedRole (session g1) = Some blue).
Proof.
  destruct (start_reaches_guest red "r1" 200 (at_ms 100000) (at_ms 100400)
              hostReady guestReady)
    as (_ & Hrun & _ & _ & _ & _ & Hroles).
  - repeat split; try reflexivity. left. reflexivity.
  - discriminate.
  - reflexivity.
  - reflexivity.
  - reflexivity.
  - reflexivity.
  - split; assumption.
Defined.

Lemma vote_received rid tgt at_ e w :
  inRound rid w -> lockedRoleRef (refs w) = Some tgt ->
  let w' := step (onmessage (vote rid tgt at_)) e w in
  scores (round w') = bump tgt (scores (round w))
  /\ voteEvents (round w')
     = voteEvents (round w) ++ [{| target := tgt; elapsed := at_ |}]
  /\ sent w' = sent w.
Proof.
  intros Hin Hrole. destruct (inRound_truthy rid w Hin) as [_ Hf].
  cbn zeta. unfold step. rewrite flushEffects_sent, flushEffects_round.
  cbn [handle handleIncomingMessage]. rewrite Hf, Hrole.
  by case_decide.
Qed.

(** X13: a vote reaches the peer.  A peer with role [r] that votes in a
    running round with an open channel adds one to the other role's score,
    logs the vote and sends it; the peer that holds the other role in the
    same round and receives it adds the same vote to its own score and
    log. *)
Theorem vote_reaches_peer r rid startSec e eb a b :
  canVote r rid startSec a -> channelOpen a = true -> sendOk e = true ->
  inRound rid b -> lockedRoleRef (refs b) = Some (other r) ->
  let el := Z.max 0 (nowSec e - startSec) in
  let a1 := step click_vote e a in
  let b1 := step (onmessage (vote rid (other r) el)) eb b in
  sent a1 = sent a ++ [vote rid (other r) el]
  /\ scores (round a1) = bump (other r) (scores (round a))
  /\ scores (round b1) = bump (other r) (scores (round b))
  /\ voteEvents (round a1)
     = voteEvents (round a) ++ [{| target := other r; elapsed := el |}]
  /\ voteEvents (round b1)
     = voteEvents (round b) ++ [{| target := other r; elapsed := el |}].
Proof.
  intros Hcan Hopen Hsend Hin Hrole el a1 b1.
  destruct (vote_received rid (other r) el eb b Hin Hrole) as (?&?&?).
  destruct Hcan as (Hview & Hrl & Hconn & Hrun & Hstart & Hs0 & Hcur & Hrid).
  repeat split; try done.
  all: subst a1; unfold step;
    rewrite ?flushEffects_round, ?flushEffects_sent;
    cbn [handle]; unfold handleVote;
    rewrite Hview, Hrl, Hconn, Hstart, Hcur, Hrun; simpl;
    rewrite (bool_decide_eq_true_2 (startSec ≠ 0)) by done;
    rewrite (bool_decide_eq_true_2 (rid ≠ "")) by done; simpl;
    by rewrite sendMessage_open by done.
Qed.

Lemma vote_reaches_peer_witness :
  let a1 := step click_vote (at_ms 130000) guestRunning in
  let b1 := step (onmessage (vote "r1" red 30)) (at_ms 130500) redHostRunning in
  scores (round a1) = bump red (scores (round guestRunning))
  /\ scores (round b1) = bump red (scores (round redHostRunning)).
Proof.
  destruct (vote_reaches_peer blue "r1" 100 (at_ms 130000) (at_ms 130500)
              guestRunning redHostRunning)
    as (_ & Ha & Hb & _).
  - repeat split; (reflexivity || discriminate).
  - reflexivity.
  - reflexivity.
  - repeat split; (reflexivity || discriminate).
  - reflexivity.
  - split; assumption.
Defined.

Lemma snapshot_key_not_fixed gameId :
  getSnapshotStorageKey gameId <> SNAPSHOT_LAST_ID_KEY
  /\ getSnapshotStorageKey gameId <> HISTORY_INDEX_KEY
  /\ getSnapshotStorageKey gameId <> GAME_ID_STORAGE_KEY.
Proof. repeat split; discriminate. Qed.

Lemma snapshot_key_inj a b :
  getSnapshotStorageKey a = getSnapshotStorageKey b -> a = b.
Proof. unfold getSnapshotStorageKey. cbn. by intros [=]. Qed.

Lemma Scores_eq (a b : Scores) :
  score_red a = score_red b -> score_blue a = score_blue b -> a = b.
Proof.
  intros Hr Hb.
  change a with {| score_red := score_red a; score_blue := score_blue a |}.
  by rewrite Hr, Hb.
Qed.

Lemma persist_store e w s w1 :
  storageOk e = true ->
  persistSnapshot e w = (Some s, w1) ->
  localStorage w1
  = <[SNAPSHOT_LAST_ID_KEY := StoredId (snap_gameId s)]>
      (<[getSnapshotStorageKey (snap_gameId s) := StoredSnapshot s]>
         (localStorage w))
  /\ gid w1 = gid w
  /\ snap_gameId s <> "" /\ snap_endTimeSec s <> 0.
Proof.
  intros Hok. unfold persistSnapshot, tryStorage. rewrite Hok.
  destruct (buildSnapshotFromState e w) as [base|] eqn:Hb; [|done].
  intros [= <- <-].
  apply buildSnapshot_fields in Hb as (_&?&_&_&_&?&_).
  by repeat split.
Qed.

Lemma resume_finds e w s :
  localStorage w !! getSnapshotStorageKey (snap_gameId s)
  = Some (StoredSnapshot s) ->
  localStorage w !! SNAPSHOT_LAST_ID_KEY = Some (StoredId (snap_gameId s)) ->
  gid w = None \/ gid w = Some (snap_gameId s) ->
  snap_gameId s <> "" ->
  snapshotToResume e w
  = if bool_decide (snap_gameState s = ended)
       && bool_decide (snap_endTimeSec s ≠ 0)
       && bool_decide (snap_endTimeSec s < nowSec e)
    then None else Some s.
Proof.
  intros Hsnap Hlast Hgid Hne. unfold snapshotToResume, getId, getItem.
  assert (or_str (gid w)
            match localStorage w !! SNAPSHOT_LAST_ID_KEY with
            | Some (StoredId s0) => Some s0
            | _ => None
            end = Some (snap_gameId s)) as ->.
  { rewrite Hlast. unfold or_str. destruct Hgid as [-> | ->]; [done|].
    simpl. by rewrite bool_decide_eq_true_2. }
  simpl. rewrite (bool_decide_eq_true_2 (snap_gameId s ≠ "")) by done.
  simpl. rewrite Hsnap. by case_decide.
Qed.

(** X14: a round that was persisted is resumed when the page is loaded
    again.  The component is one of two that began fresh and received
    nothing but what the other sent, so that every number it holds is one
    that a component computed, whole and finite, and the store returns it
    as it was written.  After a persist that the store took, on a page
    whose address names this round or none, the resume effect restores
    the round id, the times, the state, the scores, the vote log, the
    locked role and the session id, takes the stored version and enters
    the offline mode, unless the round had ended and its end time has
    passed. *)
Theorem persisted_round_resumes e e' w w1 s :
  amongPeers w ->
  storageOk e = true -> storageOk e' = true ->
  persistSnapshot e w = (Some s, w1) ->
  gid w = None \/ gid w = currentRoundId (round w) ->
  ~ (gameState (round w) = ended /\ snap_endTimeSec s < nowSec e') ->
  let w2 := step resume_effect e' (reload w1) in
  currentRoundId (round w2) = currentRoundId (round w)
  /\ startTimeSec (round w2) = startTimeSec (round w)
  /\ endTimeSec (round w2) = endTimeSec (round w)
  /\ gameState (round w2) = gameState (round w)
  /\ scores (round w2) = scores (round w)
  /\ voteEvents (round w2) = voteEvents (round w)
  /\ lockedRole (session w2) = lockedRole (session w)
  /\ sessionId (session w2) = sessionId (session w)
  /\ snapshotVersionRef (refs w2) = snap_version s
  /\ offlineSnapshotMode (view w2) = true.
Proof.
  intros _ Hok Hok' Hp Hgid Hlive w2.
  destruct (persist_returns_state _ _ _ _ Hp)
    as (Hcur & Hst & Hen & Hgs & Hred & Hblue & Hvotes & Hrole & Hsid).
  destruct (persist_store _ _ _ _ Hok Hp) as (Hstore & Hgid1 & Hne & Hen0).
  destruct (snapshot_key_not_fixed (snap_gameId s)) as (Hk & _ & _).
  assert (snapshotToResume e' (reload w1) = Some s) as Hres.
  { rewrite (resume_finds e' _ s).
    - rewrite Hgs in Hlive.
      destruct (bool_decide (snap_gameState s = ended)) eqn:H1; [|done].
      destruct (bool_decide (snap_endTimeSec s < nowSec e')) eqn:H3;
        [|by rewrite andb_false_r].
      apply bool_decide_eq_true in H1, H3. by destruct Hlive.
    - cbn. rewrite Hstore, lookup_insert_ne by done.
      by rewrite lookup_insert_eq.
    - cbn. by rewrite Hstore, lookup_insert_eq.
    - cbn. rewrite Hgid1. rewrite Hcur in Hgid. exact Hgid.
    - done. }
  subst w2. unfold step.
  rewrite flushEffects_round, flushEffects_session, flushEffects_view.
  cbn [handle]. unfold resumeEffect. rewrite Hok', Hres. cbn [negb].
  pose proof (hydrate_adopts s true e' (reload w1)) as Ha.
  destruct Ha as (Ha1&_&Ha3&Ha4&Ha5&Ha6&Ha7&Ha8&Ha9&Ha10&_&Ha12).
  rewrite Ha1, Ha3, Ha4, Ha5, Ha8, Ha9, Ha10.
  repeat split; try congruence.
  - apply Scores_eq; congruence.
  - rewrite <- Ha12. unfold flushEffects. by case_match.
Qed.

Lemma persisted_round_resumes_witness :
  let w1 := (persistSnapshot (at_ms 150000) redHostVoted).2 in
  let w2 := step resume_effect (at_ms 170000) (reload w1) in
  currentRoundId (round w2) = currentRoundId (round redHostVoted)
  /\ scores (round w2) = scores (round redHostVoted)
  /\ voteEvents (round w2) = voteEvents (round redHostVoted)
  /\ lockedRole (session w2) = lockedRole (session redHostVoted)
  /\ offlineSnapshotMode (view w2) = true.
Proof.
  destruct (persisted_round_resumes (at_ms 150000) (at_ms 170000) redHostVoted
              (persistSnapshot (at_ms 150000) redHostVoted).2
              (restamp 1 150000 redHostVotedSnapshot))
    as (Hid & _ & _ & _ & Hsc & Hvotes & Hrole & _ & _ & Hoff).
  - exists votedPeersTrace. left. vm_compute. reflexivity.
  - reflexivity.
  - reflexivity.
  - reflexivity.
  - right. reflexivity.
  - intros [Hended _]. discriminate Hended.
  - repeat split; assumption.
Defined.



Lemma flushEffects_store w :
  localStorage (flushEffects w) = localStorage w /\ gid (flushEffects w) = gid w.
Proof. unfold flushEffects. by case_match. Qed.

(** X16: starting a new round forgets the snapshot of the round that was
    open: its stored snapshot is removed, the pointer to the last snapshot
    no longer names it, the snapshots of other rounds stay, the address
    loses its [gid], round and session are as when the component mounts,
    and a page loaded afterwards resumes nothing if the pointer named this
    round. *)
Theorem new_round_forgets_snapshot rid e e' w :
  storageOk e = true ->
  currentRoundIdRef (refs w) = Some rid -> rid <> "" ->
  let w' := step click_start_new_round e w in
  localStorage w' !! getSnapshotStorageKey rid = None
  /\ localStorage w' !! SNAPSHOT_LAST_ID_KEY <> Some (StoredId rid)
  /\ (forall other, other <> rid ->
        localStorage w' !! getSnapshotStorageKey other
        = localStorage w !! getSnapshotStorageKey other)
  /\ gid w' = None
  /\ round w' = round initialWorld
  /\ session w' = session initialWorld
  /\ (localStorage w !! SNAPSHOT_LAST_ID_KEY = Some (StoredId rid) ->
      snapshotToResume e' (reload w') = None).
Proof.
  intros Hok Href Hne w'.
  destruct (snapshot_key_not_fixed rid) as (Hk1 & Hk2 & Hk3).
  assert (localStorage w'
          = (if decide (getId SNAPSHOT_LAST_ID_KEY w = Some rid)
             then delete SNAPSHOT_LAST_ID_KEY
                    (delete (getSnapshotStorageKey rid)
                       (delete GAME_ID_STORAGE_KEY (localStorage w)))
             else delete (getSnapshotStorageKey rid)
                    (delete GAME_ID_STORAGE_KEY (localStorage w)))
          /\ gid w' = None
          /\ round w' = round initialWorld
          /\ session w' = session initialWorld) as (Hstore & Hgid & Hr & Hs).
  { subst w'. unfold step.
    destruct (flushEffects_store (handle click_start_new_round e w))
      as [-> ->].
    rewrite flushEffects_round, flushEffects_session.
    cbn [handle]. unfold handleStartNewRound.
    assert (or_str (or_str (currentRoundIdRef (refs w))
                           (currentGameId (view w))) None = Some rid) as ->.
    { rewrite Href. unfold or_str. simpl.
      rewrite !(bool_decide_eq_true_2 (rid ≠ "")) by done. simpl.
      by rewrite (bool_decide_eq_true_2 (rid ≠ "")) by done. }
    unfold resetGameState, tryStorage. rewrite Hok.
    unfold forgetSnapshotOf, getId, getItem. cbn.
    rewrite lookup_delete_ne by discriminate.
    repeat case_decide; try done. }
  assert (forall other,
            localStorage w' !! getSnapshotStorageKey other
            = if decide (other = rid) then None
              else localStorage w !! getSnapshotStorageKey other) as Hsnap.
  { intros other. rewrite Hstore.
    destruct (snapshot_key_not_fixed other) as (Ho1 & Ho2 & Ho3).
    assert (delete (getSnapshotStorageKey rid)
              (delete GAME_ID_STORAGE_KEY (localStorage w))
            !! getSnapshotStorageKey other
            = if decide (other = rid) then None
              else localStorage w !! getSnapshotStorageKey other) as Hin.
    { destruct (decide (other = rid)) as [->|Hother].
      - apply lookup_delete_eq.
      - rewrite !lookup_delete_ne; [done|done|].
        intros Heq. apply snapshot_key_inj in Heq. congruence. }
    destruct (decide (getId SNAPSHOT_LAST_ID_KEY w = Some rid)); [|done].
    by rewrite lookup_delete_ne. }
  assert (localStorage w' !! SNAPSHOT_LAST_ID_KEY
          = if decide (getId SNAPSHOT_LAST_ID_KEY w = Some rid) then None
            else localStorage w !! SNAPSHOT_LAST_ID_KEY) as Hlast.
  { rewrite Hstore.
    destruct (decide (getId SNAPSHOT_LAST_ID_KEY w = Some rid)).
    - apply lookup_delete_eq.
    - by rewrite !lookup_delete_ne by (done || discriminate). }
  split; [by rewrite Hsnap, decide_True|].
  split.
  { rewrite Hlast. case_decide as Hd; [done|].
    intros Heq. unfold getId, getItem in Hd. by rewrite Heq in Hd. }
  split; [by intros other Hother; rewrite Hsnap, decide_False|].
  do 3 (split; [done|]).
  intros Hwas. unfold snapshotToResume, getId, getItem. cbn.
  rewrite Hgid, Hlast. unfold getId, getItem. rewrite Hwas.
  by rewrite decide_True.
Qed.

Lemma new_round_forgets_snapshot_witness :
  let w := step persist_effect (at_ms 150000) redHostVoted in
  let w' := step click_start_new_round (at_ms 160000) w in
  localStorage w' !! getSnapshotStorageKey "r1" = None
  /\ snapshotToResume (at_ms 170000) (reload w') = None.
Proof.
  destruct (new_round_forgets_snapshot "r1" (at_ms 160000) (at_ms 170000)
              (step persist_effect (at_ms 150000) redHostVoted))
    as (Hgone & _ & _ & _ & _ & _ & Hres).
  - reflexivity.
  - reflexivity.
  - discriminate.
  - split; [assumption|]. apply Hres. reflexivity.
Defined.

Section Array_sort_more.
Context {A : Type} (cmp : A -> A -> Z) (R : relation A).
Hypothesis cmp_R : forall a b, cmp a b <= 0 <-> R a b.

Lemma Array_sort_sorted_id l : StronglySorted R l -> Array_sort cmp l = l.
Proof.
  induction l as [|x l IH]; [done|].
  intros [Hx Hl]%StronglySorted_cons. simpl. rewrite (IH Hl).
  destruct l as [|y l']; [done|]. simpl.
  apply Forall_cons in Hx as [Hxy _].
  apply cmp_R in Hxy. by rewrite decide_True.
Qed.
End Array_sort_more.

Lemma removeEntry_absent id l : id ∉ gameIds l -> removeEntry id l = l.
Proof.
  unfold removeEntry, gameIds. induction l as [|y l IH]; [done|].
  rewrite fmap_cons, not_elem_of_cons. intros [Hy Hl].
  rewrite filter_cons_True by done. by rewrite IH.
Qed.

Lemma insert_found id entry l i :
  NoDup (gameIds l) -> findIndex id l = Some i ->
  <[i:=entry]> l ≡ₚ entry :: removeEntry id l.
Proof.
  unfold findIndex. revert i. induction l as [|y l IH]; intros i; [done|].
  unfold gameIds. rewrite fmap_cons. intros [Hy Hl]%NoDup_cons.
  simpl. case_decide as Hid.
  - intros [= <-]. simpl. unfold removeEntry.
    rewrite filter_cons_False by (by intros ?).
    fold (removeEntry id l). rewrite removeEntry_absent; [done|].
    by rewrite <- Hid.
  - destruct (list_find _ l) as [[j x]|] eqn:Hfind; [|done].
    simpl. intros [= <-]. simpl. unfold removeEntry.
    rewrite filter_cons_True by done. fold (removeEntry id l).
    rewrite (IH j Hl eq_refl). apply Permutation_swap.
Qed.

(** X17: filing an ended round in the history index, whose round ids are
    distinct, leaves the index with exactly the new entry and the former
    entries of the other rounds: the former entry of the same round, if
    there was one, is replaced. *)
Theorem upsert_replaces_entry snapshot e w :
  NoDup (gameIds (historyIndex (view w))) ->
  snap_gameState snapshot = ended ->
  let w' := upsertHistoryIndex snapshot e w in
  historyIndex (view w')
  ≡ₚ toHistoryEntry snapshot
     :: removeEntry (snap_gameId snapshot) (historyIndex (view w)).
Proof.
  intros Hdup Hended. cbn zeta. unfold upsertHistoryIndex.
  rewrite decide_False by (by intros ?).
  cbn. unfold upsertEntry. rewrite (Array_sort_Permutation compareHistory).
  destruct (findIndex _ _) as [i|] eqn:Hfind.
  - by apply insert_found.
  - apply findIndex_None in Hfind. cbn in Hfind.
    rewrite removeEntry_absent by done.
    symmetry. apply Permutation_cons_append.
Qed.

Lemma upsert_replaces_entry_witness :
  let w := upsertHistoryIndex (endedSnapshot "g1" 200 1000) (at_ms 1000)
             initialWorld in
  historyIndex (view (upsertHistoryIndex (endedSnapshot "g1" 300 2000)
                        (at_ms 2000) w))
  ≡ₚ toHistoryEntry (endedSnapshot "g1" 300 2000)
     :: removeEntry "g1" (historyIndex (view w)).
Proof.
  apply (upsert_replaces_entry (endedSnapshot "g1" 300 2000)).
  - apply (bool_decide_unpack _). vm_compute. exact I.
  - reflexivity.
Defined.

Lemma persistEffect_ended e w base :
  storageOk e = true ->
  buildSnapshotFromState e w = Some base ->
  gameState (round w) = ended ->
  let s := restamp (snapshotVersionRef (refs w) + 1) (now e) base in
  let next := upsertEntry (toHistoryEntry s) (historyIndex (view w)) in
  let w1 := step persist_effect e w in
  historyIndex (view w1) = next
  /\ localStorage w1
     = <[HISTORY_INDEX_KEY := StoredIndex next]>
         (<[SNAPSHOT_LAST_ID_KEY := StoredId (snap_gameId base)]>
            (<[getSnapshotStorageKey (snap_gameId base) := StoredSnapshot s]>
               (localStorage w)))
  /\ historyViewSnapshots (view w1) = historyViewSnapshots (view w).
Proof.
  intros Hok Hb Hended. cbn zeta. unfold step.
  rewrite flushEffects_view.
  destruct (flushEffects_store (handle persist_effect e w)) as [-> _].
  cbn [handle]. unfold persistEffect.
  destruct (buildSnapshot_fields _ _ _ Hb)
    as (Hcur & Hne & Hst & Hst0 & Hen & Hen0 & Hrole & Hgs & _ & _).
  rewrite Hcur, Hst, Hen, Hrole, Hended. simpl.
  rewrite (bool_decide_eq_true_2 (snap_gameId base ≠ "")) by done.
  rewrite (bool_decide_eq_true_2 (snap_startTimeSec base ≠ 0)) by done.
  rewrite (bool_decide_eq_true_2 (snap_endTimeSec base ≠ 0)) by done.
  simpl.
  unfold persistSnapshot. rewrite Hb. unfold tryStorage. rewrite Hok.
  rewrite or_else_0. simpl. rewrite <- Hgs, Hended. simpl.
  unfold upsertHistoryIndex. simpl. rewrite <- Hgs, Hended. simpl.
  unfold tryStorage. by rewrite Hok.
Qed.

(** A game whose id is the name of a member of [Object.prototype] cannot
    be viewed: the look-up in the cache of opened snapshots gives the
    inherited member, which is shown in place of a snapshot, with no
    error, and the store is not read. *)
Lemma inherited_name_shows_no_snapshot gameId e w :
  gameId ∈ objectPrototypeKeys ->
  historyViewSnapshots (view w) !! gameId = None ->
  let w' := step (click_load_history gameId) e w in
  historyViewSnapshot (view w') = Some (inherited gameId)
  /\ historyError (view w') = None
  /\ localStorage w' = localStorage w.
Proof.
  intros Hin Hcache. cbn zeta. unfold step.
  destruct (flushEffects_store (handle (click_load_history gameId) e w))
    as [-> _].
  rewrite flushEffects_view. cbn [handle]. unfold handleLoadHistoryGame.
  assert (historyViewSnapshots (view (setHistoryError None w)) !! gameId
          = None) as -> by done.
  by rewrite bool_decide_eq_true_2.
Qed.

Example stored_game_named_constructor_not_shown :
  let s := endedSnapshot "constructor" 200 1000 in
  let w := initialWorld
             |> setItem (getSnapshotStorageKey "constructor") (StoredSnapshot s)
  in
  historyViewSnapshot
    (view (step (click_load_history "constructor") (at_ms 5000) w))
  = Some (inherited "constructor").
Proof. vm_compute. reflexivity. Qed.



Lemma load_history_reads e w l :
  storageOk e = true ->
  localStorage w !! HISTORY_INDEX_KEY = Some (StoredIndex l) ->
  StronglySorted newerFirst l ->
  historyIndex (view (step load_history_effect e (reload w))) = l.
Proof.
  intros Hok Hstore Hsorted. unfold step. rewrite flushEffects_view.
  cbn [handle]. unfold loadHistoryEffect. rewrite Hok. cbn [negb].
  unfold getItem.
  assert (localStorage (reload w) = localStorage w) as -> by done.
  rewrite Hstore. cbn.
  by apply (Array_sort_sorted_id compareHistory newerFirst
              compareHistory_newerFirst).
Qed.

Lemma Array_sort_ok l : historyOk l -> historyOk (Array_sort compareHistory l).
Proof.
  intros [Hsorted Hdup].
  by rewrite (Array_sort_sorted_id compareHistory newerFirst
                compareHistory_newerFirst).
Qed.

Lemma step_index ev e w :
  indexOk w -> historyOk (historyIndex (view (step ev e w))).
Proof.
  intros [Hidx Hst]. unfold step. rewrite flushEffects_view.
  each_branch ev; try done.
  all: try (by apply upsertEntry_ok).
  all: try (by apply removeEntry_ok).
  all: apply Array_sort_ok; unfold getItem in *; eauto.
Qed.

Lemma step_stored_index ev e w :
  indexOk w ->
  forall k l, localStorage (step ev e w) !! k = Some (StoredIndex l) ->
              historyOk l.
Proof.
  intros [Hidx Hst] k l. unfold step.
  destruct (flushEffects_store (handle ev e w)) as [-> _].
  each_branch ev; try (by apply Hst).
  all: unfold setItem, removeItem, getId, getItem in *; cbn;
    repeat first [ rewrite lookup_insert_Some | rewrite lookup_delete_Some ];
    intros Hk;
    repeat match goal with
           | H : _ /\ _ |- _ => destruct H
           | H : _ \/ _ |- _ => destruct H
           end; simplify_eq; eauto.
  all: try (by apply upsertEntry_ok).
  all: try (by apply removeEntry_ok).
Qed.

Lemma step_indexOk ev e w : indexOk w -> indexOk (step ev e w).
Proof.
  intros Hw. split; [by apply step_index | by apply step_stored_index].
Qed.

Lemma initial_indexOk : indexOk initialWorld.
Proof.
  split; [split; constructor|].
  intros k l Hk. cbn in Hk. by rewrite lookup_empty in Hk.
Qed.

Lemma peers_indexOk pevs : forall p,
  indexOk (peerA p) -> indexOk (peerB p) ->
  indexOk (peerA (peersRun pevs p)) /\ indexOk (peerB (peersRun pevs p)).
Proof.
  induction pevs as [|[pev e] pevs IH]; intros p Ha Hb; [by split|].
  cbn [peersRun]. apply IH.
  - destruct pev as [ev|ev|k|k]; simpl; repeat case_match; simpl;
      try assumption; by apply step_indexOk.
  - destruct pev as [ev|ev|k|k]; simpl; repeat case_match; simpl;
      try assumption; by apply step_indexOk.
Qed.

Lemma amongPeers_indexOk w : amongPeers w -> indexOk w.
Proof.
  intros [pevs Hw].
  destruct (peers_indexOk pevs freshPeers initial_indexOk initial_indexOk).
  by destruct Hw as [-> | ->].
Qed.

(** X19: the history index survives the loading of the page.  The
    component is one of two that began fresh and received nothing but
    what the other sent: every number in its index is whole and finite,
    so that the store returns it as it was written, and the index is
    sorted with one entry per round.  After the persist effect filed an
    ended round, or a game was deleted from the index, with a working
    store, the index that the load effect reads back on a fresh page is
    the index the component had. *)
Theorem history_survives_reload ev e e' w :
  amongPeers w ->
  storageOk e = true -> storageOk e' = true ->
  match ev with
  | persist_effect =>
      gameState (round w) = ended /\ is_Some (buildSnapshotFromState e w)
  | click_delete_history _ => True
  | _ => False
  end ->
  let w1 := step ev e w in
  let w2 := step load_history_effect e' (reload w1) in
  historyIndex (view w2) = historyIndex (view w1).
Proof.
  intros Hpeers Hok Hok' Hev w1 w2. subst w2.
  destruct (amongPeers_indexOk w Hpeers) as [Hhist _].
  destruct ev; try done.
  - destruct Hev as [Hended [base Hb]].
    destruct (persistEffect_ended e w base Hok Hb Hended)
      as (Hidx & Hstore & _).
    fold w1 in Hidx, Hstore.
    apply load_history_reads; [done| |].
    + by rewrite Hstore, Hidx, lookup_insert_eq.
    + rewrite Hidx. by apply upsertEntry_ok.
  - assert (historyIndex (view w1) = removeEntry gameId (historyIndex (view w))
            /\ localStorage w1 !! HISTORY_INDEX_KEY
               = Some (StoredIndex (removeEntry gameId (historyIndex (view w)))))
      as [Hidx Hstore].
    { subst w1. unfold step. rewrite flushEffects_view.
      destruct (flushEffects_store (handle (click_delete_history gameId) e w))
        as [-> _].
      cbn [handle]. unfold handleDeleteHistoryGame, tryStorage. rewrite Hok.
      case_decide; cbn; (split; [done|]);
        rewrite lookup_delete_ne by
          (intros Heq; by destruct (snapshot_key_not_fixed gameId) as (_&?&_));
        apply lookup_insert_eq. }
    apply load_history_reads; [done| |].
    + by rewrite Hstore, Hidx.
    + rewrite Hidx. by apply removeEntry_ok.
Qed.

Lemma history_survives_reload_witness :
  let w1 := step persist_effect (at_ms 200000) redHostEnded in
  historyIndex (view (step load_history_effect (at_ms 300000) (reload w1)))
  = historyIndex (view w1).
Proof.
  apply (history_survives_reload persist_effect (at_ms 200000) (at_ms 300000)
           redHostEnded).
  - exists (votedPeersTrace ++ [ (in_a timer_effect, at_ms 100000);
                                 (in_a interval_tick, at_ms 200000) ]).
    left. vm_compute. reflexivity.
  - reflexivity.
  - reflexivity.
  - split; [reflexivity|]. exists redHostEndedSnapshot.
    vm_compute. reflexivity.
Defined.



(** X21: what the component sends fits the state it sends it from.  One
    event sends at most one message, and each message it sends is
    [wellSent]: a vote is for the role opposite to the sender's own, in
    the running current round, with an elapsed time that is not negative;
    a [start] has a finite end in the sender's future and carries roles;
    [assignRoles] gives the guest the role opposite to the host's and
    re-uses the session id when there is one; a snapshot is the one built
    from the state, under its own round id; each message of a negotiation
    names the current round, and an acceptance or rejection carries the
    end time that was proposed. *)
Theorem sent_messages_fit_state ev e w :
  exists new,
    sent (step ev e w) = sent w ++ new
    /\ (length new <= 1)%nat
    /\ Forall (wellSent e w) new.
Proof.
  unfold step. rewrite flushEffects_sent.
  each_branch ev.
  all: first [ exists []; rewrite app_nil_r;
               split; [reflexivity|split; [simpl; lia|constructor]]
             | eexists [_]; split; [reflexivity|split; [simpl; lia|]] ].
  all: apply Forall_singleton; unfold wellSent; bool_hyps.
  all: repeat match goal with
              | |- _ /\ _ => split
              | |- exists en, Fin ?z = Fin en /\ _ => exists z
              | |- exists r hg, _ = Some r /\ Some ?x = Some hg /\ _ =>
                  eexists _, x
              | |- forall s, _ = Some s -> _ => intros ? ->
              | |- _ -> _ => intros ?
              end;
         try done; try lia; try congruence.
  all: try by (match goal with |- context [other (other ?r)] =>
                 destruct r end).
  all: try by (match goal with
               | n : ¬ ?a ≠ ?b |- ?a = ?b => apply dec_stable
               end).
  all: try by (match goal with
               | H : connectionModeRef _ = _ |- _ => rewrite H
               end).
  all: simpl; by destruct r.
Qed.

(** X22: a locked role stays.  While the role is locked, only what the
    peer sends (roles, a start with roles, a vote that triggers the
    resynchronisation, a snapshot), the resumption of a stored round, and
    leaving the session (a new round, answering a new connection, the
    clean-up) can change it; no other event does, and in particular the
    user's choice of another role is refused. *)
Theorem locked_role_stays r ev e w :
  roleLocked (session w) = true ->
  lockedRole (session w) = Some r ->
  lockedRoleRef (refs w) = Some r ->
  changesRole ev = false ->
  lockedRole (session (step ev e w)) = Some r
  /\ roleLocked (session (step ev e w)) = true.
Proof.
  intros Hlocked Hrole Href Hev. unfold step. rewrite flushEffects_session.
  destruct ev as [[]| | | | | | | | | | | | | | | | | | | | | | | | | | | | | | | | | |];
    try discriminate Hev;
    cbn [handle]; unfold_handlers; unfold currentLockedRole in *;
    repeat case_match; simplify_eq/=; try done; try congruence.
  rewrite Hlocked in *. cbn in *. bool_hyps.
  by subst.
Qed.

Lemma locked_role_stays_witness :
  lockedRole (session (step (click_select_role blue) (at_ms 150000)
                         redHostRunning)) = Some red.
Proof.
  apply (locked_role_stays red (click_select_role blue)); reflexivity.
Defined.

(** X23: a history view is read-only: while a game of the history is
    shown, starting a round, voting and proposing a new or an immediate
    end change nothing of the live round, send nothing and show the error
    of that action. *)
Theorem history_view_read_only ev t e w :
  is_Some (historyViewSnapshot (view w)) ->
  refusedInHistoryView ev = Some t ->
  round (step ev e w) = round w
  /\ sent (step ev e w) = sent w
  /\ error (notices (step ev e w)) = Some t.
Proof.
  intros Hview Hev. unfold step.
  rewrite flushEffects_round, flushEffects_sent, flushEffects_notices.
  destruct ev; try discriminate Hev; cbn in Hev; simplify_eq;
    cbn [handle]; unfold_handlers; by rewrite decide_True.
Qed.

Lemma history_view_read_only_witness :
  let w := step (click_load_history "r1") (at_ms 300000)
             (step persist_effect (at_ms 200000) redHostEnded) in
  round (step click_vote (at_ms 310000) w) = round w
  /\ error (notices (step click_vote (at_ms 310000) w))
     = Some txt_vote_history_readonly.
Proof.
  destruct (history_view_read_only click_vote txt_vote_history_readonly
              (at_ms 310000)
              (step (click_load_history "r1") (at_ms 300000)
                 (step persist_effect (at_ms 200000) redHostEnded)))
    as (Hround & _ & Herr).
  - exists (viewed (restamp 1 200000 redHostEndedSnapshot)).
    vm_compute. reflexivity.
  - reflexivity.
  - split; assumption.
Defined.

Lemma fixed_keys_differ :
  GAME_ID_STORAGE_KEY <> SNAPSHOT_LAST_ID_KEY
  /\ GAME_ID_STORAGE_KEY <> HISTORY_INDEX_KEY
  /\ SNAPSHOT_LAST_ID_KEY <> HISTORY_INDEX_KEY.
Proof. repeat split; discriminate. Qed.

(** X24: stored snapshots are deleted only at the user's word.  Unless
    the event is a new round, the discarding of a snapshot or the deletion
    of a game from the history, every snapshot that is in the store is
    still there after it, and so is the stored history index. *)
Theorem snapshots_deleted_only_by_user ev e w :
  deletesSnapshot ev = false ->
  (forall gameId,
     is_Some (localStorage w !! getSnapshotStorageKey gameId) ->
     is_Some (localStorage (step ev e w) !! getSnapshotStorageKey gameId))
  /\ (is_Some (localStorage w !! HISTORY_INDEX_KEY) ->
      is_Some (localStorage (step ev e w) !! HISTORY_INDEX_KEY)).
Proof.
  intros Hev. unfold step.
  destruct (flushEffects_store (handle ev e w)) as [-> _].
  destruct fixed_keys_differ as (Hf1 & Hf2 & Hf3).
  assert (forall gameId,
            getSnapshotStorageKey gameId <> SNAPSHOT_LAST_ID_KEY
            /\ getSnapshotStorageKey gameId <> HISTORY_INDEX_KEY
            /\ getSnapshotStorageKey gameId <> GAME_ID_STORAGE_KEY) as Hk
    by apply snapshot_key_not_fixed.
  destruct ev as [[]| | | | | | | | | | | | | | | | | | | | | | | | | | | | | | | | | |];
    try discriminate Hev;
    cbn [handle]; unfold_handlers;
    repeat case_match; simplify_eq/=; try done.
  all: split; [intros gid0 Hin; destruct (Hk gid0) as (?&?&?)
              | intros Hin ].
  all: unfold setItem, removeItem; cbn;
    repeat first [ rewrite lookup_delete_ne by done
                 | rewrite lookup_insert_is_Some ]; eauto.
  all: repeat match goal with
              | |- ?a = ?b \/ _ =>
                  destruct (decide (a = b)); [by left | right; split; [done|]]
              end; done.
Qed.

Lemma snapshots_deleted_only_by_user_witness :
  let w := step persist_effect (at_ms 150000) redHostVoted in
  is_Some (localStorage (step unmount (at_ms 160000) w)
             !! getSnapshotStorageKey "r1").
Proof.
  destruct (snapshots_deleted_only_by_user unmount (at_ms 160000)
              (step persist_effect (at_ms 150000) redHostVoted))
    as [Hsnap _].
  - reflexivity.
  - apply Hsnap.
    exists (StoredSnapshot (restamp 1 150000 redHostVotedSnapshot)).
    vm_compute. reflexivity.
Defined.

Lemma tallySecond_counts second events acc :
  tallySecond second events acc
  = (acc.1 + votesFor red (filter (fun v => elapsed v = second) events),
     acc.2 + votesFor blue (filter (fun v => elapsed v = second) events)).
Proof.
  unfold tallySecond. revert acc.
  induction events as [|v events IH]; intros [a b]; simpl.
  { f_equal; lia. }
  rewrite IH. rewrite filter_cons. case_decide as Hv; simpl.
  - destruct (target v); simpl; repeat case_decide; try done; f_equal; lia.
  - done.
Qed.

Lemma votesUpTo_step r k events :
  0 <= k ->
  votesUpTo r k events
  = votesUpTo r (k - 1) events
    + votesFor r (filter (fun v => elapsed v = k) events).
Proof.
  intros Hk. unfold votesUpTo.
  induction events as [|v events IH]; [done|].
  rewrite !filter_cons.
  repeat case_decide; simpl; try lia.
Qed.

Lemma votesUpTo_before r events : votesUpTo r (-1) events = 0.
Proof.
  unfold votesUpTo. induction events as [|v events IH]; [done|].
  rewrite filter_cons. case_decide; [lia|done].
Qed.

Lemma chartLoop_length events n second acc :
  length (chartLoop events n second acc) = n.
Proof.
  revert second acc. induction n as [|n IH]; intros; simpl; [done|].
  by rewrite IH.
Qed.

Lemma chartLoop_lookup events n second acc (j : nat) :
  0 <= second ->
  acc = (votesUpTo red (second - 1) events, votesUpTo blue (second - 1) events) ->
  (j < n)%nat ->
  chartLoop events n second acc !! j
  = Some {| pt_second := second + Z.of_nat j;
            pt_red := votesUpTo red (second + Z.of_nat j) events;
            pt_blue := votesUpTo blue (second + Z.of_nat j) events |}.
Proof.
  revert second acc j. induction n as [|n IH]; intros second acc j Hs Hacc Hj;
    [lia|].
  simpl. rewrite tallySecond_counts, Hacc. simpl.
  rewrite <- !votesUpTo_step by done.
  destruct j as [|j]; simpl.
  - by rewrite Z.add_0_r.
  - rewrite (IH (second + 1) _ j); [|lia| |lia].
    + by replace (second + 1 + Z.of_nat j) with (second + Z.of_nat (S j))
        by lia.
    + by replace (second + 1 - 1) with second by lia.
Qed.

Lemma chartPoints_lookup events finalDuration k :
  0 <= k <= finalDuration ->
  chartPoints events finalDuration !! Z.to_nat k
  = Some {| pt_second := k; pt_red := votesUpTo red k events;
            pt_blue := votesUpTo blue k events |}.
Proof.
  intros Hk. unfold chartPoints.
  rewrite (chartLoop_lookup events _ 0 (0, 0) (Z.to_nat k)); [|lia| |lia].
  - by rewrite Z2Nat.id by lia.
  - by rewrite !votesUpTo_before.
Qed.

Lemma foldr_max_base m l : m <= foldr Z.max m l.
Proof.
  induction l as [|x l IH]; [done|].
  change (m <= Z.max x (foldr Z.max m l)). lia.
Qed.

Lemma foldr_max_elem m l x : x ∈ l -> x <= foldr Z.max m l.
Proof.
  induction l as [|y l IH]; [by intros ?%elem_of_nil|].
  rewrite elem_of_cons.
  change (x = y \/ x ∈ l -> x <= Z.max y (foldr Z.max m l)).
  intros [->|Hl]; [lia|]. specialize (IH Hl). lia.
Qed.

Lemma maxElapsed_bound events v :
  v ∈ events -> elapsed v <= maxElapsedFromVotes events.
Proof.
  destruct events as [|v0 events]; [by intros ?%elem_of_nil|].
  unfold maxElapsedFromVotes.
  intros [->|Hin]%elem_of_cons; [apply foldr_max_base|].
  apply foldr_max_elem. by apply list_elem_of_fmap_2.
Qed.

Lemma filter_all {A} (P : A -> Prop) `{!forall x, Decision (P x)} (l : list A) :
  Forall P l -> filter P l = l.
Proof.
  induction 1 as [|x l Hx Hl IH]; [done|].
  by rewrite filter_cons_True, IH.
Qed.

Lemma votesUpTo_all r k events :
  Forall (fun v => 0 <= elapsed v) events ->
  maxElapsedFromVotes events <= k ->
  votesUpTo r k events = votesFor r events.
Proof.
  intros Hpos Hk. unfold votesUpTo. f_equal.
  apply filter_all.
  apply Forall_forall. intros v Hv.
  pose proof (maxElapsed_bound events v Hv).
  pose proof (proj1 (Forall_forall _ _) Hpos v Hv). simpl in *. lia.
Qed.

Lemma snapshotToResume_stored e w s :
  snapshotToResume e w = Some s ->
  exists k, localStorage w !! k = Some (StoredSnapshot s).
Proof.
  unfold snapshotToResume, getItem. intros H.
  repeat case_match; simplify_eq/=. eauto.
Qed.

Lemma buildSnapshot_sound e w s :
  tallyOk w -> Forall (fun v => 0 <= elapsed v) (voteEvents (round w)) ->
  buildSnapshotFromState e w = Some s -> soundSnapshot s.
Proof.
  intros Ht Hl Hs. split; [by eapply buildSnapshot_tally|].
  unfold buildSnapshotFromState in Hs. repeat case_match; simplify_eq/=.
  by apply Forall_fmap.
Qed.

Lemma restamp_sound v t s : soundSnapshot s -> soundSnapshot (restamp v t s).
Proof. by intros [? ?]. Qed.

Lemma step_log_nonneg ev e w :
  soundEvent ev -> soundWorld w ->
  Forall (fun v => 0 <= elapsed v) (voteEvents (round (step ev e w))).
Proof.
  intros Hev (Ht & Hl & Hm & Hst). rewrite step_round.
  each_branch ev; try done.
  all: try (apply Forall_app; split; [done|]; apply Forall_singleton; simpl;
            first [lia | done]).
  all: try (apply Forall_fmap; simpl; by destruct Hev).
  all: try match goal with
       | H : snapshotToResume _ _ = Some ?s |- _ =>
           apply snapshotToResume_stored in H as [k Hk];
           destruct (Hst _ _ Hk) as [_ Hs]; by apply Forall_fmap
       end.
Qed.

Lemma step_sent_sound ev e w :
  soundWorld w -> Forall soundMessage (sent (step ev e w)).
Proof.
  intros (Ht & Hl & Hm & Hst). unfold step. rewrite flushEffects_sent.
  each_branch ev; try done.
  all: apply Forall_app; split; [done|]; apply Forall_singleton; simpl;
    try done; try lia.
  all: by eapply buildSnapshot_sound.
Qed.

Lemma step_store_sound ev e w :
  soundEvent ev -> soundWorld w ->
  forall k s, localStorage (step ev e w) !! k = Some (StoredSnapshot s) ->
              soundSnapshot s.
Proof.
  intros Hev (Ht & Hl & Hm & Hst) k s. unfold step.
  destruct (flushEffects_store (handle ev e w)) as [-> _].
  each_branch ev; try (by apply Hst).
  all: unfold setItem, removeItem, getId, getItem in *; cbn;
    repeat first [ rewrite lookup_insert_Some | rewrite lookup_delete_Some ];
    intros Hk;
    repeat match goal with
           | H : _ /\ _ |- _ => destruct H
           | H : _ \/ _ |- _ => destruct H
           end; simplify_eq; eauto.
  all: try (apply restamp_sound; by eapply buildSnapshot_sound).
  all: try exact Hev.
  all: match goal with
       | H : snapshotToResume _ _ = Some ?s |- _ =>
           apply snapshotToResume_stored in H as [k0 Hk0]; eauto
       end.
Qed.

Lemma step_sound ev e w :
  soundEvent ev -> soundWorld w -> soundWorld (step ev e w).
Proof.
  intros Hev Hw. split; [|split; [|split]].
  - destruct Hw as (Ht & Hl & Hm & Hst).
    apply step_tallyOk; [done|].
    destruct ev as [[]| | | | | | | | | | | | | | | | | | | | | | | | | | | | | | | | | |];
      try done.
    + by destruct Hev.
    + intros s Hs. apply snapshotToResume_stored in Hs as [k Hk].
      by destruct (Hst _ _ Hk).
  - by apply step_log_nonneg.
  - by apply step_sent_sound.
  - by apply step_store_sound.
Qed.

Lemma initial_sound : soundWorld initialWorld.
Proof.
  split; [by intros []|]. split; [constructor|]. split; [constructor|].
  intros k s Hk. cbn in Hk. by rewrite lookup_empty in Hk.
Qed.

Lemma peersStep_sound pev e p :
  soundWorld (peerA p) -> soundWorld (peerB p) ->
  soundWorld (peerA (peersStep pev e p))
  /\ soundWorld (peerB (peersStep pev e p)).
Proof.
  intros Ha Hb.
  assert (forall q ev, soundWorld q -> isLocal ev = true ->
                       soundWorld (step ev e q)) as Hlocal.
  { intros q ev Hq Hev. apply step_sound; [|assumption]. by destruct ev. }
  assert (forall q q' k msg, soundWorld q -> soundWorld q' ->
                             sent q' !! k = Some msg ->
                             soundWorld (step (onmessage msg) e q)) as Harrive.
  { intros q q' k msg Hq (_ & _ & Hm & _) Hk.
    apply step_sound; [|assumption].
    exact (proj1 (Forall_lookup _ _) Hm k msg Hk). }
  destruct pev as [ev|ev|k|k]; simpl.
  - destruct (isLocal ev) eqn:Hev; simpl; split; auto.
  - destruct (isLocal ev) eqn:Hev; simpl; split; auto.
  - destruct (sent (peerA p) !! k) as [msg|] eqn:Hk; simpl; split; eauto.
  - destruct (sent (peerB p) !! k) as [msg|] eqn:Hk; simpl; split; eauto.
Qed.

Lemma peers_sound pevs : forall p,
  soundWorld (peerA p) -> soundWorld (peerB p) ->
  soundWorld (peerA (peersRun pevs p)) /\ soundWorld (peerB (peersRun pevs p)).
Proof.
  induction pevs as [|[pev e] pevs IH]; intros p Ha Hb; [by split|].
  cbn [peersRun].
  destruct (peersStep_sound pev e p Ha Hb) as [Ha' Hb']. by apply IH.
Qed.

Lemma amongPeers_sound w : amongPeers w -> soundWorld w.
Proof.
  intros [pevs Hw].
  destruct (peers_sound pevs freshPeers initial_sound initial_sound).
  by destruct Hw as [-> | ->].
Qed.

Lemma votesUpTo_nonneg r k events :
  Forall (fun v => 0 <= elapsed v) events ->
  votesUpTo r k events = votesBy r k events.
Proof.
  intros Hpos. unfold votesUpTo, votesBy. f_equal.
  induction Hpos as [|v events Hv _ IH]; [done|].
  rewrite !filter_cons, IH.
  destruct (decide (0 <= elapsed v <= k)), (decide (elapsed v <= k));
    (done || lia).
Qed.

(** X25: in a component that is one of two that began fresh and received
    nothing but what the other sent, where every elapsed time is a whole
    number of seconds that is not negative, the chart of a round that has
    an id and a positive duration has one point for each second from 0 to
    its final duration, and the point of second [k] shows, for each role,
    the votes cast up to second [k]. *)
Theorem chart_counts_votes_so_far w k :
  amongPeers w ->
  truthy_str (currentRoundId (round w)) = true ->
  0 < chartFinalDuration w ->
  0 <= k <= chartFinalDuration w ->
  length (chartData w) = Z.to_nat (chartFinalDuration w + 1)
  /\ chartData w !! Z.to_nat k
     = Some {| pt_second := k;
               pt_red := votesBy red k (voteEvents (round w));
               pt_blue := votesBy blue k (voteEvents (round w)) |}.
Proof.
  intros Hpeers Hid Hpos Hk.
  destruct (amongPeers_sound w Hpeers) as (_ & Hel & _).
  unfold chartData. rewrite Hid.
  rewrite bool_decide_eq_false_2 by lia. simpl.
  split; [apply chartLoop_length|].
  rewrite <- !votesUpTo_nonneg by done. by apply chartPoints_lookup.
Qed.

Lemma chart_counts_votes_so_far_witness :
  chartData redHostVoted !! Z.to_nat 30
  = Some {| pt_second := 30;
            pt_red := votesBy red 30 (voteEvents (round redHostVoted));
            pt_blue := votesBy blue 30 (voteEvents (round redHostVoted)) |}.
Proof.
  destruct (chart_counts_votes_so_far redHostVoted 30) as [_ Hlook].
  - exists votedPeersTrace. left. vm_compute. reflexivity.
  - vm_compute. reflexivity.
  - vm_compute. reflexivity.
  - split; vm_compute; discriminate.
  - assumption.
Defined.

(** X26: the chart ends at the scores.  In a component that is one of two
    that began fresh and received nothing but what the other sent, the
    scores are the counts of the vote log and every elapsed time is a
    whole number of seconds that is not negative; the last point of the
    chart of a round that has an id and a positive duration is then at
    the final duration and shows the two scores. *)
Theorem chart_ends_at_scores w :
  amongPeers w ->
  truthy_str (currentRoundId (round w)) = true ->
  0 < chartFinalDuration w ->
  last (chartData w)
  = Some {| pt_second := chartFinalDuration w;
            pt_red := score_red (scores (round w));
            pt_blue := score_blue (scores (round w)) |}.
Proof.
  intros Hpeers Hid Hpos.
  destruct (amongPeers_sound w Hpeers) as (Htally & Hel & _).
  unfold chartData at 1. rewrite Hid.
  rewrite bool_decide_eq_false_2 by lia. cbn [negb orb].
  rewrite last_lookup. unfold chartPoints at 1. rewrite chartLoop_length.
  replace (Nat.pred (Z.to_nat (chartFinalDuration w + 1)))
    with (Z.to_nat (chartFinalDuration w)) by lia.
  rewrite chartPoints_lookup by lia.
  rewrite !votesUpTo_all by (done || unfold chartFinalDuration; lia).
  by rewrite <- (Htally red), <- (Htally blue).
Qed.

Lemma chart_ends_at_scores_witness :
  last (chartData redHostVoted)
  = Some {| pt_second := chartFinalDuration redHostVoted;
            pt_red := score_red (scores (round redHostVoted));
            pt_blue := score_blue (scores (round redHostVoted)) |}.
Proof.
  apply chart_ends_at_scores.
  - exists votedPeersTrace. left. vm_compute. reflexivity.
  - reflexivity.
  - reflexivity.
Defined.

Lemma buildSnapshot_events e w s :
  buildSnapshotFromState e w = Some s ->
  toVoteEvent <$> snap_events s = voteEvents (round w).
Proof.
  unfold buildSnapshotFromState. intros Hs.
  repeat case_match; simplify_eq/=.
  rewrite <- list_fmap_compose.
  rewrite <- (list_fmap_id (voteEvents (round w))) at 2.
  apply list_fmap_ext. by intros _ [] _.
Qed.

Lemma step_resolved_end ev e w :
  resolvedEndTimeSec (round w) = endTimeSec (round w) ->
  resolvedEndTimeSec (round (step ev e w)) = endTimeSec (round (step ev e w)).
Proof.
  intros Hinv. rewrite step_round. each_branch ev; try done; congruence.
Qed.

Lemma run_resolved_end tr :
  resolvedEndTimeSec (round (run tr initialWorld))
  = endTimeSec (round (run tr initialWorld)).
Proof.
  assert (forall w, resolvedEndTimeSec (round w) = endTimeSec (round w) ->
            resolvedEndTimeSec (round (run tr w))
            = endTimeSec (round (run tr w))) as Hrun.
  { induction tr as [|[ev e] tr IH]; intros w Hw; [done|].
    simpl. by apply IH, step_resolved_end. }
  by apply Hrun.
Qed.

(** X27: the chart of a stored round is the chart of the live round: for
    every state that the component reaches from its mounting, the chart
    built from the snapshot of the state is the chart of the state. *)
Theorem history_chart_matches_live tr e s :
  let w := run tr initialWorld in
  buildSnapshotFromState e w = Some s ->
  buildChartDataForSnapshot s = chartData w.
Proof.
  intros w Hs.
  pose proof (run_resolved_end tr) as Hres. fold w in Hres.
  destruct (buildSnapshot_fields _ _ _ Hs)
    as (Hcur & Hne & Hst & Hst0 & Hen & Hen0 & _ & _ & _ & _).
  pose proof (buildSnapshot_events _ _ _ Hs) as Hev.
  unfold buildChartDataForSnapshot, chartData, chartFinalDuration,
    liveTotalDurationSec.
  rewrite Hev, Hres, Hst, Hen, Hcur. simpl.
  rewrite (bool_decide_eq_true_2 (snap_gameId s ≠ "")) by done.
  rewrite (bool_decide_eq_true_2 (snap_startTimeSec s ≠ 0)) by done.
  rewrite (bool_decide_eq_true_2 (snap_endTimeSec s ≠ 0)) by done.
  simpl. case_decide; [by rewrite bool_decide_eq_true_2|].
  by rewrite bool_decide_eq_false_2.
Qed.

Lemma history_chart_matches_live_witness :
  buildChartDataForSnapshot redHostSnapshot = chartData redHostRunning.
Proof.
  apply (history_chart_matches_live redHostTrace (at_ms 150000)).
  reflexivity.
Defined.

(** X28: the button for a new game asks first: while the round is
    running, or the store points to a last snapshot, the click opens the
    confirmation and changes nothing. *)
Theorem new_game_asks_before_discarding e w :
  storageOk e = true ->
  gameState (round w) = running
  \/ (exists gameId, gameId <> ""
        /\ localStorage w !! SNAPSHOT_LAST_ID_KEY = Some (StoredId gameId)) ->
  handleNewGameClick e w = (true, w).
Proof.
  intros Hok Hkeep. unfold handleNewGameClick. rewrite Hok.
  destruct Hkeep as [Hrun | (gameId & Hne & Hlast)].
  - by rewrite Hrun.
  - unfold getId, getItem. rewrite Hlast. simpl.
    rewrite (bool_decide_eq_true_2 (gameId ≠ "")) by done.
    by rewrite orb_true_r.
Qed.

Lemma new_game_asks_before_discarding_witness :
  handleNewGameClick (at_ms 150000) redHostRunning = (true, redHostRunning).
Proof.
  apply new_game_asks_before_discarding; [reflexivity|].
  left. reflexivity.
Defined.

Lemma base64Digit_safe i :
  0 <= i < 64 -> urlSafe (urlSafeChar (base64Digit i)) = true.
Proof.
  intros Hi. unfold base64Digit.
  assert (Z.to_nat i < 64)%nat as Hn by lia.
  generalize dependent (Z.to_nat i). intros n Hn.
  do 64 (destruct n as [|n]; [reflexivity|]). lia.
Qed.

Lemma base64Digit_not_pad i :
  0 <= i < 64 -> urlSafeChar (base64Digit i) <> char "=".
Proof.
  intros Hi Heq. pose proof (base64Digit_safe i Hi) as Hs.
  by rewrite Heq in Hs.
Qed.

Lemma urlSafe_pad : urlSafe (char "=") = false.
Proof. reflexivity. Qed.

Lemma stripPadding_none l :
  Forall (fun c => urlSafe c = true) l -> stripPadding l = l.
Proof.
  induction 1 as [|c l Hc Hl IH]; [done|].
  simpl. rewrite IH. destruct l; [|done].
  case_decide as Heq; [|done]. subst c. discriminate Hc.
Qed.

Lemma sextets_range a b c :
  0 <= a < 256 -> 0 <= b < 256 -> 0 <= c < 256 ->
  let n := a * 65536 + b * 256 + c in
  0 <= n / 262144 < 64 /\ 0 <= n / 4096 mod 64 < 64
  /\ 0 <= n / 64 mod 64 < 64 /\ 0 <= n mod 64 < 64.
Proof. intros. subst n. Z.div_mod_to_equations. lia. Qed.

Lemma sextets_inj a b c a' b' c' :
  0 <= a < 256 -> 0 <= b < 256 -> 0 <= c < 256 ->
  0 <= a' < 256 -> 0 <= b' < 256 -> 0 <= c' < 256 ->
  let n := a * 65536 + b * 256 + c in
  let n' := a' * 65536 + b' * 256 + c' in
  n / 262144 = n' / 262144 ->
  n / 4096 mod 64 = n' / 4096 mod 64 ->
  n / 64 mod 64 = n' / 64 mod 64 ->
  n mod 64 = n' mod 64 ->
  a = a' /\ b = b' /\ c = c'.
Proof. intros. subst n n'. Z.div_mod_to_equations. lia. Qed.

Lemma safe_digit_inj i j :
  0 <= i < 64 -> 0 <= j < 64 ->
  urlSafeChar (base64Digit i) = urlSafeChar (base64Digit j) -> i = j.
Proof.
  intros Hi Hj. unfold base64Digit.
  rewrite <- !(map_nth urlSafeChar).
  assert (NoDup (map urlSafeChar base64Alphabet)) as Hnd.
  { apply (bool_decide_unpack _). by vm_compute. }
  apply NoDup_ListNoDup in Hnd. intros Heq.
  assert (Z.to_nat i = Z.to_nat j); [|lia].
  eapply (proj1 (List.NoDup_nth _ _) Hnd); [| |exact Heq].
  all: rewrite length_map; change (length base64Alphabet) with 64%nat; lia.
Qed.

Lemma btoa_triples (k : nat) : forall bytes,
  length bytes = (3 * k)%nat ->
  Forall (fun b => 0 <= b < 256) bytes ->
  length (btoa bytes) = (4 * k)%nat
  /\ Forall (fun c => urlSafe c = true) (urlSafeChar <$> btoa bytes).
Proof.
  induction k as [|k IH]; intros bytes Hlen Hrange.
  { destruct bytes; [|done]. split; [done|constructor]. }
  destruct bytes as [|a [|b [|c rest]]]; try (simpl in Hlen; lia).
  apply Forall_cons in Hrange as [Ha Hrange].
  apply Forall_cons in Hrange as [Hb Hrange].
  apply Forall_cons in Hrange as [Hc Hrange].
  destruct (IH rest) as [IHlen IHsafe]; [simpl in Hlen; lia|done|].
  destruct (sextets_range a b c Ha Hb Hc) as (H1 & H2 & H3 & H4).
  cbn [btoa]. split.
  - simpl. rewrite IHlen. lia.
  - rewrite !fmap_cons.
    repeat (apply Forall_cons; split; [by apply base64Digit_safe|]).
    exact IHsafe.
Qed.

Lemma btoa_inj (k : nat) : forall a b,
  length a = (3 * k)%nat -> length b = (3 * k)%nat ->
  Forall (fun x => 0 <= x < 256) a -> Forall (fun x => 0 <= x < 256) b ->
  urlSafeChar <$> btoa a = urlSafeChar <$> btoa b -> a = b.
Proof.
  induction k as [|k IH]; intros a b Hla Hlb Ha Hb Heq.
  { by destruct a, b. }
  destruct a as [|a1 [|a2 [|a3 a]]]; try (simpl in Hla; lia).
  destruct b as [|b1 [|b2 [|b3 b]]]; try (simpl in Hlb; lia).
  apply Forall_cons in Ha as [Ha1 Ha]. apply Forall_cons in Ha as [Ha2 Ha].
  apply Forall_cons in Ha as [Ha3 Ha].
  apply Forall_cons in Hb as [Hb1 Hb]. apply Forall_cons in Hb as [Hb2 Hb].
  apply Forall_cons in Hb as [Hb3 Hb].
  cbn [btoa] in Heq. rewrite !fmap_cons in Heq.
  injection Heq as E1 E2 E3 E4 Erest.
  destruct (sextets_range a1 a2 a3 Ha1 Ha2 Ha3) as (?&?&?&?).
  destruct (sextets_range b1 b2 b3 Hb1 Hb2 Hb3) as (?&?&?&?).
  apply safe_digit_inj in E1, E2, E3, E4; try done.
  destruct (sextets_inj a1 a2 a3 b1 b2 b3) as (-> & -> & ->); try done.
  do 3 f_equal. apply IH; try done; simpl in *; lia.
Qed.

Lemma string_length_app s t :
  String.length (s +:+ t) = (String.length s + String.length t)%nat.
Proof. induction s as [|c s IH]; simpl; [done|]. by rewrite IH. Qed.

Lemma string_of_list_length l :
  String.length (String.string_of_list_ascii l) = length l.
Proof. induction l as [|c l IH]; simpl; [done|]. by rewrite IH. Qed.

(** X29: a round id made from 24 bytes is [GID-] followed by 32
    characters, each a letter, a digit, [-] or [_], so it has 36
    characters and needs no escaping in an address. *)
Theorem game_id_format bytes :
  randomBytes bytes ->
  exists body,
    generateGameId bytes = "GID-" +:+ String.string_of_list_ascii body
    /\ length body = 32%nat
    /\ Forall (fun c => urlSafe c = true) body
    /\ String.length (generateGameId bytes) = 36%nat.
Proof.
  intros [Hlen Hrange].
  destruct (btoa_triples 8 bytes Hlen Hrange) as [Hl Hsafe].
  exists (urlSafeChar <$> btoa bytes).
  unfold generateGameId. rewrite stripPadding_none by done.
  repeat split; [by rewrite length_fmap|done|].
  rewrite string_length_app, string_of_list_length, length_fmap, Hl.
  reflexivity.
Qed.

Lemma game_id_format_witness :
  String.length (generateGameId (replicate 24 255)) = 36%nat.
Proof.
  destruct (game_id_format (replicate 24 255)) as (body & _ & _ & _ & Hlen).
  - split; [reflexivity|]. repeat constructor; discriminate.
  - assumption.
Defined.

(** X30: different bytes give different round ids: two arrays of 24
    bytes with the same id are equal. *)
Theorem game_id_injective a b :
  randomBytes a -> randomBytes b ->
  generateGameId a = generateGameId b -> a = b.
Proof.
  intros [Hla Ha] [Hlb Hb] Heq.
  destruct (btoa_triples 8 a Hla Ha) as [_ Hsa].
  destruct (btoa_triples 8 b Hlb Hb) as [_ Hsb].
  unfold generateGameId in Heq.
  rewrite !stripPadding_none in Heq by done.
  injection Heq as Heq.
  change (String.string_of_list_ascii (urlSafeChar <$> btoa a)
          = String.string_of_list_ascii (urlSafeChar <$> btoa b)) in Heq.
  apply (f_equal String.list_ascii_of_string) in Heq.
  rewrite !String.list_ascii_of_string_of_list_ascii in Heq.
  by apply (btoa_inj 8).
Qed.

Lemma game_id_injective_witness :
  replicate 24 7 = 7 :: replicate 23 7.
Proof.
  apply game_id_injective.
  - split; [reflexivity|]. repeat constructor; discriminate.
  - split; [reflexivity|]. repeat constructor; discriminate.
  - reflexivity.
Defined.
